(** * Invoice extraction and PO matching (app.py)

    A shallow embedding of the invoice engine of [app.py]: the fuzzy text
    primitives ([normalize_text_for_matching], [levenshtein_distance],
    [fuzzy_match_score], [find_job_name_in_text]), the assist reply handling
    of [match_invoice_with_claude], the extraction chain of
    [extract_invoice_data], and the page grouping of [process_bulk_pdf].

    Conventions.
    - A Python [str] is a [list ascii]; the character classes ([\s], [\w],
      [\d], [upper], [lower], [strip], [split]) are the ones Python has on
      ASCII code points.  A statement that needs more than that of the
      texts, such as [upper] keeping the length, is made for texts of
      ASCII characters ([ascii_text]).
    - A Python [int] is a [Z].
    - A Python [float] is the exact rational value of a binary64 number:
      every arithmetic operation is the exact operation followed by
      rounding to nearest, ties to even ([Float.rnd]); overflow to [inf]
      is modelled where the program can reach it (the invoice amount).
    - A [dict] whose iteration order the program depends on is an
      association list in insertion order.
    - [re] is modelled by a backtracking matcher over a syntax tree
      obtained by [Re.compile] from the pattern text of the source.
    - The one exception modelled is the [re.error] of a pattern built
      from a job name.  The faults of the PDF library, of the file system
      and of the data base are not: a run of [process_bulk_pdf] that
      reports success stands for a run of the program in which none of
      them occurred, and what is stated of a run that fails is what
      holds whichever fault ended it. *)

From Stdlib Require Import Ascii String.
From Stdlib Require Import List ZArith QArith Bool Lia Arith Sorted
  Permutation.
Import ListNotations.

Open Scope Z_scope.

(** ** Python strings *)

Module PyStr.

Definition str := list ascii.

Definition lit (s : string) : str := list_ascii_of_string s.

Definition code (c : ascii) : Z := Z.of_nat (nat_of_ascii c).

Definition chr (n : Z) : ascii := ascii_of_nat (Z.to_nat n).

Definition between (lo hi : Z) (c : ascii) : bool :=
  (lo <=? code c) && (code c <=? hi).

(** [str.isspace] and [\s] on ASCII: TAB..CR, FS..US and the space. *)
Definition is_space (c : ascii) : bool :=
  between 9 13 c || between 28 32 c.

Definition is_digit (c : ascii) : bool := between 48 57 c.
Definition is_upper (c : ascii) : bool := between 65 90 c.
Definition is_lower (c : ascii) : bool := between 97 122 c.
Definition is_alpha (c : ascii) : bool := is_upper c || is_lower c.

(** [\w] on ASCII: letters, digits and the underscore. *)
Definition is_word (c : ascii) : bool :=
  is_alpha c || is_digit c || (code c =? 95).

Definition upper_char (c : ascii) : ascii :=
  if is_lower c then chr (code c - 32) else c.

Definition lower_char (c : ascii) : ascii :=
  if is_upper c then chr (code c + 32) else c.

Definition upper (s : str) : str := map upper_char s.
Definition lower (s : str) : str := map lower_char s.

Definition eqb_char (a b : ascii) : bool := Ascii.eqb a b.

Fixpoint eqb (a b : str) : bool :=
  match a, b with
  | [], [] => true
  | x :: a', y :: b' => eqb_char x y && eqb a' b'
  | _, _ => false
  end.

Definition len (s : str) : Z := Z.of_nat (length s).

(** [s.lstrip()], [s.rstrip()], [s.strip()] *)
Fixpoint lstrip (s : str) : str :=
  match s with
  | c :: s' => if is_space c then lstrip s' else s
  | [] => []
  end.

Definition rstrip (s : str) : str := rev (lstrip (rev s)).

Definition strip (s : str) : str := rstrip (lstrip s).

(** [s.replace(old, new)] for a one-character [old]. *)
Definition replace (old : ascii) (new : str) (s : str) : str :=
  flat_map (fun c => if eqb_char c old then new else [c]) s.

(** [s.startswith(p)] *)
Fixpoint startswith (p s : str) : bool :=
  match p, s with
  | [], _ => true
  | x :: p', y :: s' => eqb_char x y && startswith p' s'
  | _ :: _, [] => false
  end.

(** [s.find(p)] counted from [i]: the lowest index, or [-1]. *)
Fixpoint find_from (i : Z) (p s : str) : Z :=
  if startswith p s then i
  else match s with
       | [] => -1
       | _ :: s' => find_from (i + 1) p s'
       end.

Definition find (p s : str) : Z := find_from 0 p s.

(** [p in s] *)
Definition contains (p s : str) : bool := 0 <=? find p s.

(** [s.split()]: the maximal runs of characters that are not white space. *)
Fixpoint split_ws_aux (cur : str) (s : str) : list str :=
  match s with
  | [] => match cur with [] => [] | _ => [rev cur] end
  | c :: s' =>
      if is_space c
      then match cur with
           | [] => split_ws_aux [] s'
           | _ => rev cur :: split_ws_aux [] s'
           end
      else split_ws_aux (c :: cur) s'
  end.

Definition split_ws (s : str) : list str := split_ws_aux [] s.

(** [s.split(sep)] for a one-character [sep]: empty fields are kept. *)
Fixpoint split_on_aux (sep : ascii) (cur : str) (s : str) : list str :=
  match s with
  | [] => [rev cur]
  | c :: s' =>
      if eqb_char c sep then rev cur :: split_on_aux sep [] s'
      else split_on_aux sep (c :: cur) s'
  end.

Definition split_on (sep : ascii) (s : str) : list str :=
  split_on_aux sep [] s.

(** [s.split(sep, 1)] when [sep in s]: the text before and after the
    first separator. *)
Fixpoint split_once_aux (sep : ascii) (cur : str) (s : str)
  : option (str * str) :=
  match s with
  | [] => None
  | c :: s' =>
      if eqb_char c sep then Some (rev cur, s')
      else split_once_aux sep (c :: cur) s'
  end.

Definition split_once (sep : ascii) (s : str) : option (str * str) :=
  split_once_aux sep [] s.

(** [sep.join(parts)] *)
Fixpoint join (sep : str) (parts : list str) : str :=
  match parts with
  | [] => []
  | [p] => p
  | p :: ps => p ++ sep ++ join sep ps
  end.

(** An index of a slice, as Python clamps it. *)
Definition clamp_index (n : Z) (i : Z) : Z :=
  if i <? 0 then Z.max 0 (n + i) else Z.min n i.

(** [s[a:b]] *)
Definition slice (s : str) (a b : Z) : str :=
  let n := len s in
  let a' := clamp_index n a in
  let b' := clamp_index n b in
  firstn (Z.to_nat (b' - a')) (skipn (Z.to_nat a') s).

(** [s[a:]] and [s[:b]] *)
Definition slice_from (s : str) (a : Z) : str := slice s a (len s).
Definition slice_to (s : str) (b : Z) : str := slice s 0 b.

(** [str(n)] for an [int]. *)
Definition digit_char (d : Z) : ascii := chr (48 + d).

Fixpoint digits_of_pos (fuel : nat) (n : Z) (acc : str) : str :=
  match fuel with
  | O => acc
  | S f =>
      let acc' := digit_char (n mod 10) :: acc in
      if n <? 10 then acc' else digits_of_pos f (n / 10) acc'
  end.

Definition digits_of (n : Z) : str :=
  digits_of_pos (S (Z.to_nat (Z.log2 n))) n [].

Definition str_of_int (n : Z) : str :=
  if n <? 0 then "-"%char :: digits_of (- n) else digits_of n.

(** [format(n, '04d')]: zero padding to four columns, the sign included. *)
Definition zeros (k : Z) : str := repeat "0"%char (Z.to_nat k).

Definition format_04d (n : Z) : str :=
  if n <? 0
  then let d := digits_of (- n) in "-"%char :: zeros (3 - len d) ++ d
  else let d := digits_of n in zeros (4 - len d) ++ d.

(** [int(s)]: white space around, an optional sign, decimal digits with
    single underscores between them; [None] stands for [ValueError]. *)
Fixpoint int_digits (acc : Z) (after_digit : bool) (s : str) : option Z :=
  match s with
  | [] => if after_digit then Some acc else None
  | c :: s' =>
      if is_digit c then int_digits (10 * acc + (code c - 48)) true s'
      else if (code c =? 95) && after_digit
           then match s' with
                | d :: _ => if is_digit d then int_digits acc false s' else None
                | [] => None
                end
           else None
  end.

Definition int_of_str (s : str) : option Z :=
  match strip s with
  | c :: s' =>
      if code c =? 45 then option_map Z.opp (int_digits 0 false s')
      else if code c =? 43 then int_digits 0 false s'
      else int_digits 0 false (c :: s')
  | [] => None
  end.

End PyStr.

Import PyStr.

(** ** Python floats

    A finite [float] is kept as the rational number it denotes.  An
    operation of Python is the exact operation on rationals followed by
    [rnd], the rounding of IEEE 754 binary64 (53 significant bits, to
    nearest, ties to even).  The exponent is not bounded below: the
    program never produces a non-zero value under [2^-1022]. *)

Module Float.

(** The integer nearest to [n / d], ties to even ([0 <= n], [0 < d]). *)
Definition rne (n d : Z) : Z :=
  let f := n / d in
  let r := n mod d in
  if 2 * r <? d then f
  else if d <? 2 * r then f + 1
  else if Z.even f then f else f + 1.

(** Rounding of [n / d] for [0 < n], [0 < d]: with [e] the integer such
    that [2^e <= n/d < 2^(e+1)], the result is [m * 2^(e-52)] for the
    integer [m] nearest to [n/d * 2^(52-e)]. *)
Definition rnd_pos (n d : Z) : Q :=
  let e0 := Z.log2 n - Z.log2 d in
  let e := if n * 2 ^ Z.max 0 (- e0) <? d * 2 ^ Z.max 0 e0
           then e0 - 1 else e0 in
  let s := 52 - e in
  let m := rne (n * 2 ^ Z.max 0 s) (d * 2 ^ Z.max 0 (- s)) in
  Qmake (m * 2 ^ Z.max 0 (- s)) (Z.to_pos (2 ^ Z.max 0 s)).

Definition rnd (x : Q) : Q :=
  let n := Qnum x in
  let d := Zpos (Qden x) in
  if n =? 0 then 0%Q
  else if n <? 0 then Qopp (rnd_pos (- n) d)
  else rnd_pos n d.

(** [float(n)] of an [int], and a decimal literal [n / d] of the source. *)
Definition of_int (n : Z) : Q := rnd (inject_Z n).
Definition literal (n : Z) (d : positive) : Q := rnd (Qmake n d).

(** [a / b] on two [int]s, [x - y] and [n * x] with [n] an [int]. *)
Definition div_int (a b : Z) : Q := rnd (Qdiv (inject_Z a) (inject_Z b)).
Definition sub (x y : Q) : Q := rnd (Qminus x y).
Definition mul_int (n : Z) (x : Q) : Q := rnd (Qmult (of_int n) x).

Definition leb (x y : Q) : bool := Qle_bool x y.
Definition ltb (x y : Q) : bool := negb (Qle_bool y x).

(** [max(x, y)] of Python: [y] when [y > x], else [x]. *)
Definition max (x y : Q) : Q := if ltb x y then y else x.

(** A [float] that may have overflowed. *)
Inductive t :=
| Finite (q : Q)
| Infinity.

(** A value that rounds to this bound or beyond is out of range. *)
Definition overflow_bound : Q := inject_Z (2 ^ 1024).

Definition of_Q (x : Q) : t :=
  let r := rnd x in
  if leb overflow_bound r then Infinity else Finite r.

(** [float(s)] on plain decimal notation (digits with at most one point
    and no sign) and on ["inf"]: the texts the engine passes to it;
    [None] stands for [ValueError]. *)
Fixpoint decimal (num den : Z) (seen_point seen_digit : bool) (s : str)
  : option Q :=
  match s with
  | [] => if seen_digit
          then Some (Qmake num (Z.to_pos den)) else None
  | c :: s' =>
      if is_digit c
      then decimal (10 * num + (code c - 48))
                   (if seen_point then 10 * den else den)
                   seen_point true s'
      else if (code c =? 46) && negb seen_point
           then decimal num den true seen_digit s'
           else None
  end.

Definition of_str (s : str) : option t :=
  if eqb s (lit "inf") then Some Infinity
  else option_map of_Q (decimal 0 1 false false s).

(** [format(x, '.2f')] *)
Definition two_digits (n : Z) : str :=
  [digit_char (n / 10); digit_char (n mod 10)].

Definition format_2f_abs (x : Q) : str :=
  let h := rne (Qnum x * 100) (Zpos (Qden x)) in
  digits_of (h / 100) ++ "."%char :: two_digits (h mod 100).

Definition format_2f (x : t) : str :=
  match x with
  | Infinity => lit "inf"
  | Finite q =>
      if Qnum q <? 0
      then "-"%char :: format_2f_abs (Qopp q)
      else format_2f_abs q
  end.

End Float.

(** ** Regular expressions ([re])

    The patterns of the program are kept as the text they have in the
    source and compiled by [compile]; the matcher is a backtracking one,
    leftmost match first, greedy and lazy repetition, numbered groups.
    The syntax covered is the one the patterns use: literals, [.], [^],
    [$], escapes ([\s \S \d \D \w \W \b \B] and escaped punctuation),
    sets with ranges and negation, groups [( )] and [(?: )], alternation
    and the quantifiers [* + ? {n} {n,} {n,m}], greedy, lazy with [?] or
    possessive with [+] (as [re] has them from Python 3.11 on).
    [compile] returns [None] where [re.compile] raises, and for syntax
    outside this fragment (back-references, look-around, inline flags,
    named groups, [\A], [\Z] and numeric escapes), which no pattern
    written in the source uses.  A pattern
    built at run time from a job name could use it: what is stated of
    such patterns is stated for job names that cannot ([plain_jobs],
    [paren_jobs]). *)

Module Re.

Inductive item :=
| One (c : ascii)
| Range (lo hi : ascii)
| Space | NotSpace
| Digit | NotDigit
| Word | NotWord.

Inductive regex :=
| Empty
| Any
| Chars (negated : bool) (items : list item)
| Bol
| Eol
| Boundary
| NotBoundary
| Cat (a b : regex)
| Or (a b : regex)
| Repeat (lo : nat) (hi : option nat) (greedy : bool) (a : regex)
| Group (n : nat) (a : regex)
| Atomic (a : regex).

(** *** Parsing a pattern *)

(** The item an escape [\c] denotes inside or outside a set. *)
Definition escape_item (c : ascii) : option item :=
  if eqb_char c "s" then Some Space
  else if eqb_char c "S" then Some NotSpace
  else if eqb_char c "d" then Some Digit
  else if eqb_char c "D" then Some NotDigit
  else if eqb_char c "w" then Some Word
  else if eqb_char c "W" then Some NotWord
  else if eqb_char c "n" then Some (One (chr 10))
  else if eqb_char c "t" then Some (One (chr 9))
  else if eqb_char c "r" then Some (One (chr 13))
  else if eqb_char c "f" then Some (One (chr 12))
  else if eqb_char c "v" then Some (One (chr 11))
  else if is_alpha c || is_digit c then None
  else Some (One c).

Definition is_class (i : item) : bool :=
  match i with One _ => false | _ => true end.

(** The members of a set, after the opening bracket and the optional
    [^]; [first] tells that no member was read yet, where a closing
    bracket is a literal.  A hyphen before the closing bracket is a
    literal; elsewhere it makes a range, whose ends are characters, in
    their order ("bad character range").  [fuel] bounds the number of
    members. *)
Fixpoint parse_set (fuel : nat) (first : bool) (acc : list item) (s : str)
  : option (list item * str) :=
  match fuel, s with
  | O, _ => None
  | _, [] => None
  | S f, c :: s1 =>
      if eqb_char c "]" && negb first then Some (rev acc, s1)
      else
        let lo_rest :=
          if eqb_char c "\"
          then match s1 with
               | e :: s2 =>
                   match escape_item e with
                   | Some i => Some (i, s2)
                   | None => None
                   end
               | [] => None
               end
          else Some (One c, s1) in
        match lo_rest with
        | None => None
        | Some (i, "-"%char :: h :: s3) =>
            if eqb_char h "]"
            then Some (rev (One "-" :: i :: acc), s3)
            else
              let hi_rest :=
                if eqb_char h "\"
                then match s3 with
                     | e :: s4 =>
                         match escape_item e with
                         | Some (One x) => Some (x, s4)
                         | _ => None
                         end
                     | [] => None
                     end
                else Some (h, s3) in
              match i, hi_rest with
              | One lo, Some (hi, s5) =>
                  if code lo <=? code hi
                  then parse_set f false (Range lo hi :: acc) s5
                  else None
              | _, _ => None
              end
        | Some (i, s2) => parse_set f false (i :: acc) s2
        end
  end.

(** A decimal number at the head of the text. *)
Fixpoint parse_nat (acc : nat) (seen : bool) (s : str) : option nat * str :=
  match s with
  | c :: s' =>
      if is_digit c
      then parse_nat (10 * acc + Z.to_nat (code c - 48)) true s'
      else (if seen then Some acc else None, s)
  | [] => (if seen then Some acc else None, s)
  end.

(** A quantifier in braces, after the opening brace: [n}], [n,}], [n,m}]
    or [,m}]; anything else leaves the brace a literal.  The bounds are
    returned as they are written: [quantify] refuses the ones that are
    out of order. *)
Definition parse_braces (s : str) : option (nat * option nat * str) :=
  let '(lo, s1) := parse_nat 0 false s in
  match s1 with
  | "}"%char :: s2 =>
      match lo with
      | Some n => Some (n, Some n, s2)
      | None => None
      end
  | ","%char :: s2 =>
      let '(hi, s3) := parse_nat 0 false s2 in
      match s3 with
      | "}"%char :: s4 =>
          let n := match lo with Some n => n | None => O end in
          Some (n, hi, s4)
      | _ => None
      end
  | _ => None
  end.

(** The quantifier at the head of the text, if there is one. *)
Definition parse_quant (s : str) : option (nat * option nat * str) :=
  match s with
  | "*"%char :: s' => Some (O, None, s')
  | "+"%char :: s' => Some (1%nat, None, s')
  | "?"%char :: s' => Some (O, Some 1%nat, s')
  | "{"%char :: s' => parse_braces s'
  | _ => None
  end.

Definition is_assertion (r : regex) : bool :=
  match r with
  | Bol | Eol | Boundary | NotBoundary => true
  | _ => false
  end.

(** The bounds [re.compile] refuses: "min repeat greater than max
    repeat", and a number from [MAXREPEAT] on ("the repetition number is
    too large"). *)
Definition MAXREPEAT : Z := 4294967295.

Definition out_of_order (lo : nat) (hi : option nat) : bool :=
  match hi with
  | Some m => (m <? lo)%nat
  | None => false
  end.

Definition too_large (lo : nat) (hi : option nat) : bool :=
  (MAXREPEAT <=? Z.of_nat lo)
  || match hi with
     | Some m => MAXREPEAT <=? Z.of_nat m
     | None => false
     end.

(** An atom followed by its quantifier: greedy, lazy with [?] after it,
    possessive with [+] after it (a greedy repetition that is not entered
    again once it is left); a quantifier on a quantifier is refused
    ("multiple repeat"). *)
Definition quantify (r : regex) (s : str) : option (regex * str) :=
  match parse_quant s with
  | None => Some (r, s)
  | Some (lo, hi, s1) =>
      if too_large lo hi || out_of_order lo hi || is_assertion r then None
      else
        let '(repeated, s2) :=
          match s1 with
          | "?"%char :: s2 => (Repeat lo hi false r, s2)
          | "+"%char :: s2 => (Atomic (Repeat lo hi true r), s2)
          | _ => (Repeat lo hi true r, s1)
          end in
        match parse_quant s2 with
        | Some _ => None
        | None => Some (repeated, s2)
        end
  end.

Definition cat (a b : regex) : regex :=
  match b with
  | Empty => a
  | _ => Cat a b
  end.

(** Alternation, sequence and atom; [g] is the number of groups opened
    so far. *)
Fixpoint parse_alt (fuel : nat) (s : str) (g : nat)
  : option (regex * str * nat) :=
  match fuel with
  | O => None
  | S f =>
      match parse_seq f s g with
      | Some (r, "|"%char :: s1, g1) =>
          match parse_alt f s1 g1 with
          | Some (r2, s2, g2) => Some (Or r r2, s2, g2)
          | None => None
          end
      | other => other
      end
  end
with parse_seq (fuel : nat) (s : str) (g : nat)
  : option (regex * str * nat) :=
  match fuel with
  | O => None
  | S f =>
      match s with
      | [] => Some (Empty, s, g)
      | c :: _ =>
          if eqb_char c "|" || eqb_char c ")" then Some (Empty, s, g)
          else
            match parse_atom f s g with
            | Some (r, s1, g1) =>
                match parse_seq f s1 g1 with
                | Some (r2, s2, g2) => Some (cat r r2, s2, g2)
                | None => None
                end
            | None => None
            end
      end
  end
with parse_atom (fuel : nat) (s : str) (g : nat)
  : option (regex * str * nat) :=
  match fuel with
  | O => None
  | S f =>
      let quantified (x : option (regex * str)) (g' : nat) :=
        match x with
        | Some (r, s1) =>
            match quantify r s1 with
            | Some (r', s2) => Some (r', s2, g')
            | None => None
            end
        | None => None
        end in
      match s with
      | [] => None
      | "("%char :: "?"%char :: ":"%char :: s1 =>
          match parse_alt f s1 g with
          | Some (r, ")"%char :: s2, g1) => quantified (Some (r, s2)) g1
          | _ => None
          end
      | "("%char :: "?"%char :: _ => None
      | "("%char :: s1 =>
          match parse_alt f s1 (S g) with
          | Some (r, ")"%char :: s2, g1) =>
              quantified (Some (Group (S g) r, s2)) g1
          | _ => None
          end
      | "["%char :: "^"%char :: s1 =>
          match parse_set (length s1) true [] s1 with
          | Some (items, s2) => quantified (Some (Chars true items, s2)) g
          | None => None
          end
      | "["%char :: s1 =>
          match parse_set (length s1) true [] s1 with
          | Some (items, s2) => quantified (Some (Chars false items, s2)) g
          | None => None
          end
      | "\"%char :: e :: s1 =>
          if eqb_char e "b" then quantified (Some (Boundary, s1)) g
          else if eqb_char e "B" then quantified (Some (NotBoundary, s1)) g
          else match escape_item e with
               | Some i => quantified (Some (Chars false [i], s1)) g
               | None => None
               end
      | "\"%char :: [] => None
      | "."%char :: s1 => quantified (Some (Any, s1)) g
      | "^"%char :: s1 => quantified (Some (Bol, s1)) g
      | "$"%char :: s1 => quantified (Some (Eol, s1)) g
      | c :: s1 =>
          match parse_quant s with
          | Some _ => None
          | None => quantified (Some (Chars false [One c], s1)) g
          end
      end
  end.

(** [re.compile(pattern)] *)
Definition compile (pattern : str) : option regex :=
  match parse_alt (4 * length pattern + 4) pattern O with
  | Some (r, [], _) => Some r
  | _ => None
  end.

(** A pattern written in the source: it compiles. *)
Definition pat (pattern : string) : regex :=
  match compile (lit pattern) with
  | Some r => r
  | None => Chars false []
  end.

(** *** Matching *)

(** Whether a character belongs to a member of a set. *)
Definition item_has (i : item) (c : ascii) : bool :=
  match i with
  | One x => eqb_char x c
  | Range lo hi => between (code lo) (code hi) c
  | Space => is_space c
  | NotSpace => negb (is_space c)
  | Digit => is_digit c
  | NotDigit => negb (is_digit c)
  | Word => is_word c
  | NotWord => negb (is_word c)
  end.

(** Under [re.IGNORECASE] a member matches a character when it has the
    character in either case. *)
Definition items_have (icase : bool) (items : list item) (c : ascii) : bool :=
  existsb (fun i =>
             item_has i c
             || (icase && (item_has i (lower_char c)
                           || item_has i (upper_char c))))
          items.

(** The matcher walks the subject with a cursor: the index, the character
    before it, the text from it on, and the spans of the groups closed so
    far (the last one first). *)
Record cursor := {
  pos : nat;
  before : option ascii;
  ahead : str;
  spans : list (nat * (nat * nat))
}.

Definition step (c : ascii) (rest : str) (st : cursor) : cursor :=
  {| pos := S (pos st); before := Some c; ahead := rest;
     spans := spans st |}.

Definition close_group (n from : nat) (st : cursor) : cursor :=
  {| pos := pos st; before := before st; ahead := ahead st;
     spans := (n, (from, pos st)) :: spans st |}.

Definition word_before (st : cursor) : bool :=
  match before st with Some c => is_word c | None => false end.

Definition word_ahead (st : cursor) : bool :=
  match ahead st with c :: _ => is_word c | [] => false end.

Definition at_boundary (st : cursor) : bool :=
  xorb (word_before st) (word_ahead st).

Definition at_end (st : cursor) : bool :=
  match ahead st with
  | [] => true
  | [c] => code c =? 10
  | _ => false
  end.

Definition or_else {A} (x y : option A) : option A :=
  match x with Some _ => x | None => y end.

Definition below (cnt : nat) (hi : option nat) : bool :=
  match hi with Some m => (cnt <? m)%nat | None => true end.

Section Matcher.

Variable icase : bool.

(** [run r st k]: match [r] at [st] and hand the cursor reached to the
    rest of the pattern [k]; alternatives are tried in the order of the
    backtracking engine of [re].  A repetition stops iterating once an
    iteration beyond the required ones consumes nothing. *)
Fixpoint run (r : regex) (st : cursor) (k : cursor -> option cursor)
  {struct r} : option cursor :=
  match r with
  | Empty => k st
  | Any =>
      match ahead st with
      | c :: rest => if code c =? 10 then None else k (step c rest st)
      | [] => None
      end
  | Chars negated items =>
      match ahead st with
      | c :: rest =>
          if xorb negated (items_have icase items c)
          then k (step c rest st) else None
      | [] => None
      end
  | Bol => if (pos st =? 0)%nat then k st else None
  | Eol => if at_end st then k st else None
  | Boundary => if at_boundary st then k st else None
  | NotBoundary => if at_boundary st then None else k st
  | Cat a b => run a st (fun st1 => run b st1 k)
  | Or a b => or_else (run a st k) (run b st k)
  | Group n a => run a st (fun st1 => k (close_group n (pos st) st1))
  | Atomic a =>
      match run a st Some with
      | Some st1 => k st1
      | None => None
      end
  | Repeat lo hi greedy a =>
      (fix iterate (fuel cnt : nat) (st0 : cursor) {struct fuel}
         : option cursor :=
         match fuel with
         | O => None
         | S f =>
             let again :=
               if below cnt hi
               then run a st0
                      (fun st1 =>
                         if (cnt <? lo)%nat || (pos st0 <? pos st1)%nat
                         then iterate f (S cnt) st1
                         else None)
               else None in
             if (cnt <? lo)%nat then again
             else if greedy then or_else again (k st0)
             else or_else (k st0) again
         end) (S (lo + length (ahead st))) O st
  end.

End Matcher.

(** A match object: the subject, the span of the match and of its
    groups. *)
Record matched := {
  subject : str;
  m_start : nat;
  m_end : nat;
  m_spans : list (nat * (nat * nat))
}.

Definition start (m : matched) : Z := Z.of_nat (m_start m).

Fixpoint span_of (n : nat) (l : list (nat * (nat * nat)))
  : option (nat * nat) :=
  match l with
  | [] => None
  | (i, sp) :: l' => if (i =? n)%nat then Some sp else span_of n l'
  end.

(** [m.group(n)]; a group that took no part in the match has no text
    (it cannot happen for group 1 of the patterns of the program, which is
    never optional). *)
Definition group (n : nat) (m : matched) : str :=
  match n with
  | O => firstn (m_end m - m_start m) (skipn (m_start m) (subject m))
  | _ =>
      match span_of n (m_spans m) with
      | Some (a, b) => firstn (b - a) (skipn a (subject m))
      | None => []
      end
  end.

(** The leftmost match at or after a cursor; the cursor after the match
    is returned with it. *)
Fixpoint scan (icase : bool) (r : regex) (text : str)
  (i : nat) (prev : option ascii) (rest : str) {struct rest}
  : option (matched * cursor) :=
  let st := {| pos := i; before := prev; ahead := rest; spans := [] |} in
  match run icase r st Some with
  | Some fin =>
      Some ({| subject := text; m_start := i; m_end := pos fin;
               m_spans := spans fin |}, fin)
  | None =>
      match rest with
      | [] => None
      | c :: rest' => scan icase r text (S i) (Some c) rest'
      end
  end.

(** [re.search(pattern, text)], with [re.IGNORECASE] when [icase]. *)
Definition search (icase : bool) (r : regex) (text : str) : option matched :=
  option_map fst (scan icase r text O None text).

(** [re.finditer(pattern, text)]: the matches from left to right,
    each search starting where the previous match ended (one character
    further after an empty match). *)
Fixpoint finditer_from (fuel : nat) (icase : bool) (r : regex) (text : str)
  (i : nat) (prev : option ascii) (rest : str) : list matched :=
  match fuel with
  | O => []
  | S f =>
      match scan icase r text i prev rest with
      | None => []
      | Some (m, fin) =>
          m ::
          (if (m_start m <? m_end m)%nat
           then finditer_from f icase r text (pos fin) (before fin) (ahead fin)
           else match ahead fin with
                | [] => []
                | c :: rest' =>
                    finditer_from f icase r text (S (pos fin)) (Some c) rest'
                end)
      end
  end.

Definition finditer (icase : bool) (r : regex) (text : str) : list matched :=
  finditer_from (S (length text)) icase r text O None text.

(** [re.findall(pattern, text)] for a pattern with one group. *)
Definition findall (icase : bool) (r : regex) (text : str) : list str :=
  map (group 1) (finditer icase r text).

(** [re.sub(pattern, repl, text)] for a replacement without group
    references. *)
Fixpoint splice (repl : str) (text : str) (from : nat) (ms : list matched)
  : str :=
  match ms with
  | [] => skipn from text
  | m :: ms' =>
      firstn (m_start m - from) (skipn from text)
      ++ repl ++ splice repl text (m_end m) ms'
  end.

Definition sub (r : regex) (repl : str) (text : str) : str :=
  splice repl text O (finditer false r text).

End Re.

(** ** Fuzzy text primitives *)

(** [not x] for a string, a list or a dictionary. *)
Definition is_empty {A} (s : list A) : bool :=
  match s with [] => true | _ => false end.

(** [format_po_number(po_id, job_name)] *)
Definition format_po_number (po_id : Z) (job_name : str) : str :=
  if negb (is_empty job_name) && eqb (lower job_name) (lit "service")
  then "S"%char :: format_04d po_id
  else format_04d po_id.

(** [normalize_text_for_matching(text)] *)
Definition normalize_text_for_matching (text : str) : str :=
  if is_empty text then []
  else
    let text := upper text in
    let text := Re.sub (Re.pat "\s+") (lit " ") text in
    let text := Re.sub (Re.pat "[^\w\s]") [] text in
    strip text.

(** The inner loop of [levenshtein_distance]: the cells of the current
    row after its first one, from the previous row; [left] is the cell
    appended last, [current_row[j]]. *)
Fixpoint lev_row (c1 : ascii) (s2 : str) (previous_row : list Z) (left : Z)
  : list Z :=
  match s2, previous_row with
  | c2 :: s2', prev_j :: ((prev_j1 :: _) as previous_rest) =>
      let insertions := prev_j1 + 1 in
      let deletions := left + 1 in
      let substitutions := prev_j + (if eqb_char c1 c2 then 0 else 1) in
      let cell := Z.min (Z.min insertions deletions) substitutions in
      cell :: lev_row c1 s2' previous_rest cell
  | _, _ => []
  end.

(** The outer loop: [i] counts the characters of [s1] already used. *)
Fixpoint lev_rows (s1 s2 : str) (i : Z) (previous_row : list Z) : list Z :=
  match s1 with
  | [] => previous_row
  | c1 :: s1' =>
      lev_rows s1' s2 (i + 1) ((i + 1) :: lev_row c1 s2 previous_row (i + 1))
  end.

(** [range(n + 1)] *)
Definition range_to (n : nat) : list Z := map Z.of_nat (seq 0 (S n)).

(** [levenshtein_distance(s1, s2)] *)
Definition levenshtein_distance (s1 s2 : str) : Z :=
  let '(s1, s2) := if len s1 <? len s2 then (s2, s1) else (s1, s2) in
  if len s2 =? 0 then len s1
  else last (lev_rows s1 s2 0 (range_to (length s2))) 0.

(** [fuzzy_match_score(text1, text2)] *)
Definition fuzzy_match_score (text1 text2 : str) : Q :=
  if is_empty text1 || is_empty text2 then 0%Q
  else
    let t1 := normalize_text_for_matching text1 in
    let t2 := normalize_text_for_matching text2 in
    if is_empty t1 || is_empty t2 then 0%Q
    else if eqb t1 t2 then 1%Q
    else
      let t1_no_space := replace " " [] t1 in
      let t2_no_space := replace " " [] t2 in
      if eqb t1_no_space t2_no_space then Float.literal 98 100
      else
        let longer := if len t2_no_space <=? len t1_no_space
                      then t1_no_space else t2_no_space in
        let shorter := if len t2_no_space <=? len t1_no_space
                       then t2_no_space else t1_no_space in
        if len longer =? 0 then 0%Q
        else
          let distance := levenshtein_distance shorter longer in
          let max_len := len longer in
          let similarity := Float.sub 1 (Float.div_int distance max_len) in
          Float.max 0 similarity.

(** The answer of [find_job_name_in_text]:
    [(found, position, matched_text, score)]. *)
Record name_hit := {
  found : bool;
  position : Z;
  matched_text : option str;
  score : Q
}.

(** [range(a, b)] *)
Definition range (a b : Z) : list Z :=
  map (fun k => a + Z.of_nat k) (seq 0 (Z.to_nat (b - a))).

(** [words[i:i + window_size]] *)
Definition window (words : list str) (i window_size : Z) : list str :=
  firstn (Z.to_nat window_size) (skipn (Z.to_nat i) words).

(** [find_job_name_in_text(text, job_name, threshold)] *)
Definition find_job_name_in_text (text job_name : str) (threshold : Q)
  : name_hit :=
  if is_empty text || is_empty job_name
  then {| found := false; position := -1; matched_text := None;
          score := 0 |}
  else
    let text_upper := upper text in
    let job_upper := strip (upper job_name) in
    let job_no_spaces :=
      replace "_" [] (replace "-" [] (replace " " [] job_upper)) in
    let job_normalized := normalize_text_for_matching job_name in
    if contains job_normalized (normalize_text_for_matching text)
    then
      let pos := find job_upper text_upper in
      let pos := if pos =? -1
                 then find job_no_spaces (replace " " [] text_upper)
                 else pos in
      {| found := true; position := if 0 <=? pos then pos else 0;
         matched_text := Some job_normalized; score := 1 |}
    else
      let text_no_spaces := replace " " [] text_upper in
      if contains job_no_spaces text_no_spaces
      then {| found := true; position := find job_no_spaces text_no_spaces;
              matched_text := Some job_no_spaces;
              score := Float.literal 98 100 |}
      else
        let job_len := len job_no_spaces in
        let words := split_ws text_upper in
        let n_words := Z.of_nat (length words) in
        let windows :=
          flat_map (fun window_size =>
                      map (fun i => window words i window_size)
                          (range 0 (n_words - window_size + 1)))
                   (range 1 (Z.min 5 (n_words + 1))) in
        let visit (best : Q * Z * option str) (window_words : list str) :=
          let '(best_score, best_pos, best_match) := best in
          let window_text := join [] window_words in
          if Float.ltb
               (Float.max 3 (Float.mul_int job_len (Float.literal 3 10)))
               (inject_Z (Z.abs (len window_text - job_len)))
          then best
          else
            let score := fuzzy_match_score window_text job_no_spaces in
            if Float.ltb best_score score && Float.leb threshold score
            then (score,
                  find (hd [] window_words) text_upper,
                  Some (join (lit " ") window_words))
            else best in
        let '(best_score, best_pos, best_match) :=
          fold_left visit windows (0%Q, -1, None) in
        if Float.leb threshold best_score
        then {| found := true; position := best_pos;
                matched_text := best_match; score := best_score |}
        else {| found := false; position := -1; matched_text := None;
                score := best_score |}.

(** ** Eligible purchase orders and the collaborators of the engine *)

(** A row of [po_map]: an approved PO without invoice. *)
Record po_info := {
  id : Z;
  tech_name : str;
  job_name : str;
  estimated_cost : Q
}.

(** [po_map]: a [dict] keyed by the PO id, in the order of the rows of
    the query; the ids are those of a primary key, each occurs once. *)
Definition po_map_t := list (Z * po_info).

(** [po_info.get('job_name', ...)]: the key is always there. *)
Definition job_of (info : po_info) : str := job_name info.

(** [po_id in po_map] and [po_map[po_id]] *)
Definition po_in (po_id : Z) (po_map : po_map_t) : bool :=
  existsb (fun e => fst e =? po_id) po_map.

Fixpoint po_get (po_id : Z) (po_map : po_map_t) : option po_info :=
  match po_map with
  | [] => None
  | (k, info) :: rest => if k =? po_id then Some info else po_get po_id rest
  end.

(** What the engine reads from outside during a batch: the setting and
    key behind [is_claude_matching_enabled()], the rows of
    [get_active_job_names()], the assist service and [OCR_SUPPORT].
    The service is given the three texts the prompt is built from (the
    job list, the PO list and the excerpt of the page) and answers with
    the text of its reply, or fails ([None]: any exception of the call).
    The rows written by [log_claude_api_usage] are not modelled. *)
Record env := {
  claude_matching_enabled : bool;
  active_job_names : list str;
  assist_reply : str -> str -> str -> option str;
  ocr_support : bool
}.

(** The value of [match_method]. *)
Inductive method :=
| ClaudeAI
| TableColumn
| PatternMatch
| DirectSearch
| FuzzyMatch.

Definition method_name (m : method) : str :=
  match m with
  | ClaudeAI => lit "Claude AI"
  | TableColumn => lit "Table Column"
  | PatternMatch => lit "Pattern Match"
  | DirectSearch => lit "Direct Search"
  | FuzzyMatch => lit "Fuzzy Match"
  end.

Definition nl : ascii := chr 10.

(** ** The assist strategy: [match_invoice_with_claude] *)

(** [result.get(key, default)] on the parsed reply; the entry written
    last is the first of the list. *)
Fixpoint reply_get (key : str) (default : str) (result : list (str * str))
  : str :=
  match result with
  | [] => default
  | (k, v) :: rest => if eqb k key then v else reply_get key default rest
  end.

(** The loop over the lines of the reply. *)
Definition parse_reply (response_text : str) : list (str * str) :=
  fold_left
    (fun result line =>
       match split_once ":" line with
       | Some (key, value) => (upper (strip key), strip value) :: result
       | None => result
       end)
    (split_on nl (strip response_text)) [].

(** The score of a confidence word. *)
Definition confidence_score (confidence : str) : Q :=
  let c := lower confidence in
  if eqb c (lit "high") then Float.literal 95 100
  else if eqb c (lit "medium") then Float.literal 80 100
  else if eqb c (lit "low") then Float.literal 60 100
  else Float.literal 5 10.

(** What is done with a reply of the service:
    [(po_number, job_name, confidence)]. *)
Definition read_reply (response_text : str) (po_map : po_map_t)
  : option Z * option str * Q :=
  let result := parse_reply response_text in
  let matched := eqb (lower (reply_get (lit "MATCHED") (lit "no") result))
                     (lit "yes") in
  let job_name := reply_get (lit "JOB_NAME") (lit "none") result in
  let po_number_str := reply_get (lit "PO_NUMBER") (lit "none") result in
  let confidence := reply_get (lit "CONFIDENCE") (lit "low") result in
  if negb matched || eqb (lower job_name) (lit "none")
     || eqb (lower po_number_str) (lit "none")
  then (None, None, 0%Q)
  else
    match int_of_str po_number_str with
    | Some po_number =>
        if negb (po_in po_number po_map) then (None, None, 0%Q)
        else (Some po_number, Some job_name, confidence_score confidence)
    | None => (None, None, 0%Q)
    end.

(** The three texts put into the prompt. *)
Definition po_context (po_map : po_map_t) : str :=
  join [nl]
    (map (fun entry =>
            lit "PO #" ++ str_of_int (fst entry) ++ lit ": Job '"
            ++ job_of (snd entry) ++ lit "'")
         po_map).

Definition jobs_list (active_jobs : list str) : str :=
  join (lit ", ") active_jobs.

Definition invoice_excerpt (invoice_text : str) : str :=
  if 3000 <? len invoice_text then slice_to invoice_text 3000
  else invoice_text.

(** [match_invoice_with_claude(invoice_text, active_jobs, po_map)] *)
Definition match_invoice_with_claude (e : env) (invoice_text : str)
  (active_jobs : list str) (po_map : po_map_t) : option Z * option str * Q :=
  if negb (claude_matching_enabled e) then (None, None, 0%Q)
  else if is_empty active_jobs || is_empty po_map then (None, None, 0%Q)
  else
    match assist_reply e (jobs_list active_jobs) (po_context po_map)
            (invoice_excerpt invoice_text) with
    | Some response_text => read_reply response_text po_map
    | None => (None, None, 0%Q)
    end.

(** ** [extract_invoice_data] *)

(** The dictionary returned for a page with an invoice number: the
    [{'error': True, ...}] record when no PO was found, else the match. *)
Inductive invoice_data :=
| NoPO (invoice_number cost message : str)
| Match (po_id : Z) (invoice_number cost : str) (match_method : option method).

(** A call either returns or raises ([re.error], from a pattern built at
    run time). *)
Inductive outcome (A : Type) :=
| Returned (a : A)
| Raised.
Arguments Returned {A} a.
Arguments Raised {A}.

Definition invoice_number_of (d : invoice_data) : str :=
  match d with
  | NoPO n _ _ => n
  | Match _ n _ _ => n
  end.

Definition cost_of (d : invoice_data) : str :=
  match d with
  | NoPO _ c _ => c
  | Match _ _ c _ => c
  end.

(** *** Step 1: the invoice number *)

Definition customer_invoice_patterns : list Re.regex :=
  [ Re.pat "CUSTOMER\s*#\s*INVOICE\s*#[\s\S]*?(\d{5,}[A-Z0-9\-]*)";
    Re.pat "INVOICE\s*#[\s:]*(\d{5,}[A-Z0-9\-]*)" ].

Definition order_patterns : list Re.regex :=
  [ Re.pat "INVOICE\s*#\s*:?\s*([A-Z0-9\-]+)";
    Re.pat "INVOICE\s*(?:NO|NUM|NUMBER)\s*[:\s]*([A-Z0-9\-]+)";
    Re.pat "Invoice\s+No\s*[:\s]*([A-Z0-9\-]+)";
    Re.pat "Order\s*#\s*:?\s*([A-Z0-9\-]+)";
    Re.pat "Order\s*(?:NO|NUM|NUMBER)\s*:?\s*([A-Z0-9\-]+)";
    Re.pat "Sales\s*Order\s*#?\s*:?\s*([A-Z0-9\-]+)";
    Re.pat "Work\s*Order\s*#?\s*:?\s*([A-Z0-9\-]+)";
    Re.pat "Reference\s*#?\s*:?\s*([A-Z0-9\-]+)";
    Re.pat "Ticket\s*#?\s*:?\s*([A-Z0-9\-]+)";
    Re.pat "Document\s*#?\s*:?\s*([A-Z0-9\-]+)";
    Re.pat "Receipt\s*#?\s*:?\s*([A-Z0-9\-]+)";
    Re.pat "Confirmation\s*#?\s*:?\s*([A-Z0-9\-]+)";
    Re.pat "Transaction\s*(?:ID|#)?\s*[:\s]*([A-Z0-9\-]+)" ].

Definition false_positives : list str := [lit "date"; lit "time"; lit "page"].

(** [x in list_of_strings] *)
Definition str_in (x : str) (l : list str) : bool := existsb (eqb x) l.

(** The loop over the primary patterns. *)
Fixpoint primary_invoice_number (patterns : list Re.regex) (text : str)
  : option str :=
  match patterns with
  | [] => None
  | pattern :: rest =>
      match Re.search true pattern text with
      | Some m =>
          let candidate := strip (Re.group 1 m) in
          if 5 <=? len candidate then Some candidate
          else primary_invoice_number rest text
      | None => primary_invoice_number rest text
      end
  end.

(** The loop over the fallback patterns. *)
Fixpoint fallback_invoice_number (patterns : list Re.regex) (text : str)
  : option str :=
  match patterns with
  | [] => None
  | pattern :: rest =>
      match Re.search true pattern text with
      | Some m =>
          let candidate := strip (Re.group 1 m) in
          if negb (str_in (lower candidate) false_positives)
             && (5 <=? len candidate)
          then Some candidate
          else fallback_invoice_number rest text
      | None => fallback_invoice_number rest text
      end
  end.

(** Step 1 as a whole; an invoice number that is set is never the empty
    string, so [not invoice_number] is the case [None]. *)
Definition find_invoice_number (text : str) : option str :=
  match primary_invoice_number customer_invoice_patterns text with
  | Some invoice_number => Some invoice_number
  | None => fallback_invoice_number order_patterns text
  end.

(** *** Step 2: the PO number *)

(** [po_number] and [match_method], the two variables of the chain. *)
Definition chain := (option Z * option method)%type.

(** The truth value of [po_number]: set and not zero. *)
Definition truthy (po_number : option Z) : bool :=
  match po_number with
  | Some n => negb (n =? 0)
  | None => false
  end.

(** The assist step. *)
Definition claude_step (e : env) (text : str) (po_map : po_map_t) : chain :=
  if negb (is_empty po_map) && claude_matching_enabled e
  then
    let active_jobs := active_job_names e in
    let '(claude_po, claude_job, confidence) :=
      match_invoice_with_claude e text active_jobs po_map in
    if truthy claude_po && Float.leb (Float.literal 6 10) confidence
    then (claude_po, Some ClaudeAI)
    else (None, None)
  else (None, None).

Definition header_patterns : list Re.regex :=
  [ Re.pat "(ORDER\s*#\s*)(PO\s*#)";
    Re.pat "(Purchase\s+Order[/\s]*Job\s+Name)";
    Re.pat "(PO\s*Number)";
    Re.pat "(PO\s*#)";
    Re.pat "(Customer\s*PO)";
    Re.pat "(Job\s*#)";
    Re.pat "(Job\s*Name)";
    Re.pat "(Job\s*Number)";
    Re.pat "(Work\s*Order)";
    Re.pat "(Project\s*#)";
    Re.pat "(Reference)" ].

Definition number_patterns : list Re.regex :=
  [ Re.pat "S-(\d{4,})";
    Re.pat "\b(\d{4,})[A-Za-z]+";
    Re.pat ":\s*(\d{4,})\s+[A-Za-z]";
    Re.pat "\b(\d{4,})\s+[A-Za-z]{3,}";
    Re.pat "\b(\d{4,})\b" ].

(** The loop over the matches of one pattern: the first number that is a
    key of [po_map] is taken and ends the loop. *)
Fixpoint try_matches (po_map : po_map_t) (how : method)
  (matches : list Re.matched) (st : chain) : chain :=
  match matches with
  | [] => st
  | m :: rest =>
      match int_of_str (Re.group 1 m) with
      | Some candidate =>
          if po_in candidate po_map then (Some candidate, Some how)
          else try_matches po_map how rest st
      | None => try_matches po_map how rest st
      end
  end.

(** The loop over [number_patterns] on one line. *)
Fixpoint try_number_patterns (po_map : po_map_t) (patterns : list Re.regex)
  (values_line : str) (st : chain) : chain :=
  match patterns with
  | [] => st
  | pattern :: rest =>
      if truthy (fst st) then st
      else try_number_patterns po_map rest values_line
             (try_matches po_map TableColumn
                (Re.finditer true pattern values_line) st)
  end.

(** The loop over [lines_to_check]. *)
Fixpoint try_lines (po_map : po_map_t) (lines_to_check : list str)
  (st : chain) : chain :=
  match lines_to_check with
  | [] => st
  | values_line :: rest =>
      if truthy (fst st) then st
      else try_lines po_map rest
             (try_number_patterns po_map number_patterns values_line st)
  end.

(** Method 1: the loop over the header patterns. *)
Fixpoint table_column (po_map : po_map_t) (headers : list Re.regex)
  (text : str) (st : chain) : chain :=
  match headers with
  | [] => st
  | header_pattern :: rest =>
      if truthy (fst st) then st
      else
        match Re.search true header_pattern text with
        | Some po_header_match =>
            let po_column_start := Re.start po_header_match in
            let text_after := slice_from text po_column_start in
            let lines := split_on nl text_after in
            let lines_to_check := firstn 2 lines in
            table_column po_map rest text (try_lines po_map lines_to_check st)
        | None => table_column po_map rest text st
        end
  end.

Definition po_patterns : list Re.regex :=
  [ Re.pat "PO\s*#?\s*[:\s]*S-(\d{4,})";
    Re.pat "PO\s*#?\s*[:\s]*(\d{4,})[A-Za-z]+";
    Re.pat "PO\s*#?\s*[:\s]*(\d{4,})\s+[A-Za-z]";
    Re.pat "PO\s*#?\s*[:\s]*(\d{4,})";
    Re.pat "Customer\s*PO\s*#?\s*[:\s]*(\d{4,})";
    Re.pat "Job\s*#\s*[:\s]*(\d{4,})";
    Re.pat "Job\s*(?:Name|Number)\s*[:\s]*(\d{4,})";
    Re.pat "Project\s*#?\s*[:\s]*(\d{4,})";
    Re.pat "Work\s*Order\s*#?\s*[:\s]*(\d{4,})";
    Re.pat "Purchase\s+Order[/\s]+Job\s+Name[\s\S]*?(\d{4,})[A-Za-z]+";
    Re.pat "PO\s*Number[:\s]+(\d{4,})\s+[A-Za-z]";
    Re.pat "PO\s*Number[:\s]+(\d{4,})";
    Re.pat "\b(\d{4,})[A-Za-z]{3,}";
    Re.pat "\b(\d{4,})\s+(?:SOMERVILLE|HERONS?\s*GLEN|SERVICE)" ].

(** Method 2: the loop over [po_patterns] on the whole text. *)
Fixpoint pattern_matching (po_map : po_map_t) (patterns : list Re.regex)
  (text : str) (st : chain) : chain :=
  match patterns with
  | [] => st
  | pattern :: rest =>
      let st' := try_matches po_map PatternMatch
                   (Re.finditer true pattern text) st in
      if truthy (fst st') then st'
      else pattern_matching po_map rest text st'
  end.

Definition is_some {A} (x : option A) : bool :=
  match x with Some _ => true | None => false end.

(** Method 3: the loop over the items of [po_map].  The two patterns are
    built from the PO id and the job name as they are, and compiled when
    they are used. *)
Fixpoint direct_search (items : po_map_t) (text text_upper : str)
  (st : chain) : outcome chain :=
  match items with
  | [] => Returned st
  | (po_id, po_info) :: rest =>
      let po_str := str_of_int po_id in
      let job_name := upper (job_name po_info) in
      let job_name_no_spaces :=
        replace "_" [] (replace "-" [] (replace " " [] job_name)) in
      if contains po_str text
      then
        match Re.compile (po_str ++ lit "\s*" ++ job_name_no_spaces) with
        | None => Raised
        | Some concat_pattern =>
            if is_some (Re.search false concat_pattern text_upper)
            then Returned (Some po_id, Some DirectSearch)
            else
              let job_parts :=
                split_ws (replace "_" (lit " ")
                            (replace "-" (lit " ") job_name)) in
              let job_found :=
                existsb (fun part =>
                           (3 <=? len part) && contains part text_upper)
                        job_parts in
              if job_found then Returned (Some po_id, Some DirectSearch)
              else
                match Re.compile
                        (lit "(?:PO|Purchase\s*Order|Order|Job)[^0-9]*"
                         ++ po_str) with
                | None => Raised
                | Some po_context_pattern =>
                    if is_some (Re.search true po_context_pattern text)
                    then Returned (Some po_id, Some DirectSearch)
                    else direct_search rest text text_upper st
                end
        end
      else direct_search rest text text_upper st
  end.

(** Method 4, first pass, the loop over the numbers near a job name:
    the first one that is a PO whose own job name is close to it. *)
Fixpoint try_numbers_near (po_map : po_map_t) (job_name : str)
  (number_matches : list str) (st : chain) : chain :=
  match number_matches with
  | [] => st
  | num_str :: rest =>
      match int_of_str num_str with
      | Some candidate =>
          if po_in candidate po_map
          then
            match po_get candidate po_map with
            | Some po_info =>
                let po_job := upper (job_of po_info) in
                let job_match_score := fuzzy_match_score po_job job_name in
                if Float.leb (Float.literal 75 100) job_match_score
                then (Some candidate, Some FuzzyMatch)
                else try_numbers_near po_map job_name rest st
            | None => try_numbers_near po_map job_name rest st
            end
          else try_numbers_near po_map job_name rest st
      | None => try_numbers_near po_map job_name rest st
      end
  end.

(** Method 4, first pass: the loop over the active job names. *)
Fixpoint fuzzy_scan (po_map : po_map_t) (active_jobs : list str) (text : str)
  (st : chain) : chain :=
  match active_jobs with
  | [] => st
  | job_name :: rest =>
      if truthy (fst st) then st
      else
        let hit := find_job_name_in_text text job_name
                     (Float.literal 75 100) in
        if found hit
        then
          let pos := position hit in
          let search_start := Z.max 0 (pos - 100) in
          let search_end := Z.min (len text) (pos + len job_name + 100) in
          let context := slice text search_start search_end in
          let number_matches :=
            Re.findall false (Re.pat "\b(\d{3,5})\b") context in
          fuzzy_scan po_map rest text
            (try_numbers_near po_map job_name number_matches st)
        else fuzzy_scan po_map rest text st
  end.

(** Method 4b, the loop over [matching_pos]. *)
Fixpoint try_ids_in_text (matching_pos : list Z) (text : str) (st : chain)
  : chain :=
  match matching_pos with
  | [] => st
  | po_id :: rest =>
      if contains (str_of_int po_id) text
      then (Some po_id, Some FuzzyMatch)
      else try_ids_in_text rest text st
  end.

(** Method 4b: the broader scan. *)
Fixpoint broader_scan (po_map : po_map_t) (active_jobs : list str)
  (text : str) (st : chain) : chain :=
  match active_jobs with
  | [] => st
  | job_name :: rest =>
      if truthy (fst st) then st
      else
        let hit := find_job_name_in_text text job_name
                     (Float.literal 70 100) in
        if found hit
        then
          let matching_pos :=
            map fst
              (filter (fun entry =>
                         Float.leb (Float.literal 75 100)
                           (fuzzy_match_score (job_of (snd entry)) job_name))
                      po_map) in
          broader_scan po_map rest text (try_ids_in_text matching_pos text st)
        else broader_scan po_map rest text st
  end.

(** Method 4 as a whole. *)
Definition fuzzy_job_scan (e : env) (po_map : po_map_t) (text : str)
  (st : chain) : chain :=
  let active_jobs := active_job_names e in
  let st := fuzzy_scan po_map active_jobs text st in
  if negb (truthy (fst st))
  then broader_scan po_map active_jobs text st
  else st.

(** *** Step 3: the total cost *)

Definition cost_patterns : list Re.regex :=
  [ Re.pat "TOTAL[:\s]*\$?\s*([0-9,]+\.\d{2})";
    Re.pat "Amount\s+Due[:\s]*\$?\s*([0-9,]+\.\d{2})";
    Re.pat "Grand\s+Total[:\s]*\$?\s*([0-9,]+\.\d{2})" ].

(** [matches[-1]] of a list that is not empty. *)
Definition last_match (matches : list Re.matched) : option Re.matched :=
  hd_error (rev matches).

(** The loop over [cost_patterns]; the start value is ["0.00"]. *)
Fixpoint find_total_cost (patterns : list Re.regex) (text : str) : str :=
  match patterns with
  | [] => lit "0.00"
  | pattern :: rest =>
      match last_match (Re.finditer true pattern text) with
      | Some m =>
          let cost_str := replace "," [] (Re.group 1 m) in
          match Float.of_str cost_str with
          | Some amount => Float.format_2f amount
          | None => find_total_cost rest text
          end
      | None => find_total_cost rest text
      end
  end.

(** *** The whole function *)

(** The methods after the assist step, in their order. *)
Definition fallback_chain (e : env) (text : str) (po_map : po_map_t)
  (st : chain) : outcome chain :=
  let st := table_column po_map header_patterns text st in
  let st := if negb (truthy (fst st))
            then pattern_matching po_map po_patterns text st
            else st in
  let direct :=
    if negb (truthy (fst st)) && negb (is_empty po_map)
    then direct_search po_map text (upper text) st
    else Returned st in
  match direct with
  | Raised => Raised
  | Returned st =>
      Returned (if negb (truthy (fst st)) && negb (is_empty po_map)
                then fuzzy_job_scan e po_map text st
                else st)
  end.

(** The dictionary built at the end; [not po_number] holds for [None]
    and for [0]. *)
Definition final_result (invoice_number cost : str) (st : chain)
  : invoice_data :=
  let no_match :=
    NoPO invoice_number cost
      (lit "Invoice " ++ invoice_number
       ++ lit " - PO already has invoice or not approved") in
  match fst st with
  | Some po_number =>
      if po_number =? 0 then no_match
      else Match po_number invoice_number cost (snd st)
  | None => no_match
  end.

(** [extract_invoice_data(text, po_map)]; [None] is the [None] of
    Python. *)
Definition extract_invoice_data (e : env) (text : str) (po_map : po_map_t)
  : outcome (option invoice_data) :=
  if is_empty text then Returned None
  else
    match find_invoice_number text with
    | None => Returned None
    | Some invoice_number =>
        match fallback_chain e text po_map (claude_step e text po_map) with
        | Raised => Raised
        | Returned st =>
            let cost := find_total_cost cost_patterns text in
            Returned (Some (final_result invoice_number cost st))
        end
    end.

(** ** [process_bulk_pdf] *)

(** A page of the batch: what [page.extract_text()] gives ([None] when
    the page has no text layer) and what [extract_text_with_ocr] would
    read from its image. *)
Record page := {
  embedded_text : option str;
  ocr_text : str
}.

(** An entry of [results['errors']]. *)
Record error_entry := {
  error_page : Z;
  error_invoice_number : str;
  error_cost : str;
  error_error : str;
  error_message : str;
  error_text_preview : str
}.

(** An entry of [results['unmatched']]. *)
Record unmatched_entry := {
  unmatched_page : Z;
  unmatched_text_preview : str;
  unmatched_filename : str
}.

(** An entry of [results['details']]. *)
Record detail_entry := {
  detail_page : str;
  detail_po_number : Z;
  detail_job_name : str;
  detail_estimated_cost : Q;
  detail_invoice_number : str;
  detail_cost : str;
  detail_status : str;
  detail_pages : Z
}.

(** [results]; the texts for display ([message], [error], [trace]) are
    left out. *)
Record results := {
  success : bool;
  processed : Z;
  matched : Z;
  unmatched : list unmatched_entry;
  errors : list error_entry;
  details : list detail_entry
}.

(** A value of [invoice_groups]. *)
Record group := {
  pages : list Z;
  texts : list str;
  data : invoice_data
}.

(** [invoice_groups]: a [dict] keyed by the invoice number, in the order
    in which the numbers were first seen. *)
Definition groups_t := list (str * group).

(** A PDF written to the upload folder: its name and the pages of the
    batch it holds (counted from 0), in the order they were added. *)
Record document := {
  filename : str;
  page_indices : list Z
}.

(** An [UPDATE po_requests ... WHERE id=?]; the two dates are left
    out.  The estimated cost is [float(cost)] of a cost written by
    [format], which [float] reads back. *)
Record po_update := {
  update_id : Z;
  update_invoice_filename : str;
  update_invoice_number : str;
  update_invoice_cost : str;
  update_estimated_cost : option Float.t;
  update_match_method : str
}.

(** The run as a whole: the summary returned, the documents written and
    the updates committed, each in the order of the program. *)
Record batch := {
  report : results;
  documents : list document;
  updates : list po_update
}.

(** The text of a page, with the recognition fallback. *)
Definition page_text (e : env) (p : page) : str :=
  let text := match embedded_text p with Some t => t | None => [] end in
  if is_empty (strip text) && ocr_support e then ocr_text p else text.

(** The two statements that enter a page into its group. *)
Fixpoint add_to_group (inv_num : str) (page_idx : Z) (text : str)
  (invoice_data : invoice_data) (invoice_groups : groups_t) : groups_t :=
  match invoice_groups with
  | [] => [(inv_num, {| pages := [page_idx]; texts := [text];
                        data := invoice_data |})]
  | (key, g) :: rest =>
      if eqb key inv_num
      then (key, {| pages := pages g ++ [page_idx];
                    texts := texts g ++ [text];
                    data := data g |}) :: rest
      else (key, g) :: add_to_group inv_num page_idx text invoice_data rest
  end.

(** The state of the loop over the pages. *)
Record page_loop := {
  loop_results : results;
  loop_groups : groups_t;
  loop_documents : list document
}.

Definition count_page (r : results) : results :=
  {| success := success r; processed := processed r + 1;
     matched := matched r; unmatched := unmatched r; errors := errors r;
     details := details r |}.

Definition add_error (x : error_entry) (r : results) : results :=
  {| success := success r; processed := processed r;
     matched := matched r; unmatched := unmatched r;
     errors := errors r ++ [x]; details := details r |}.

Definition add_unmatched (x : unmatched_entry) (r : results) : results :=
  {| success := success r; processed := processed r;
     matched := matched r; unmatched := unmatched r ++ [x];
     errors := errors r; details := details r |}.

Definition add_detail (x : detail_entry) (r : results) : results :=
  {| success := success r; processed := processed r;
     matched := matched r + 1; unmatched := unmatched r;
     errors := errors r; details := details r ++ [x] |}.

Definition failed (r : results) : results :=
  {| success := false; processed := processed r;
     matched := matched r; unmatched := unmatched r;
     errors := errors r; details := details r |}.

(** The branches of the loop body, on what [extract_invoice_data]
    returned for the page numbered [page_num] (from 1). *)
Definition enter_page (timestamp : str) (page_num : Z) (text : str)
  (returned : option invoice_data) (st : page_loop) : page_loop :=
  let counted := count_page (loop_results st) in
  match returned with
  | Some (Match _ inv_num _ _ as invoice_data) =>
      {| loop_results := counted;
         loop_groups := add_to_group inv_num (page_num - 1) text
                          invoice_data (loop_groups st);
         loop_documents := loop_documents st |}
  | Some (NoPO inv_num cost message) =>
      let unmatched_filename :=
        lit "ERROR_NO_PO_" ++ timestamp ++ lit "_page" ++ str_of_int page_num
        ++ lit "_" ++ inv_num ++ lit ".pdf" in
      {| loop_results :=
           add_error {| error_page := page_num;
                        error_invoice_number := inv_num;
                        error_cost := cost;
                        error_error := lit "NO MATCHING PO FOUND";
                        error_message := message;
                        error_text_preview := slice_to text 300 |}
                     counted;
         loop_groups := loop_groups st;
         loop_documents :=
           loop_documents st
           ++ [{| filename := unmatched_filename;
                  page_indices := [page_num - 1] |}] |}
  | None =>
      let unmatched_filename :=
        lit "UNMATCHED_" ++ timestamp ++ lit "_page" ++ str_of_int page_num
        ++ lit ".pdf" in
      {| loop_results :=
           add_unmatched {| unmatched_page := page_num;
                            unmatched_text_preview := slice_to text 200;
                            unmatched_filename := unmatched_filename |}
                         counted;
         loop_groups := loop_groups st;
         loop_documents :=
           loop_documents st
           ++ [{| filename := unmatched_filename;
                  page_indices := [page_num - 1] |}] |}
  end.

(** The body of the loop. *)
Definition process_page (e : env) (timestamp : str) (po_map : po_map_t)
  (page_num : Z) (p : page) (st : page_loop) : outcome page_loop :=
  let text := page_text e p in
  match extract_invoice_data e text po_map with
  | Raised => Raised
  | Returned returned =>
      Returned (enter_page timestamp page_num text returned st)
  end.

(** The loop over the pages; a page that raises ends it, with the state
    reached before that page and the page counted. *)
Fixpoint process_pages (e : env) (timestamp : str) (po_map : po_map_t)
  (page_num : Z) (ps : list page) (st : page_loop) : page_loop * bool :=
  match ps with
  | [] => (st, true)
  | p :: rest =>
      match process_page e timestamp po_map page_num p st with
      | Returned st' => process_pages e timestamp po_map (page_num + 1) rest st'
      | Raised =>
          ({| loop_results := count_page (loop_results st);
              loop_groups := loop_groups st;
              loop_documents := loop_documents st |}, false)
      end
  end.

(** [invoice_data.get('match_method', 'Unknown')] *)
Definition method_text (d : invoice_data) : str :=
  match d with
  | Match _ _ _ (Some how) => method_name how
  | _ => lit "Unknown"
  end.

Definition po_id_of (d : invoice_data) : Z :=
  match d with
  | Match po_id _ _ _ => po_id
  | NoPO _ _ _ => 0
  end.

(** The name of the document of a group. *)
Definition group_filename (timestamp : str) (po_id : Z) (inv_num : str)
  : str :=
  lit "PO" ++ format_04d po_id ++ lit "_" ++ timestamp ++ lit "_INV"
  ++ inv_num ++ lit ".pdf".

(** The document, the update and the detail produced for one group. *)
Definition group_document (timestamp : str) (entry : str * group)
  : document :=
  let '(inv_num, g) := entry in
  {| filename := group_filename timestamp (po_id_of (data g)) inv_num;
     page_indices := pages g |}.

Definition group_update (timestamp : str) (entry : str * group)
  : po_update :=
  let '(inv_num, g) := entry in
  let invoice_data := data g in
  let po_id := po_id_of invoice_data in
  {| update_id := po_id;
     update_invoice_filename := group_filename timestamp po_id inv_num;
     update_invoice_number := inv_num;
     update_invoice_cost := cost_of invoice_data;
     update_estimated_cost := Float.of_str (cost_of invoice_data);
     update_match_method := method_text invoice_data |}.

Definition group_detail (po_map : po_map_t) (entry : str * group)
  : detail_entry :=
  let '(inv_num, g) := entry in
  let invoice_data := data g in
  let po_id := po_id_of invoice_data in
  let po_info := po_get po_id po_map in
  let first_page := hd 0 (pages g) in
  let last_page := last (pages g) 0 in
  {| detail_page :=
       str_of_int (first_page + 1)
       ++ (if 1 <? Z.of_nat (length (pages g))
           then "-"%char :: str_of_int (last_page + 1) else []);
     detail_po_number := po_id;
     detail_job_name :=
       match po_info with Some i => job_of i | None => lit "Unknown" end;
     detail_estimated_cost :=
       match po_info with Some i => estimated_cost i | None => 0%Q end;
     detail_invoice_number := inv_num;
     detail_cost := cost_of invoice_data;
     detail_status := lit "matched";
     detail_pages := Z.of_nat (length (pages g)) |}.

(** [process_bulk_pdf(pdf_path, timestamp)], on the pages of the file
    and the rows of the query for approved POs without invoice.  When
    [extract_invoice_data] raises on a page, the [except] clause returns
    the summary reached with [success] cleared: the documents of the
    pages before stay, no group is saved and nothing is committed.  The
    other statements of the [try] block that can raise (reading the
    file, writing a document, the data base) are taken to succeed, so a
    run of this function that reports success stands for a run of the
    program in which none of them failed. *)
Definition process_bulk_pdf (e : env) (timestamp : str) (po_map : po_map_t)
  (batch_pages : list page) : batch :=
  let start :=
    {| loop_results := {| success := true; processed := 0; matched := 0;
                          unmatched := []; errors := []; details := [] |};
       loop_groups := [];
       loop_documents := [] |} in
  match process_pages e timestamp po_map 1 batch_pages start with
  | (st, false) =>
      {| report := failed (loop_results st);
         documents := loop_documents st;
         updates := [] |}
  | (st, true) =>
      let invoice_groups := loop_groups st in
      {| report :=
           fold_left (fun r entry => add_detail (group_detail po_map entry) r)
                     invoice_groups (loop_results st);
         documents :=
           loop_documents st ++ map (group_document timestamp) invoice_groups;
         updates := map (group_update timestamp) invoice_groups |}
  end.

(** * Reference definitions for the statements *)

(** The edit distance by its recurrence on the last characters: both
    arguments are read from the end, so they are given reversed. *)
Fixpoint dist (a : str) : str -> Z :=
  fix inner (b : str) : Z :=
    match a, b with
    | [], _ => len b
    | _, [] => len a
    | x :: a', y :: b' =>
        Z.min (Z.min (dist a' b + 1) (inner b' + 1))
              (dist a' b' + (if eqb_char x y then 0 else 1))
    end.

(** The reversed prefixes of a text, the shortest first, after [acc]. *)
Fixpoint rprefixes (acc : str) (s : str) : list str :=
  acc :: match s with
         | [] => []
         | c :: s' => rprefixes (c :: acc) s'
         end.

(** The invariant of the chain of [extract_invoice_data]: [po_number]
    is unset together with [match_method], or it is a key of [po_map]
    found by a method. *)
Definition chain_ok (po_map : po_map_t) (st : chain) : Prop :=
  match st with
  | (Some po, Some _) => po_in po po_map = true
  | (None, None) => True
  | _ => False
  end.

(** A field of the reply of the assist service, as [read_reply] reads
    it. *)
Definition reply_field (key default : string) (response_text : str) : str :=
  reply_get (lit key) (lit default) (parse_reply response_text).

(** What the code requires of a reply to take its PO number [n]. *)
Definition reply_accepted (response_text : str) (po_map : po_map_t) (n : Z)
  : Prop :=
  lower (reply_field "MATCHED" "no" response_text) = lit "yes"
  /\ lower (reply_field "JOB_NAME" "none" response_text) <> lit "none"
  /\ lower (reply_field "PO_NUMBER" "none" response_text) <> lit "none"
  /\ int_of_str (reply_field "PO_NUMBER" "none" response_text) = Some n
  /\ n <> 0
  /\ In n (map fst po_map)
  /\ (Float.literal 6 10
       <= confidence_score (reply_field "CONFIDENCE" "low" response_text))%Q.

(** The identifier a pattern proposes on a page: group 1 of its first
    match. *)
Definition candidate_of (pattern : Re.regex) (text : str) : option str :=
  option_map (fun m => strip (Re.group 1 m)) (Re.search true pattern text).

(** A candidate the detector takes. *)
Definition acceptable (candidate : str) : bool :=
  (5 <=? len candidate) && negb (str_in (lower candidate) false_positives).

(** The detector by the ordered list: the first acceptable candidate in
    the order of the patterns. *)
Definition first_accepted (patterns : list Re.regex) (text : str)
  : option str :=
  hd_error
    (flat_map (fun pattern =>
                 match candidate_of pattern text with
                 | Some c => if acceptable c then [c] else []
                 | None => []
                 end)
              patterns).

(** The pages of a batch with their numbers, from [page_num] on. *)
Fixpoint numbered (page_num : Z) (batch_pages : list page)
  : list (Z * page) :=
  match batch_pages with
  | [] => []
  | p :: rest => (page_num, p) :: numbered (page_num + 1) rest
  end.

(** What [extract_invoice_data] gives for a page of the batch. *)
Definition page_result (e : env) (po_map : po_map_t) (p : page)
  : outcome (option invoice_data) :=
  extract_invoice_data e (page_text e p) po_map.

(** A numbered page as a hit for the invoice number [inv]: its index
    from 0, its text and the data of its match. *)
Definition hit_of (e : env) (po_map : po_map_t) (inv : str)
  (np : Z * page) : list (Z * str * invoice_data) :=
  match page_result e po_map (snd np) with
  | Returned (Some (Match _ n _ _ as d)) =>
      if eqb n inv then [(fst np - 1, page_text e (snd np), d)] else []
  | _ => []
  end.

(** The pages of the batch matched under the invoice number [inv], in
    the order of the pages. *)
Definition page_hits (e : env) (po_map : po_map_t)
  (batch_pages : list page) (inv : str) : list (Z * str * invoice_data) :=
  flat_map (hit_of e po_map inv) (numbered 1 batch_pages).

(** The entry of the errors list for a numbered page, if it has one. *)
Definition error_of (e : env) (po_map : po_map_t) (np : Z * page)
  : list error_entry :=
  match page_result e po_map (snd np) with
  | Returned (Some (NoPO inv_num cost message)) =>
      [{| error_page := fst np;
          error_invoice_number := inv_num;
          error_cost := cost;
          error_error := lit "NO MATCHING PO FOUND";
          error_message := message;
          error_text_preview := slice_to (page_text e (snd np)) 300 |}]
  | _ => []
  end.

(** The name of the document written for an error page. *)
Definition error_filename (timestamp : str) (page_num : Z) (inv_num : str)
  : str :=
  lit "ERROR_NO_PO_" ++ timestamp ++ lit "_page" ++ str_of_int page_num
  ++ lit "_" ++ inv_num ++ lit ".pdf".

(** The name of the document written for a page without invoice
    number. *)
Definition unmatched_name (timestamp : str) (page_num : Z) : str :=
  lit "UNMATCHED_" ++ timestamp ++ lit "_page" ++ str_of_int page_num
  ++ lit ".pdf".

(** The document written for a numbered page inside the loop, if any. *)
Definition page_document_of (e : env) (timestamp : str) (po_map : po_map_t)
  (np : Z * page) : list document :=
  match page_result e po_map (snd np) with
  | Returned (Some (NoPO inv_num _ _)) =>
      [{| filename := error_filename timestamp (fst np) inv_num;
          page_indices := [fst np - 1] |}]
  | Returned None =>
      [{| filename := unmatched_name timestamp (fst np);
          page_indices := [fst np - 1] |}]
  | _ => []
  end.

(** [invoice_groups.get(inv)] *)
Fixpoint glookup (inv : str) (invoice_groups : groups_t) : option group :=
  match invoice_groups with
  | [] => None
  | (key, g) :: rest => if eqb key inv then Some g else glookup inv rest
  end.

(** A group after the hits [hits] were entered into it one by one. *)
Definition extended (g : option group) (hits : list (Z * str * invoice_data))
  : option group :=
  match hits with
  | [] => g
  | (_, _, d) :: _ =>
      Some {| pages := match g with Some g0 => pages g0 | None => [] end
                       ++ map (fun h => fst (fst h)) hits;
              texts := match g with Some g0 => texts g0 | None => [] end
                       ++ map (fun h => snd (fst h)) hits;
              data := match g with Some g0 => data g0 | None => d end |}
  end.

(** The character that separates the parts of a file name. *)
Definition underscore : ascii := "_"%char.

(** A text with exactly two decimal places: digits, a point, two
    digits. *)
Definition two_decimals (s : str) : bool :=
  match rev s with
  | d2 :: d1 :: point :: (_ :: _) as units =>
      is_digit d2 && is_digit d1 && eqb_char point "."
      && forallb is_digit units
  | _ => false
  end.

(** The amounts a label pattern finds on a page, from left to right. *)
Definition amounts_of (pattern : Re.regex) (text : str) : list str :=
  map (Re.group 1) (Re.finditer true pattern text).

(** ** Inputs of the worked examples *)

(** A run without assist service, with one active job. *)
Definition no_assist : env :=
  {| claude_matching_enabled := false;
     active_job_names := [lit "Somerville"];
     assist_reply := fun _ _ _ => None;
     ocr_support := false |}.

(** One eligible PO, number 1012, of the job Somerville. *)
Definition somerville_po : po_map_t :=
  [(1012, {| id := 1012; tech_name := lit "R. Diaz";
             job_name := lit "Somerville"; estimated_cost := 950 |})].

(** A page of an invoice for that PO. *)
Definition invoice_784512 : str :=
  lit "INVOICE # 784512" ++ [nl] ++ lit "PO Number: 1012 SOMERVILLE"
  ++ [nl] ++ lit "TOTAL: $1,234.50".

(** A second eligible PO, of another job. *)
Definition two_pos : po_map_t :=
  somerville_po
  ++ [(2045, {| id := 2045; tech_name := lit "M. Okafor";
                job_name := lit "Herons Glen"; estimated_cost := 400 |})].

(** A run whose assist service answers every prompt with [reply]. *)
Definition assist_with (reply : str) : env :=
  {| claude_matching_enabled := true;
     active_job_names := [lit "Somerville"; lit "Herons Glen"];
     assist_reply := fun _ _ _ => Some reply;
     ocr_support := false |}.

Definition reply_lines (lines : list string) : str :=
  join [nl] (map lit lines).

(** The service suggests PO 2045 with the confidence word given. *)
Definition reply_2045 (confidence : string) : str :=
  reply_lines [ "MATCHED: yes"; "JOB_NAME: Herons Glen"; "PO_NUMBER: 2045";
                String.append "CONFIDENCE: " confidence;
                "REASONING: the job name is on the page" ]%string.

(** The service reports a match on PO 1012 and names no job. *)
Definition reply_no_job : str :=
  reply_lines [ "MATCHED: yes"; "JOB_NAME: none"; "PO_NUMBER: 1012";
                "CONFIDENCE: high";
                "REASONING: the number is on the page" ]%string.

(** The acceptance condition as C3 words it. *)
Definition reply_accepted_as_claimed (response_text : str)
  (po_map : po_map_t) (n : Z) : Prop :=
  int_of_str (reply_field "PO_NUMBER" "none" response_text) = Some n
  /\ In n (map fst po_map)
  /\ (Float.literal 60 100
       <= confidence_score (reply_field "CONFIDENCE" "low" response_text))%Q.

(** A page with a text layer. *)
Definition page_of (text : str) : page :=
  {| embedded_text := Some text; ocr_text := [] |}.

(** A second invoice for PO 1012, an invoice that names no PO, and a
    batch: the first invoice on pages 1 and 5, the second on page 2, the
    third on page 3 and a cover sheet on page 4. *)
Definition invoice_784513 : str :=
  lit "INVOICE # 784513" ++ [nl] ++ lit "PO Number: 1012 SOMERVILLE"
  ++ [nl] ++ lit "Subtotal 5.00 TOTAL: $7.25".

Definition invoice_784514 : str :=
  lit "INVOICE # 784514" ++ [nl] ++ lit "delivered to the yard"
  ++ [nl] ++ lit "Amount Due: $80.00".

Definition sample_batch : list page :=
  [ page_of invoice_784512; page_of invoice_784513; page_of invoice_784514;
    page_of (lit "cover sheet"); page_of invoice_784512 ].

Definition sample_stamp : str := lit "20240101_120000".

(** PO 1012 as a PO of the job named Service. *)
Definition service_po : po_map_t :=
  [(1012, {| id := 1012; tech_name := lit "R. Diaz";
             job_name := lit "Service"; estimated_cost := 950 |})].

(** A page whose total has 309 digits before the point. *)
Definition invoice_huge_total : str :=
  lit "INVOICE # 784515" ++ [nl] ++ lit "TOTAL: "
  ++ repeat "9"%char 309 ++ lit ".00".

(** ** Further definitions *)

Definition job_char (c : ascii) : bool :=
  is_alpha c || is_digit c || eqb_char c " " || eqb_char c "-"
  || eqb_char c "_".

Definition plain_job_name (job_name : str) : bool := forallb job_char job_name.

Definition plain_jobs (po_map : po_map_t) : Prop :=
  Forall (fun entry => plain_job_name (job_name (snd entry)) = true) po_map.

Definition literal_char (c : ascii) : bool :=
  is_alpha c || is_digit c || eqb_char c "-".

Definition start_loop : page_loop :=
  {| loop_results := {| success := true; processed := 0; matched := 0;
                        unmatched := []; errors := []; details := [] |};
     loop_groups := []; loop_documents := [] |}.

(** The pages held by the groups and by the documents. *)
Definition grouped_pages (invoice_groups : groups_t) : list Z :=
  flat_map (fun entry => pages (snd entry)) invoice_groups.

(** [len(x)] of a list. *)
Definition size {A} (l : list A) : Z := Z.of_nat (length l).

Definition written_pages (docs : list document) : list Z :=
  flat_map page_indices docs.

(** The pages counted in the details of a summary. *)
Definition total_pages (ds : list detail_entry) : Z :=
  fold_right Z.add 0 (map detail_pages ds).

(** A PO whose job name does not compile as a pattern, and a page that
    holds its number only inside the invoice number. *)
Definition bracket_po : po_map_t :=
  [(4510, {| id := 4510; tech_name := lit "M. Okafor";
             job_name := lit "Unit (B"; estimated_cost := 120 |})].

Definition invoice_78451012 : str :=
  lit "INVOICE # 78451012" ++ [nl] ++ lit "TOTAL: $10.00".

(** A batch that fails on its second page: the page names PO 4510, whose
    job name does not compile as a pattern.  The first page is matched
    before the fault, the third one names no PO. *)
Definition interrupted_batch : list page :=
  [page_of invoice_784512; page_of invoice_78451012; page_of invoice_784514].

Definition bracket_pos : po_map_t := somerville_po ++ bracket_po.

(** The texts on which the string operations of [PyStr] are those of
    Python: every character is an ASCII one.  ([str.upper] and
    [str.lower] change the length of some other texts, and [\s] and [\w]
    hold of some other characters.) *)
Definition is_ascii (c : ascii) : bool := code c <? 128.

Definition ascii_text (s : str) : bool := forallb is_ascii s.



(** A chain that the assist step did not set. *)
Definition own_method (st : chain) : Prop := snd st <> Some ClaudeAI.

(** The value of a text of decimal digits read after [acc]. *)
Definition digits_value (acc : Z) (s : str) : Z :=
  fold_left (fun a c => 10 * a + (code c - 48)) s acc.

(** The 256 characters. *)
Definition all_chars : list ascii := map ascii_of_nat (seq 0 256).

(** [admits icase q inner r]: every character [r] consumes outside its
    groups satisfies [q], and the body of every group satisfies
    [inner]. *)
Fixpoint admits (icase : bool) (q : ascii -> bool) (inner : Re.regex -> bool)
  (r : Re.regex) : bool :=
  match r with
  | Re.Empty | Re.Bol | Re.Eol | Re.Boundary | Re.NotBoundary => true
  | Re.Any => forallb (fun c => (code c =? 10) || q c) all_chars
  | Re.Chars negated items =>
      forallb (fun c => negb (xorb negated (Re.items_have icase items c))
                        || q c) all_chars
  | Re.Cat a b | Re.Or a b => admits icase q inner a && admits icase q inner b
  | Re.Repeat _ _ _ a | Re.Atomic a => admits icase q inner a
  | Re.Group _ a => inner a
  end.

(** A pattern without groups that consumes only characters of [q]. *)
Definition consumes_only (icase : bool) (q : ascii -> bool) (r : Re.regex)
  : bool :=
  admits icase q (fun _ => false) r.

(** A pattern whose groups are not nested and capture only characters
    of [q]. *)
Definition captures_only (icase : bool) (q : ascii -> bool) (r : Re.regex)
  : bool :=
  admits icase (fun _ => true) (consumes_only icase q) r.

(** The loop of a repetition in [Re.run], on the matcher of its body. *)
Section Iterate.

Variables (lo : nat) (hi : option nat) (greedy : bool).
Variable body : Re.cursor -> (Re.cursor -> option Re.cursor)
                -> option Re.cursor.
Variable k : Re.cursor -> option Re.cursor.

Fixpoint iterate (fuel cnt : nat) (st0 : Re.cursor) {struct fuel}
  : option Re.cursor :=
  match fuel with
  | O => None
  | S f =>
      let again :=
        if Re.below cnt hi
        then body st0
               (fun st1 =>
                  if (cnt <? lo)%nat || (Re.pos st0 <? Re.pos st1)%nat
                  then iterate f (S cnt) st1
                  else None)
        else None in
      if (cnt <? lo)%nat then again
      else if greedy then Re.or_else again (k st0)
      else Re.or_else (k st0) again
  end.

End Iterate.

(** The cursor is at its position in [text]. *)
Definition cursor_in (text : str) (st : Re.cursor) : Prop :=
  Re.ahead st = skipn (Re.pos st) text.

(** The text of a span is made of characters of [q]. *)
Definition span_in (q : ascii -> bool) (text : str)
  (sp : nat * (nat * nat)) : Prop :=
  forallb q (firstn (snd (snd sp) - fst (snd sp)) (skipn (fst (snd sp)) text))
  = true.

(** The text between two cursors is made of characters of [q]. *)
Definition stretch_in (q : ascii -> bool) (text : str) (from st : Re.cursor)
  : Prop :=
  exists w, skipn (Re.pos from) text = w ++ Re.ahead st
            /\ Re.pos st = (Re.pos from + length w)%nat
            /\ forallb q w = true.

(** The values [match_method] takes when a strategy found the PO. *)
Definition method_names : list str :=
  map method_name [ClaudeAI; TableColumn; PatternMatch; DirectSearch;
                   FuzzyMatch].

(** ** Settings and sessions *)

(** The rows of [app_settings]; [key] is the primary key. *)
Definition settings_t := list (str * str).

(** The settings as a request finds them: the rows, or [None] when
    connecting to the database or the statement raises. *)
Definition settings_db := option settings_t.

(** [SELECT value FROM app_settings WHERE key=?] and [fetchone()] *)
Fixpoint setting_row (key : str) (rows : settings_t) : option str :=
  match rows with
  | [] => None
  | (k, value) :: rest => if eqb k key then Some value
                          else setting_row key rest
  end.

(** [get_setting(key, default)] *)
Definition get_setting (db : settings_db) (key : str) (default : option str)
  : option str :=
  match db with
  | Some rows =>
      match setting_row key rows with
      | Some value => Some value
      | None => default
      end
  | None => default
  end.

(** [INSERT OR REPLACE INTO app_settings]: the row of the key, if there
    is one, gives way to the new row. *)
Definition replace_row (key value : str) (rows : settings_t) : settings_t :=
  filter (fun row => negb (eqb (fst row) key)) rows ++ [(key, value)].

(** [set_setting(key, value)]: the settings after it and what it
    returns. *)
Definition set_setting (db : settings_db) (key value : str)
  : settings_db * bool :=
  match db with
  | Some rows => (Some (replace_row key value rows), true)
  | None => (None, false)
  end.

(** [is_claude_matching_enabled()], on [ANTHROPIC_AVAILABLE] and
    [ANTHROPIC_API_KEY]; with the default given, [get_setting] returns a
    text. *)
Definition is_claude_matching_enabled (anthropic_available : bool)
  (anthropic_api_key : str) (db : settings_db) : bool :=
  if negb anthropic_available || is_empty anthropic_api_key then false
  else
    match get_setting db (lit "claude_matching_enabled") (Some (lit "true"))
    with
    | Some setting => eqb (lower setting) (lit "true")
    | None => false
    end.

(** The session of a request: a [dict] from keys to texts or [None]. *)
Definition session_t := list (str * option str).

(** [key in session] *)
Definition session_has (key : str) (session : session_t) : bool :=
  existsb (fun entry => eqb (fst entry) key) session.

(** [session.get(key)] *)
Fixpoint session_get (key : str) (session : session_t) : option str :=
  match session with
  | [] => None
  | (k, value) :: rest => if eqb k key then value else session_get key rest
  end.

(** [session[key] = value] *)
Fixpoint session_set (key : str) (value : option str) (session : session_t)
  : session_t :=
  match session with
  | [] => [(key, value)]
  | (k, v) :: rest =>
      if eqb k key then (k, value) :: rest
      else (k, v) :: session_set key value rest
  end.

(** The five assignments by which [login] and [login_with_token] open a
    session. *)
Definition open_session (session_id username role : str)
  (email full_name : option str) (session : session_t) : session_t :=
  session_set (lit "full_name") full_name
    (session_set (lit "email") email
       (session_set (lit "role") (Some role)
          (session_set (lit "username") (Some username)
             (session_set (lit "session_id") (Some session_id) session)))).

(** [session.clear()] of [logout]. *)
Definition clear_session (session : session_t) : session_t := [].

(** The sessions the application writes: [login], [login_with_token]
    and [logout] are the only places that assign to [session], and
    [flash] keeps its messages under the key [_flashes]. *)
Inductive app_session : session_t -> Prop :=
| session_fresh : app_session []
| session_opened (session_id username role : str)
    (email full_name : option str) (session : session_t) :
    app_session session ->
    app_session (open_session session_id username role email full_name
                   session)
| session_cleared (session : session_t) :
    app_session session -> app_session (clear_session session)
| session_flashed (messages : option str) (session : session_t) :
    app_session session ->
    app_session (session_set (lit "_flashes") messages session).

(** A scalar of a JSON body and its truth value in Python. *)
Inductive json :=
| JNull
| JBool (b : bool)
| JInt (n : Z)
| JStr (s : str).

Definition json_truthy (v : json) : bool :=
  match v with
  | JNull => false
  | JBool b => b
  | JInt n => negb (n =? 0)
  | JStr s => negb (is_empty s)
  end.

(** [data.get(key, default)] on the object of the body. *)
Fixpoint json_get (key : str) (default : json) (data : list (str * json))
  : json :=
  match data with
  | [] => default
  | (k, v) :: rest => if eqb k key then v else json_get key default rest
  end.

(** What [toggle_claude_setting] answers. *)
Inductive toggle_response :=
| AccessDenied
| Toggled (enabled : json)
| ToggleError.

Definition option_str_eqb (a b : option str) : bool :=
  match a, b with
  | Some x, Some y => eqb x y
  | None, None => true
  | _, _ => false
  end.

(** [toggle_claude_setting()], on the session, the JSON object of the
    body ([None] when [get_json] or [data.get] raises) and the settings;
    what [set_setting] returns is not looked at. *)
Definition toggle_claude_setting (session : session_t)
  (data : option (list (str * json))) (db : settings_db)
  : toggle_response * settings_db :=
  if negb (session_has (lit "user") session)
     || negb (option_str_eqb (session_get (lit "role") session)
                (Some (lit "office")))
  then (AccessDenied, db)
  else
    match data with
    | None => (ToggleError, db)
    | Some data =>
        let enabled := json_get (lit "enabled") (JBool false) data in
        let '(db', _) :=
          set_setting db (lit "claude_matching_enabled")
            (if json_truthy enabled then lit "true" else lit "false") in
        (Toggled enabled, db')
    end.

(** The collaborators of the engine in a deployment. *)
Definition engine_env (anthropic_available : bool) (anthropic_api_key : str)
  (db : settings_db) (active_jobs : list str)
  (assist : str -> str -> str -> option str) (ocr : bool) : env :=
  {| claude_matching_enabled :=
       is_claude_matching_enabled anthropic_available anthropic_api_key db;
     active_job_names := active_jobs;
     assist_reply := assist;
     ocr_support := ocr |}.

(** An office session as the route expects it, and a body that asks to
    switch matching off. *)
Definition office_user_session : session_t :=
  [(lit "user", Some (lit "dana")); (lit "role", Some (lit "office"))].

Definition switch_off : list (str * json) := [(lit "enabled", JBool false)].

(** ** The table of purchase orders *)

(** A row of [po_requests], without the columns that the routes below
    neither read nor write ([tech_username], [store_name],
    [description], [request_date]). *)
Record po_row := {
  row_id : Z;
  row_tech_name : str;
  row_job_name : str;
  row_estimated_cost : Float.t;
  row_status : str;
  row_approval_date : option str;
  row_approval_notes : option str;
  row_approved_by : option str;
  row_invoice_filename : option str;
  row_invoice_number : option str;
  row_invoice_cost : option str;
  row_invoice_date : option str;
  row_invoice_upload_date : option str;
  row_match_method : option str
}.

(** The table; [id] is its primary key. *)
Definition po_table := list po_row.

(** [UPDATE po_requests SET ... WHERE <condition>]: the table after it
    and [rowcount]. *)
Definition update_where (condition : po_row -> bool)
  (change : po_row -> po_row) (table : po_table) : po_table :=
  map (fun row => if condition row then change row else row) table.

Definition rowcount (condition : po_row -> bool) (table : po_table) : Z :=
  Z.of_nat (length (filter condition table)).

(** [SELECT ... WHERE id=?] and [fetchone()] *)
Definition row_of (po_id : Z) (table : po_table) : option po_row :=
  List.find (fun row => row_id row =? po_id) table.

(** The guard of the office routes:
    ['username' not in session or session['role'] != 'office']. *)
Inductive guard :=
| Allowed
| Refused
| KeyMissing.

Definition office_guard (session : session_t) : guard :=
  if negb (session_has (lit "username") session) then Refused
  else if negb (session_has (lit "role") session) then KeyMissing
  else if option_str_eqb (session_get (lit "role") session)
            (Some (lit "office"))
       then Allowed else Refused.

(** [session['username']] where the guard let the request pass. *)
Definition session_user (session : session_t) : option str :=
  session_get (lit "username") session.

(** What a route answers, as far as the table is concerned. *)
Inductive response :=
| Unauthorized
| InternalError
| Rejected (error : str)
| Failed
| Succeeded
| Processed (processed : Z).

(** The three columns written by an approval or a denial. *)
Definition decide (status : str) (now notes : str) (by_user : option str)
  (row : po_row) : po_row :=
  {| row_id := row_id row;
     row_tech_name := row_tech_name row;
     row_job_name := row_job_name row;
     row_estimated_cost := row_estimated_cost row;
     row_status := status;
     row_approval_date := Some now;
     row_approval_notes := Some notes;
     row_approved_by := by_user;
     row_invoice_filename := row_invoice_filename row;
     row_invoice_number := row_invoice_number row;
     row_invoice_cost := row_invoice_cost row;
     row_invoice_date := row_invoice_date row;
     row_invoice_upload_date := row_invoice_upload_date row;
     row_match_method := row_match_method row |}.

(** [process_request(request_id)], on the two fields of the form. *)
Definition process_request (session : session_t) (request_id : Z)
  (action notes : str) (now : str) (table : po_table)
  : response * po_table :=
  match office_guard session with
  | Refused => (Unauthorized, table)
  | KeyMissing => (InternalError, table)
  | Allowed =>
      let status :=
        if eqb action (lit "approve") then lit "approved"
        else if eqb action (lit "deny") then lit "denied"
        else action ++ lit "d" in
      (Succeeded,
       update_where (fun row => row_id row =? request_id)
         (decide status now notes (session_user session)) table)
  end.

(** The body of [bulk_process_pos] after the three [data.get]. *)
Record bulk_body := {
  po_ids : list Z;
  action : option str;
  notes : str
}.

Definition is_pending (row : po_row) : bool :=
  eqb (row_status row) (lit "pending").

(** The loop over [po_ids]. *)
Fixpoint bulk_loop (ids : list Z) (status now notes : str)
  (by_user : option str) (processed : Z) (table : po_table)
  : Z * po_table :=
  match ids with
  | [] => (processed, table)
  | po_id :: rest =>
      let condition row := (row_id row =? po_id) && is_pending row in
      bulk_loop rest status now notes by_user
        (if 0 <? rowcount condition table then processed + 1 else processed)
        (update_where condition (decide status now notes by_user) table)
  end.

(** [bulk_process_pos()]; [None] is a body for which [get_json] or
    [data.get] raises, which the [except] clause answers. *)
Definition bulk_process_pos (session : session_t) (data : option bulk_body)
  (now : str) (table : po_table) : response * po_table :=
  match office_guard session with
  | Refused => (Unauthorized, table)
  | KeyMissing => (InternalError, table)
  | Allowed =>
      match data with
      | None => (Failed, table)
      | Some data =>
          if is_empty (po_ids data)
          then (Rejected (lit "No POs selected"), table)
          else
            match action data with
            | Some action =>
                if str_in action [lit "approve"; lit "deny"]
                then
                  let '(processed, table') :=
                    bulk_loop (po_ids data) (action ++ lit "d") now
                      (notes data) (session_user session) 0 table in
                  (Processed processed, table')
                else (Rejected (lit "Invalid action"), table)
            | None => (Rejected (lit "Invalid action"), table)
            end
      end
  end.

(** The truth value of a text column: set and not empty. *)
Definition has_text (value : option str) : bool :=
  match value with
  | Some s => negb (is_empty s)
  | None => false
  end.

(** The statement of [undo_approval]. *)
Definition to_pending (row : po_row) : po_row :=
  {| row_id := row_id row;
     row_tech_name := row_tech_name row;
     row_job_name := row_job_name row;
     row_estimated_cost := row_estimated_cost row;
     row_status := lit "pending";
     row_approval_date := None;
     row_approval_notes := None;
     row_approved_by := None;
     row_invoice_filename := row_invoice_filename row;
     row_invoice_number := row_invoice_number row;
     row_invoice_cost := row_invoice_cost row;
     row_invoice_date := row_invoice_date row;
     row_invoice_upload_date := row_invoice_upload_date row;
     row_match_method := row_match_method row |}.

(** [undo_approval()], on [data.get('request_id')]. *)
Definition undo_approval (session : session_t) (request_id : option Z)
  (table : po_table) : response * po_table :=
  match office_guard session with
  | Refused => (Unauthorized, table)
  | KeyMissing => (InternalError, table)
  | Allowed =>
      if negb (truthy request_id)
      then (Rejected (lit "No request ID provided"), table)
      else
        let request_id := match request_id with Some n => n | None => 0 end in
        match row_of request_id table with
        | None => (Rejected (lit "PO request not found"), table)
        | Some result =>
            if has_text (row_invoice_filename result)
            then (Rejected (lit "Cannot undo approval - PO has invoice attached. Delete invoice first."),
                  table)
            else (Succeeded,
                  update_where (fun row => row_id row =? request_id)
                    to_pending table)
        end
  end.

(** The statement of [delete_invoice]. *)
Definition without_invoice (row : po_row) : po_row :=
  {| row_id := row_id row;
     row_tech_name := row_tech_name row;
     row_job_name := row_job_name row;
     row_estimated_cost := row_estimated_cost row;
     row_status := row_status row;
     row_approval_date := row_approval_date row;
     row_approval_notes := row_approval_notes row;
     row_approved_by := row_approved_by row;
     row_invoice_filename := None;
     row_invoice_number := None;
     row_invoice_cost := None;
     row_invoice_date := None;
     row_invoice_upload_date := None;
     row_match_method := row_match_method row |}.

(** [delete_invoice()], on [data.get('request_id')]; the file removed
    from the upload folder is left out. *)
Definition delete_invoice (session : session_t) (request_id : option Z)
  (table : po_table) : response * po_table :=
  match office_guard session with
  | Refused => (Unauthorized, table)
  | KeyMissing => (InternalError, table)
  | Allowed =>
      if negb (truthy request_id)
      then (Rejected (lit "No request ID provided"), table)
      else
        let request_id := match request_id with Some n => n | None => 0 end in
        (Succeeded,
         update_where (fun row => row_id row =? request_id)
           without_invoice table)
  end.

(** The rows the query of [process_bulk_pdf] selects: approved, and
    [invoice_filename IS NULL OR invoice_filename = '']. *)
Definition eligible (row : po_row) : bool :=
  eqb (row_status row) (lit "approved")
  && negb (has_text (row_invoice_filename row)).

Definition eligible_ids (table : po_table) : list Z :=
  map row_id (filter eligible table).

(** The [UPDATE] of [process_bulk_pdf] for one group; the cost text of a
    group is one [float] reads. *)
Definition with_invoice (now : str) (u : po_update) (row : po_row) : po_row :=
  {| row_id := row_id row;
     row_tech_name := row_tech_name row;
     row_job_name := row_job_name row;
     row_estimated_cost :=
       match update_estimated_cost u with
       | Some amount => amount
       | None => row_estimated_cost row
       end;
     row_status := row_status row;
     row_approval_date := row_approval_date row;
     row_approval_notes := row_approval_notes row;
     row_approved_by := row_approved_by row;
     row_invoice_filename := Some (update_invoice_filename u);
     row_invoice_number := Some (update_invoice_number u);
     row_invoice_cost := Some (update_invoice_cost u);
     row_invoice_date := Some (lit "N/A");
     row_invoice_upload_date := Some now;
     row_match_method := Some (update_match_method u) |}.

(** The updates of a batch, in their order, and the commit. *)
Definition commit (now : str) (us : list po_update) (table : po_table)
  : po_table :=
  fold_left
    (fun table u =>
       update_where (fun row => row_id row =? update_id u)
         (with_invoice now u) table)
    us table.

(** An office session as [login] opens it. *)
Definition office_session : session_t :=
  open_session (lit "7c1e") (lit "dana") (lit "office")
    (Some (lit "dana@example.com")) (Some (lit "Dana Reyes")) [].

(** A session of a technician. *)
Definition technician_session : session_t :=
  open_session (lit "90af") (lit "rdiaz") (lit "technician") None
    (Some (lit "R. Diaz")) [].

Definition new_row (po_id : Z) (job status : string) : po_row :=
  {| row_id := po_id; row_tech_name := lit "R. Diaz";
     row_job_name := lit job; row_estimated_cost := Float.Finite 950;
     row_status := lit status;
     row_approval_date := None; row_approval_notes := None;
     row_approved_by := None;
     row_invoice_filename := None; row_invoice_number := None;
     row_invoice_cost := None; row_invoice_date := None;
     row_invoice_upload_date := None; row_match_method := None |}.

(** PO 1012 approved, PO 2045 pending, PO 3001 denied. *)
Definition sample_table : po_table :=
  [ new_row 1012 "Somerville" "approved";
    new_row 2045 "Herons Glen" "pending";
    new_row 3001 "Somerville" "denied" ].

(** The rows [bulk_process_pos] changes: pending and selected. *)
Definition selected_pending (ids : list Z) (row : po_row) : bool :=
  is_pending row && existsb (Z.eqb (row_id row)) ids.

(** What a batch does to one row: the updates for its id, in order. *)
Definition commit_row (now : str) (us : list po_update) (row : po_row)
  : po_row :=
  fold_left
    (fun row u => if row_id row =? update_id u then with_invoice now u row
                  else row)
    us row.

(** * Properties *)

(** ** Strings *)

Lemma str_eqb_eq (a b : str) : eqb a b = true <-> a = b.
Proof.
  revert b. induction a as [|x a IH]; destruct b as [|y b]; cbn; try (split; congruence).
  rewrite andb_true_iff, IH. unfold eqb_char. rewrite Ascii.eqb_eq.
  split; [intros [-> ->]; reflexivity | intro H; injection H; auto].
Qed.

Lemma str_eqb_refl (a : str) : eqb a a = true.
Proof. now apply str_eqb_eq. Qed.

Lemma str_eqb_sym (a b : str) : eqb a b = eqb b a.
Proof.
  destruct (eqb a b) eqn:E.
  - apply str_eqb_eq in E. subst. symmetry. apply str_eqb_refl.
  - destruct (eqb b a) eqn:E'; [|reflexivity].
    apply str_eqb_eq in E'. subst. now rewrite str_eqb_refl in E.
Qed.

Lemma is_empty_false {A} (s : list A) : is_empty s = false <-> s <> [].
Proof. destruct s; cbn; split; congruence. Qed.

(** ** Patterns *)

(** A quantifier in braces whose bounds are out of order is refused, as
    [re.compile] refuses it, after an atom, after another quantifier and
    at the start; a brace that opens no quantifier is a literal. *)
Example compile_braces :
  Re.compile (lit "X{2,1}") = None
  /\ Re.compile (lit "X*{2,1}") = None
  /\ Re.compile (lit "{2,1}") = None
  /\ Re.compile (lit "X{1,2}")
     = Some (Re.Repeat 1 (Some 2%nat) true (Re.Chars false [Re.One "X"]))
  /\ Re.compile (lit "X{}")
     = Some (Re.Cat (Re.Chars false [Re.One "X"])
               (Re.Cat (Re.Chars false [Re.One "{"])
                  (Re.Chars false [Re.One "}"]))).
Proof. repeat split; vm_compute; reflexivity. Qed.

(** A possessive quantifier does not give back what it has taken, and
    takes no further quantifier. *)
Example compile_possessive :
  Re.compile (lit "C++")
  = Some (Re.Atomic (Re.Repeat 1 None true (Re.Chars false [Re.One "C"])))
  /\ Re.compile (lit "C+++") = None
  /\ Re.compile (lit "C+?+") = None
  /\ is_some (Re.search false (Re.pat "A*A") (lit "AAA")) = true
  /\ is_some (Re.search false (Re.pat "A*+A") (lit "AAA")) = false
  /\ is_some (Re.search false (Re.pat "1012\s*C++") (lit "PO 1012 CC")) = true.
Proof. repeat split; vm_compute; reflexivity. Qed.

(** A range of a set has characters at its ends, in their order; a
    hyphen before the closing bracket is a literal. *)
Example compile_ranges :
  Re.compile (lit "[\D-A]") = None
  /\ Re.compile (lit "[A-\D]") = None
  /\ Re.compile (lit "[C-A]") = None
  /\ Re.compile (lit "[\D-]") = Some (Re.Chars false [Re.NotDigit; Re.One "-"])
  /\ Re.compile (lit "[A-C-]")
     = Some (Re.Chars false [Re.Range "A" "C"; Re.One "-"]).
Proof. repeat split; vm_compute; reflexivity. Qed.

(** ** The edit distance table *)

Lemma eqb_char_sym (x y : ascii) : eqb_char x y = eqb_char y x.
Proof. apply Ascii.eqb_sym. Qed.

Lemma dist_nil_r (a : str) : dist a [] = len a.
Proof. destruct a; reflexivity. Qed.

Lemma dist_nil_l (b : str) : dist [] b = len b.
Proof. destruct b; reflexivity. Qed.

Lemma dist_cons (x y : ascii) (a b : str) :
  dist (x :: a) (y :: b) =
  Z.min (Z.min (dist a (y :: b) + 1) (dist (x :: a) b + 1))
        (dist a b + (if eqb_char x y then 0 else 1)).
Proof. reflexivity. Qed.

Lemma dist_sym (a b : str) : dist a b = dist b a.
Proof.
  revert b. induction a as [|x a IHa]; intro b.
  - now rewrite dist_nil_l, dist_nil_r.
  - induction b as [|y b IHb].
    + now rewrite dist_nil_l, dist_nil_r.
    + rewrite !dist_cons, IHb, (IHa (y :: b)), (IHa b), (eqb_char_sym x y).
      lia.
Qed.

Lemma rprefixes_unfold (acc s : str) :
  rprefixes acc s = acc :: match s with [] => [] | c :: s' => rprefixes (c :: acc) s' end.
Proof. destruct s; reflexivity. Qed.

Lemma rprefixes_tl (acc s : str) :
  exists t, rprefixes acc s = acc :: t.
Proof. rewrite rprefixes_unfold. eauto. Qed.

(** The inner loop fills the row of [c :: rp] from the row of [rp]. *)
Lemma lev_row_spec (c : ascii) (rp : str) (s2 acc : str) :
  lev_row c s2 (map (dist rp) (rprefixes acc s2)) (dist (c :: rp) acc)
  = map (dist (c :: rp)) (tl (rprefixes acc s2)).
Proof.
  revert acc. induction s2 as [|c2 s2 IH]; intro acc.
  - reflexivity.
  - rewrite (rprefixes_unfold acc (c2 :: s2)).
    specialize (IH (c2 :: acc)).
    destruct (rprefixes_tl (c2 :: acc) s2) as [t Ht].
    rewrite Ht in IH |- *.
    cbn [map lev_row tl] in IH |- *.
    rewrite <- dist_cons. f_equal. exact IH.
Qed.

Lemma lev_rows_spec (s1 s2 rp : str) :
  lev_rows s1 s2 (len rp) (map (dist rp) (rprefixes [] s2))
  = map (dist (rev s1 ++ rp)) (rprefixes [] s2).
Proof.
  revert rp. induction s1 as [|c1 s1 IH]; intro rp.
  - reflexivity.
  - cbn [lev_rows rev].
    assert (L : len rp + 1 = len (c1 :: rp)).
    { unfold len. cbn [length]. lia. }
    rewrite L.
    assert (R : len (c1 :: rp) :: lev_row c1 s2 (map (dist rp) (rprefixes [] s2)) (len (c1 :: rp))
                = map (dist (c1 :: rp)) (rprefixes [] s2)).
    { rewrite <- (dist_nil_r (c1 :: rp)), lev_row_spec.
      rewrite (rprefixes_unfold [] s2). reflexivity. }
    rewrite R, IH, <- app_assoc. reflexivity.
Qed.

Lemma rprefixes_len (acc s : str) :
  map len (rprefixes acc s)
  = map (fun k => len acc + Z.of_nat k) (seq 0 (S (length s))).
Proof.
  revert acc. induction s as [|c s IH]; intro acc.
  - cbn. f_equal. lia.
  - rewrite rprefixes_unfold. cbn [map]. rewrite IH.
    change (seq 0 (S (length (c :: s)))) with (0%nat :: seq 1 (S (length s))).
    cbn [map]. f_equal; [lia|].
    rewrite <- seq_shift, map_map. apply map_ext. intro k.
    unfold len. cbn [length]. lia.
Qed.

Lemma range_to_spec (s2 : str) :
  range_to (length s2) = map (dist []) (rprefixes [] s2).
Proof.
  unfold range_to.
  rewrite (map_ext (dist []) len) by (intro; apply dist_nil_l).
  rewrite rprefixes_len. apply map_ext. intro k. cbn. lia.
Qed.

Lemma rprefixes_last (acc s : str) (d : str) :
  last (rprefixes acc s) d = rev s ++ acc.
Proof.
  revert acc. induction s as [|c s IH]; intro acc.
  - reflexivity.
  - rewrite rprefixes_unfold.
    change (last (acc :: rprefixes (c :: acc) s) d) with
      (match rprefixes (c :: acc) s with [] => acc | _ :: _ => last (rprefixes (c :: acc) s) d end).
    rewrite (rprefixes_unfold (c :: acc) s) at 1.
    rewrite IH. cbn [rev]. now rewrite <- app_assoc.
Qed.

Lemma last_map {A B} (f : A -> B) (l : list A) (d : A) :
  last (map f l) (f d) = f (last l d).
Proof.
  induction l as [|x l IH]; [reflexivity|].
  destruct l; [reflexivity|]. exact IH.
Qed.

(** The table of the program computes the edit distance. *)
Lemma lev_table (s1 s2 : str) :
  last (lev_rows s1 s2 0 (range_to (length s2))) 0 = dist (rev s1) (rev s2).
Proof.
  rewrite range_to_spec.
  change 0 with (len []) at 1.
  rewrite lev_rows_spec, app_nil_r.
  change 0 with (len []).
  rewrite <- (dist_nil_r []) at 1.
  (* default value *)
  assert (D : forall l d1 d2, l <> [] -> @last Z l d1 = last l d2).
  { induction l as [|x l IH]; [congruence|]. intros d1 d2 _.
    destruct l; [reflexivity|]. apply IH. congruence. }
  rewrite (D _ _ (dist (rev s1) [])).
  - rewrite last_map, rprefixes_last, app_nil_r. reflexivity.
  - rewrite rprefixes_unfold. discriminate.
Qed.

Lemma levenshtein_distance_dist (s1 s2 : str) :
  levenshtein_distance s1 s2 = dist (rev s1) (rev s2).
Proof.
  unfold levenshtein_distance.
  destruct (len s1 <? len s2) eqn:L.
  - destruct (len s1 =? 0) eqn:Z1.
    + assert (s1 = []) as ->.
      { destruct s1; [reflexivity|]. unfold len in Z1. cbn in Z1. lia. }
      cbn [rev]. rewrite dist_nil_l. unfold len. now rewrite length_rev.
    + rewrite lev_table. apply dist_sym.
  - destruct (len s2 =? 0) eqn:Z2.
    + assert (s2 = []) as ->.
      { destruct s2; [reflexivity|]. unfold len in Z2. cbn in Z2. lia. }
      cbn [rev]. rewrite dist_nil_r. unfold len. now rewrite length_rev.
    + apply lev_table.
Qed.

Lemma levenshtein_distance_sym (s1 s2 : str) :
  levenshtein_distance s1 s2 = levenshtein_distance s2 s1.
Proof. rewrite !levenshtein_distance_dist. apply dist_sym. Qed.

Lemma dist_nonneg (a b : str) : 0 <= dist a b.
Proof.
  revert b. induction a as [|x a IHa]; intro b.
  - rewrite dist_nil_l. unfold len. lia.
  - induction b as [|y b IHb].
    + rewrite dist_nil_r. unfold len. lia.
    + rewrite dist_cons. pose proof (IHa (y :: b)). pose proof (IHa b).
      destruct (eqb_char x y); lia.
Qed.

(** ** Rounding *)

Lemma rne_nonneg (n d : Z) : 0 <= n -> 0 < d -> 0 <= Float.rne n d.
Proof.
  intros Hn Hd. unfold Float.rne.
  pose proof (Z.div_pos n d Hn Hd).
  repeat match goal with |- context [if ?b then _ else _] => destruct b end; lia.
Qed.

Lemma rne_le (n d k : Z) : 0 < d -> n <= k * d -> Float.rne n d <= k.
Proof.
  intros Hd Hk. unfold Float.rne.
  pose proof (Z.div_mod n d ltac:(lia)) as E.
  pose proof (Z.mod_pos_bound n d Hd) as B.
  assert (n / d <= k) by (apply Z.div_le_upper_bound; lia).
  destruct (Z.eq_dec (n / d) k) as [Ek|Nk].
  - assert (n mod d = 0) by nia.
    replace (2 * (n mod d) <? d) with true by (symmetry; apply Z.ltb_lt; lia).
    lia.
  - repeat match goal with |- context [if ?b then _ else _] => destruct b end; lia.
Qed.

Lemma pow2_pos (k : Z) : 0 < 2 ^ Z.max 0 k.
Proof. apply Z.pow_pos_nonneg; lia. Qed.

Lemma rnd_pos_nonneg (n d : Z) : 0 < n -> 0 < d -> (0 <= Float.rnd_pos n d)%Q.
Proof.
  intros Hn Hd. unfold Float.rnd_pos, Qle. cbn [Qnum Qden].
  rewrite Z.mul_1_r, Z.mul_0_l.
  apply Z.mul_nonneg_nonneg.
  - apply rne_nonneg.
    + pose proof (pow2_pos (52 - (if n * 2 ^ Z.max 0 (- (Z.log2 n - Z.log2 d)) <? d * 2 ^ Z.max 0 (Z.log2 n - Z.log2 d)
                  then Z.log2 n - Z.log2 d - 1 else Z.log2 n - Z.log2 d))). nia.
    + pose proof (pow2_pos (- (52 - (if n * 2 ^ Z.max 0 (- (Z.log2 n - Z.log2 d)) <? d * 2 ^ Z.max 0 (Z.log2 n - Z.log2 d)
                  then Z.log2 n - Z.log2 d - 1 else Z.log2 n - Z.log2 d)))). nia.
  - pose proof (pow2_pos (- (52 - (if n * 2 ^ Z.max 0 (- (Z.log2 n - Z.log2 d)) <? d * 2 ^ Z.max 0 (Z.log2 n - Z.log2 d)
                  then Z.log2 n - Z.log2 d - 1 else Z.log2 n - Z.log2 d)))). lia.
Qed.

Lemma rnd_pos_le_1 (n d : Z) : 0 < n -> n <= d -> (Float.rnd_pos n d <= 1)%Q.
Proof.
  intros Hn Hd. unfold Float.rnd_pos.
  set (e0 := Z.log2 n - Z.log2 d).
  set (e := if n * 2 ^ Z.max 0 (- e0) <? d * 2 ^ Z.max 0 e0 then e0 - 1 else e0).
  assert (He0 : e0 <= 0) by (pose proof (Z.log2_le_mono n d Hd); lia).
  assert (He : e <= 0) by (subst e; destruct (_ <? _); lia).
  set (s := 52 - e).
  replace (Z.max 0 (- s)) with 0 by lia.
  replace (Z.max 0 s) with s by lia.
  unfold Qle. cbn [Qnum Qden].
  assert (P : 0 < 2 ^ s) by (apply Z.pow_pos_nonneg; lia).
  rewrite Z2Pos.id by exact P.
  change (2 ^ 0) with 1. rewrite !Z.mul_1_r, Z.mul_1_l.
  apply rne_le; nia.
Qed.

Lemma rnd_nonneg (x : Q) : (0 <= x)%Q -> (0 <= Float.rnd x)%Q.
Proof.
  intro H. unfold Float.rnd.
  destruct (Qnum x =? 0) eqn:E0; [apply Qle_refl|].
  destruct (Qnum x <? 0) eqn:E1.
  - unfold Qle in H. cbn in H. lia.
  - apply rnd_pos_nonneg; lia.
Qed.

Lemma rnd_le_1 (x : Q) : (x <= 1)%Q -> (Float.rnd x <= 1)%Q.
Proof.
  intro H. unfold Float.rnd.
  destruct (Qnum x =? 0) eqn:E0; [discriminate|].
  destruct (Qnum x <? 0) eqn:E1.
  - apply Qle_trans with 0%Q; [|discriminate].
    apply (Qopp_le_compat 0). apply rnd_pos_nonneg; lia.
  - apply rnd_pos_le_1; [lia|].
    unfold Qle in H. cbn in H. lia.
Qed.

(** ** The similarity score *)

Lemma float_max_range (x : Q) : (x <= 1)%Q -> (0 <= Float.max 0 x <= 1)%Q.
Proof.
  intro H. unfold Float.max, Float.ltb.
  destruct (Qle_bool x 0) eqn:E; cbn [negb].
  - split; [apply Qle_refl | discriminate].
  - split; [|exact H].
    destruct (Qlt_le_dec 0 x) as [L|L]; [now apply Qlt_le_weak|].
    apply Qle_bool_iff in L. congruence.
Qed.

Lemma similarity_le_1 (distance max_len : Z) :
  0 <= distance -> 0 < max_len ->
  (Float.sub 1 (Float.div_int distance max_len) <= 1)%Q.
Proof.
  intros Hd Hm. unfold Float.sub, Float.div_int. apply rnd_le_1.
  assert (N : (0 <= Float.rnd (inject_Z distance / inject_Z max_len))%Q).
  { apply rnd_nonneg. apply Qle_shift_div_l.
    - change 0%Q with (inject_Z 0). rewrite <- Zlt_Qlt. exact Hm.
    - rewrite Qmult_0_l. change 0%Q with (inject_Z 0). rewrite <- Zle_Qle. exact Hd. }
  rewrite <- (Qplus_0_r 1) at 2. unfold Qminus. apply Qplus_le_r.
  apply (Qopp_le_compat 0). exact N.
Qed.

Lemma fuzzy_match_score_range (a b : str) :
  (0 <= fuzzy_match_score a b <= 1)%Q.
Proof.
  unfold fuzzy_match_score.
  destruct (is_empty a || is_empty b); [split; discriminate|].
  destruct (is_empty _ || is_empty _); [split; discriminate|].
  destruct (eqb _ _); [split; discriminate|].
  destruct (eqb _ _); [split; vm_compute; discriminate|].
  set (t1 := replace " " [] (normalize_text_for_matching a)).
  set (t2 := replace " " [] (normalize_text_for_matching b)).
  destruct (len (if len t2 <=? len t1 then t1 else t2) =? 0) eqn:E;
    [split; discriminate|].
  apply float_max_range, similarity_le_1.
  - rewrite levenshtein_distance_dist. apply dist_nonneg.
  - unfold len in *. lia.
Qed.

Lemma fuzzy_match_score_sym (a b : str) :
  fuzzy_match_score a b = fuzzy_match_score b a.
Proof.
  unfold fuzzy_match_score.
  rewrite (orb_comm (is_empty b)).
  destruct (is_empty a || is_empty b); [reflexivity|].
  rewrite (orb_comm (is_empty (normalize_text_for_matching b))).
  destruct (is_empty _ || is_empty _); [reflexivity|].
  rewrite (str_eqb_sym (normalize_text_for_matching b)).
  destruct (eqb _ _); [reflexivity|].
  set (t1 := replace " " [] (normalize_text_for_matching a)).
  set (t2 := replace " " [] (normalize_text_for_matching b)).
  rewrite (str_eqb_sym t2).
  destruct (eqb t1 t2); [reflexivity|].
  destruct (len t2 <=? len t1) eqn:L21; destruct (len t1 <=? len t2) eqn:L12;
    try reflexivity.
  - assert (E : len t1 = len t2) by lia.
    rewrite E, (levenshtein_distance_sym t2 t1). reflexivity.
  - lia.
Qed.

Lemma fuzzy_match_score_self (a : str) :
  normalize_text_for_matching a <> [] -> fuzzy_match_score a a = 1%Q.
Proof.
  intro H. unfold fuzzy_match_score.
  assert (Ha : is_empty a = false).
  { destruct a; [|reflexivity]. now contradiction H. }
  rewrite Ha. apply is_empty_false in H. rewrite H. cbn [orb].
  now rewrite str_eqb_refl.
Qed.

(** C10 (amended): for all strings the similarity score lies between 0
    and 1 and is symmetric, and the score of a string with itself is 1.0
    when the string is not empty after normalization. *)
Theorem fuzzy_match_score_properties (a b : str) :
  (0 <= fuzzy_match_score a b <= 1)%Q
  /\ fuzzy_match_score a b = fuzzy_match_score b a
  /\ (normalize_text_for_matching a <> [] -> fuzzy_match_score a a = 1%Q).
Proof.
  split; [apply fuzzy_match_score_range|].
  split; [apply fuzzy_match_score_sym | apply fuzzy_match_score_self].
Qed.

Lemma fuzzy_match_score_properties_witness :
  normalize_text_for_matching (lit "Herons Glen") <> []
  /\ fuzzy_match_score (lit "Herons Glen") (lit "Herons Glen") = 1%Q.
Proof.
  assert (H : normalize_text_for_matching (lit "Herons Glen") <> [])
    by (vm_compute; discriminate).
  split; [exact H|].
  exact (proj2 (proj2 (fuzzy_match_score_properties
                         (lit "Herons Glen") (lit "HERONS GELN"))) H).
Defined.

(** C10 as stated fails: a string of punctuation is not empty, yet it is
    empty after normalization and its score with itself is 0.0. *)
Lemma fuzzy_match_score_self_punctuation :
  lit "!" <> [] /\ ~ (fuzzy_match_score (lit "!") (lit "!") == 1)%Q.
Proof. split; [discriminate | vm_compute; discriminate]. Qed.

(** C9 at the failing input: a punctuation mark between two spaces
    leaves two spaces in the result, which a second normalization
    collapses; the function is not idempotent there. *)
Theorem normalize_text_for_matching_twice :
  normalize_text_for_matching (lit "a ! b") = lit "A  B"
  /\ normalize_text_for_matching
       (normalize_text_for_matching (lit "a ! b")) = lit "A B".
Proof. split; vm_compute; reflexivity. Qed.

(** ** The matching chain keeps to the eligible POs *)

Lemma po_in_In (po_id : Z) (po_map : po_map_t) :
  po_in po_id po_map = true <-> In po_id (map fst po_map).
Proof.
  unfold po_in. rewrite existsb_exists, in_map_iff. split.
  - intros [x [Hx E]]. exists x. split; [lia | exact Hx].
  - intros [x [E Hx]]. exists x. split; [exact Hx | lia].
Qed.

Section ChainInvariant.

Variable po_map : po_map_t.

Lemma chain_ok_init : chain_ok po_map (None, None).
Proof. exact I. Qed.

Lemma read_reply_ok (response_text : str) :
  let '(po, _, _) := read_reply response_text po_map in
  forall n, po = Some n -> po_in n po_map = true.
Proof.
  unfold read_reply.
  destruct (_ || _ || _); [intros n H; discriminate|].
  destruct (int_of_str _) as [n0|]; [|intros n H; discriminate].
  destruct (po_in n0 po_map) eqn:E; cbn [negb]; intros n H; [|discriminate].
  congruence.
Qed.

Lemma match_invoice_with_claude_ok (e : env) (text : str)
  (active_jobs : list str) :
  let '(po, _, _) := match_invoice_with_claude e text active_jobs po_map in
  forall n, po = Some n -> po_in n po_map = true.
Proof.
  unfold match_invoice_with_claude.
  destruct (negb _); [intros n H; discriminate|].
  destruct (_ || _); [intros n H; discriminate|].
  destruct (assist_reply _ _ _ _); [|intros n H; discriminate].
  apply read_reply_ok.
Qed.

Lemma claude_step_ok (e : env) (text : str) :
  chain_ok po_map (claude_step e text po_map).
Proof.
  unfold claude_step.
  destruct (_ && _); [|exact I].
  pose proof (match_invoice_with_claude_ok e text (active_job_names e)) as H.
  destruct (match_invoice_with_claude _ _ _ _) as [[po job] conf].
  destruct (truthy po && _) eqn:T; [|exact I].
  destruct po as [n|]; [|discriminate]. cbn. now apply H.
Qed.

Lemma try_matches_ok (how : method)
  (matches : list Re.matched) (st : chain) :
  chain_ok po_map st -> chain_ok po_map (try_matches po_map how matches st).
Proof.
  intro H. induction matches as [|m rest IH]; [exact H|]. cbn [try_matches].
  destruct (int_of_str _) as [candidate|]; [|exact IH].
  destruct (po_in candidate po_map) eqn:E; [exact E | exact IH].
Qed.

Lemma try_number_patterns_ok (patterns : list Re.regex)
  (values_line : str) (st : chain) :
  chain_ok po_map st ->
  chain_ok po_map (try_number_patterns po_map patterns values_line st).
Proof.
  revert st. induction patterns as [|p rest IH]; intros st H; [exact H|]. cbn [try_number_patterns].
  destruct (truthy (fst st)); [exact H|].
  apply IH, try_matches_ok, H.
Qed.

Lemma try_lines_ok (lines_to_check : list str)
  (st : chain) :
  chain_ok po_map st -> chain_ok po_map (try_lines po_map lines_to_check st).
Proof.
  revert st. induction lines_to_check as [|l rest IH]; intros st H; [exact H|].
  cbn [try_lines]. destruct (truthy (fst st)); [exact H|].
  apply IH, try_number_patterns_ok, H.
Qed.

Lemma table_column_ok (headers : list Re.regex)
  (text : str) (st : chain) :
  chain_ok po_map st -> chain_ok po_map (table_column po_map headers text st).
Proof.
  revert st. induction headers as [|h rest IH]; intros st H; [exact H|].
  cbn [table_column]. destruct (truthy (fst st)); [exact H|].
  destruct (Re.search true h text); [|now apply IH].
  apply IH, try_lines_ok, H.
Qed.

Lemma pattern_matching_ok (patterns : list Re.regex)
  (text : str) (st : chain) :
  chain_ok po_map st ->
  chain_ok po_map (pattern_matching po_map patterns text st).
Proof.
  revert st. induction patterns as [|p rest IH]; intros st H; [exact H|].
  cbn [pattern_matching]. pose proof (try_matches_ok PatternMatch (Re.finditer true p text) st H) as H'.
  destruct (truthy _); [exact H' | now apply IH].
Qed.

Lemma direct_search_ok (items : po_map_t) (text text_upper : str)
  (st st' : chain) :
  incl items po_map -> chain_ok po_map st ->
  direct_search items text text_upper st = Returned st' ->
  chain_ok po_map st'.
Proof.
  intros Hi H. induction items as [|[po_id info] rest IH]; cbn [direct_search].
  - intro E. injection E as <-. exact H.
  - assert (K : po_in po_id po_map = true).
    { apply po_in_In, in_map_iff. exists (po_id, info). split; [reflexivity|].
      apply Hi. now left. }
    assert (Hr : incl rest po_map) by (intros x Hx; apply Hi; now right).
    destruct (contains _ text); [|now apply IH].
    destruct (Re.compile _); [|discriminate].
    destruct (is_some _); [intro E; injection E as <-; exact K|].
    destruct (existsb _ _); [intro E; injection E as <-; exact K|].
    destruct (Re.compile _); [|discriminate].
    destruct (is_some _); [intro E; injection E as <-; exact K|].
    now apply IH.
Qed.

Lemma po_get_in (po_id : Z) (info : po_info) :
  po_get po_id po_map = Some info -> po_in po_id po_map = true.
Proof.
  induction po_map as [|[k i] rest IH]; cbn; [discriminate|].
  destruct (k =? po_id); [reflexivity|]. exact IH.
Qed.

Lemma try_numbers_near_ok (job_name : str)
  (number_matches : list str) (st : chain) :
  chain_ok po_map st ->
  chain_ok po_map (try_numbers_near po_map job_name number_matches st).
Proof.
  intro H. induction number_matches as [|n rest IH]; [exact H|]. cbn [try_numbers_near].
  destruct (int_of_str n) as [candidate|]; [|exact IH].
  destruct (po_in candidate po_map) eqn:E; [|exact IH].
  destruct (po_get candidate po_map); [|exact IH].
  destruct (Float.leb _ _); [exact E | exact IH].
Qed.

Lemma fuzzy_scan_ok (active_jobs : list str) (text : str)
  (st : chain) :
  chain_ok po_map st -> chain_ok po_map (fuzzy_scan po_map active_jobs text st).
Proof.
  revert st. induction active_jobs as [|j rest IH]; intros st H; [exact H|].
  cbn [fuzzy_scan]. destruct (truthy (fst st)); [exact H|].
  destruct (found _); [|now apply IH].
  apply IH, try_numbers_near_ok, H.
Qed.

Lemma try_ids_in_text_ok (matching_pos : list Z)
  (text : str) (st : chain) :
  (forall k, In k matching_pos -> po_in k po_map = true) ->
  chain_ok po_map st ->
  chain_ok po_map (try_ids_in_text matching_pos text st).
Proof.
  intros Hk H. induction matching_pos as [|k rest IH]; [exact H|]. cbn [try_ids_in_text].
  destruct (contains _ text).
  - apply Hk. now left.
  - apply IH. intros k' Hk'. apply Hk. now right.
Qed.

Lemma broader_scan_ok (active_jobs : list str)
  (text : str) (st : chain) :
  chain_ok po_map st ->
  chain_ok po_map (broader_scan po_map active_jobs text st).
Proof.
  revert st. induction active_jobs as [|j rest IH]; intros st H; [exact H|].
  cbn [broader_scan]. destruct (truthy (fst st)); [exact H|].
  destruct (found _); [|now apply IH].
  apply IH. apply try_ids_in_text_ok; [|exact H].
  intros k Hk. apply po_in_In.
  apply in_map_iff in Hk. destruct Hk as [x [<- Hx]].
  apply filter_In in Hx. apply in_map. apply Hx.
Qed.

Lemma fuzzy_job_scan_ok (e : env) (text : str)
  (st : chain) :
  chain_ok po_map st -> chain_ok po_map (fuzzy_job_scan e po_map text st).
Proof.
  intro H. unfold fuzzy_job_scan.
  pose proof (fuzzy_scan_ok (active_job_names e) text st H) as H'.
  destruct (negb _); [now apply broader_scan_ok | exact H'].
Qed.

Lemma fallback_chain_ok (e : env) (text : str) (st st' : chain) :
  chain_ok po_map st ->
  fallback_chain e text po_map st = Returned st' ->
  chain_ok po_map st'.
Proof.
  intro H. unfold fallback_chain.
  pose proof (table_column_ok header_patterns text st H) as H1.
  set (st1 := table_column po_map header_patterns text st) in *.
  assert (H2 : chain_ok po_map
                 (if negb (truthy (fst st1))
                  then pattern_matching po_map po_patterns text st1 else st1)).
  { destruct (negb _); [now apply pattern_matching_ok | exact H1]. }
  set (st2 := if negb (truthy (fst st1)) then _ else st1) in *.
  destruct (negb (truthy (fst st2)) && negb (is_empty po_map)) eqn:G.
  - destruct (direct_search _ _ _ _) as [st3|] eqn:D; [|discriminate].
    apply direct_search_ok in D; [|apply incl_refl|exact H2].
    intro E. injection E as <-.
    destruct (negb (truthy (fst st3)) && negb (is_empty po_map));
      [now apply fuzzy_job_scan_ok | exact D].
  - intro E. injection E as <-. rewrite G. exact H2.
Qed.

End ChainInvariant.

Lemma extract_invoice_data_ok (e : env) (text : str) (po_map : po_map_t)
  (po : Z) (inv cost : str) (how : option method) :
  extract_invoice_data e text po_map = Returned (Some (Match po inv cost how)) ->
  po_in po po_map = true /\ po <> 0 /\ exists m, how = Some m.
Proof.
  unfold extract_invoice_data.
  destruct (is_empty text); [discriminate|].
  destruct (find_invoice_number text) as [invoice_number|]; [|discriminate].
  destruct (fallback_chain _ _ _ _) as [st|] eqn:F; [|discriminate].
  apply (fallback_chain_ok po_map e text) in F; [|apply claude_step_ok].
  unfold final_result. destruct st as [[n|] [m|]]; cbn [fst snd] in *;
    try contradiction; try discriminate.
  destruct (n =? 0) eqn:Z0; [discriminate|].
  intro E. injection E as <- <- <- <-.
  repeat split; [exact F | lia | eauto].
Qed.

(** C1: whenever [extract_invoice_data] returns a match, its PO id is a
    key of the eligible-PO map it was given, and the match carries the
    method that found it; this covers the five strategies, each of which
    keeps the invariant [chain_ok]. *)
Theorem extract_invoice_data_po_eligible (e : env) (text : str)
  (po_map : po_map_t) (po : Z) (inv cost : str) (how : option method) :
  extract_invoice_data e text po_map
  = Returned (Some (Match po inv cost how)) ->
  In po (map fst po_map) /\ exists m, how = Some m.
Proof.
  intro H. apply extract_invoice_data_ok in H.
  destruct H as [K [_ M]]. split; [now apply po_in_In | exact M].
Qed.

Lemma extract_invoice_data_po_eligible_witness :
  In 1012 (map fst somerville_po) /\ exists m, Some TableColumn = Some m.
Proof.
  apply (extract_invoice_data_po_eligible no_assist invoice_784512
           somerville_po 1012 (lit "784512") (lit "1234.50")
           (Some TableColumn)).
  vm_compute. reflexivity.
Defined.

(** ** The assist strategy *)

Lemma str_eqb_neq (a b : str) : eqb a b = false <-> a <> b.
Proof.
  split.
  - intros E H. apply str_eqb_eq in H. congruence.
  - intro H. destruct (eqb a b) eqn:E; [|reflexivity].
    apply str_eqb_eq in E. contradiction.
Qed.

Lemma float_leb_le (x y : Q) : Float.leb x y = true <-> (x <= y)%Q.
Proof. apply Qle_bool_iff. Qed.

Lemma truthy_iff (po : option Z) :
  truthy po = true <-> exists n, po = Some n /\ n <> 0.
Proof.
  destruct po as [n|]; cbn.
  - rewrite negb_true_iff, Z.eqb_neq. split.
    + intro H. exists n. auto.
    + intros [m [E H]]. congruence.
  - split; [discriminate | intros [n [E _]]; discriminate].
Qed.

(** What [read_reply] answers. *)
Lemma read_reply_accepted (response_text : str) (po_map : po_map_t) (n : Z) :
  (exists job conf,
      read_reply response_text po_map = (Some n, job, conf)
      /\ n <> 0 /\ (Float.literal 6 10 <= conf)%Q)
  <-> reply_accepted response_text po_map n.
Proof.
  unfold read_reply, reply_accepted, reply_field.
  set (result := parse_reply response_text).
  set (matched := reply_get (lit "MATCHED") (lit "no") result).
  set (job_name := reply_get (lit "JOB_NAME") (lit "none") result).
  set (po_number_str := reply_get (lit "PO_NUMBER") (lit "none") result).
  set (confidence := reply_get (lit "CONFIDENCE") (lit "low") result).
  destruct (eqb (lower matched) (lit "yes")) eqn:M; cbn [negb orb].
  2:{ apply str_eqb_neq in M. split.
      - intros [job [conf [E _]]]. discriminate.
      - intros [H _]. contradiction. }
  apply str_eqb_eq in M.
  destruct (eqb (lower job_name) (lit "none")) eqn:J; cbn [orb].
  { apply str_eqb_eq in J. split.
    - intros [job [conf [E _]]]. discriminate.
    - intros [_ [H _]]. contradiction. }
  apply str_eqb_neq in J.
  destruct (eqb (lower po_number_str) (lit "none")) eqn:P.
  { apply str_eqb_eq in P. split.
    - intros [job [conf [E _]]]. discriminate.
    - intros [_ [_ [H _]]]. contradiction. }
  apply str_eqb_neq in P.
  destruct (int_of_str po_number_str) as [k|] eqn:I.
  2:{ split.
      - intros [job [conf [E _]]]. discriminate.
      - intros [_ [_ [_ [H _]]]]. discriminate. }
  destruct (po_in k po_map) eqn:K; cbn [negb].
  - apply po_in_In in K. split.
    + intros [job [conf [E [Hn Hc]]]]. injection E as <- <- <-.
      repeat split; auto.
    + intros [_ [_ [_ [E [Hn [_ Hc]]]]]]. injection E as <-.
      exists (Some job_name), (confidence_score confidence). auto.
  - split.
    + intros [job [conf [E _]]]. discriminate.
    + intros [_ [_ [_ [E [_ [Hin _]]]]]]. injection E as <-.
      apply po_in_In in Hin. congruence.
Qed.

(** The assist step, when the service is enabled and answers. *)
Lemma claude_step_reply (e : env) (text : str) (po_map : po_map_t)
  (response_text : str) :
  claude_matching_enabled e = true ->
  active_job_names e <> [] ->
  po_map <> [] ->
  assist_reply e (jobs_list (active_job_names e)) (po_context po_map)
    (invoice_excerpt text) = Some response_text ->
  claude_step e text po_map =
  let '(po, _, conf) := read_reply response_text po_map in
  if truthy po && Float.leb (Float.literal 6 10) conf
  then (po, Some ClaudeAI) else (None, None).
Proof.
  intros He Hj Hp Hr. unfold claude_step, match_invoice_with_claude.
  apply is_empty_false in Hj, Hp. rewrite He, Hj, Hp, Hr. reflexivity.
Qed.

Lemma claude_step_accepts (e : env) (text : str) (po_map : po_map_t)
  (response_text : str) (n : Z) :
  claude_matching_enabled e = true ->
  active_job_names e <> [] ->
  po_map <> [] ->
  assist_reply e (jobs_list (active_job_names e)) (po_context po_map)
    (invoice_excerpt text) = Some response_text ->
  claude_step e text po_map = (Some n, Some ClaudeAI)
  <-> reply_accepted response_text po_map n.
Proof.
  intros He Hj Hp Hr.
  rewrite (claude_step_reply e text po_map response_text He Hj Hp Hr).
  rewrite <- read_reply_accepted.
  destruct (read_reply response_text po_map) as [[po job] conf].
  destruct (truthy po && Float.leb (Float.literal 6 10) conf) eqn:T.
  - apply andb_true_iff in T. destruct T as [T L].
    apply truthy_iff in T. destruct T as [k [-> Hk]].
    apply float_leb_le in L. split.
    + intro E. injection E as <-. eauto.
    + intros [job' [conf' [E _]]]. injection E as <- <- <-. reflexivity.
  - split; [discriminate|].
    intros [job' [conf' [E [Hn Hc]]]]. injection E as -> <- <-.
    apply float_leb_le in Hc. rewrite Hc, andb_true_r in T.
    cbn in T. apply negb_false_iff, Z.eqb_eq in T. contradiction.
Qed.

(** The assist step leaves the chain unset or sets it to a PO number
    that is not zero. *)
Lemma claude_step_cases (e : env) (text : str) (po_map : po_map_t) :
  claude_step e text po_map = (None, None)
  \/ exists n, n <> 0 /\ claude_step e text po_map = (Some n, Some ClaudeAI).
Proof.
  unfold claude_step. destruct (_ && _); [|now left].
  destruct (match_invoice_with_claude _ _ _ _) as [[po job] conf].
  destruct (truthy po && _) eqn:T; [|now left].
  apply andb_true_iff in T. destruct T as [T _].
  apply truthy_iff in T. destruct T as [n [-> Hn]]. right. eauto.
Qed.

Lemma table_column_set (po_map : po_map_t) (headers : list Re.regex)
  (text : str) (st : chain) :
  truthy (fst st) = true -> table_column po_map headers text st = st.
Proof. intro T. destruct headers; cbn [table_column]; [|rewrite T]; reflexivity. Qed.

(** A chain that is set passes the fallback methods unchanged. *)
Lemma fallback_chain_set (e : env) (text : str) (po_map : po_map_t)
  (st : chain) :
  truthy (fst st) = true -> fallback_chain e text po_map st = Returned st.
Proof.
  intro T. unfold fallback_chain.
  cbv zeta. rewrite (table_column_set _ _ _ _ T), T.
  change (negb true) with false. cbv iota. rewrite T.
  change (negb true) with false. rewrite andb_false_l. now rewrite T.
Qed.

(** After the assist step the table-column method is the first to
    run. *)
Lemma fallback_chain_table_column (e : env) (text : str) (po_map : po_map_t)
  (st st1 : chain) :
  table_column po_map header_patterns text st = st1 ->
  truthy (fst st1) = true ->
  fallback_chain e text po_map st = Returned st1.
Proof.
  intros E T. unfold fallback_chain. cbv zeta. rewrite E, T.
  change (negb true) with false. cbv iota. rewrite T.
  change (negb true) with false. rewrite andb_false_l. now rewrite T.
Qed.

Lemma confidence_score_other (confidence : str) :
  lower confidence <> lit "high" -> lower confidence <> lit "medium" ->
  lower confidence <> lit "low" ->
  confidence_score confidence = Float.literal 5 10.
Proof.
  intros H M L. unfold confidence_score.
  apply str_eqb_neq in H, M, L. now rewrite H, M, L.
Qed.

Lemma confidence_score_word (confidence : str) :
  (lower confidence = lit "high" ->
   confidence_score confidence = Float.literal 95 100)
  /\ (lower confidence = lit "medium" ->
      confidence_score confidence = Float.literal 80 100)
  /\ (lower confidence = lit "low" ->
      confidence_score confidence = Float.literal 60 100).
Proof.
  unfold confidence_score.
  repeat split; intro H; rewrite H; reflexivity.
Qed.

(** Without the service, without a job or a PO to propose, or without
    an answer, the assist step leaves the chain unset. *)
Lemma claude_step_unavailable (e : env) (text : str) (po_map : po_map_t) :
  claude_matching_enabled e = false
  \/ active_job_names e = []
  \/ po_map = []
  \/ assist_reply e (jobs_list (active_job_names e)) (po_context po_map)
       (invoice_excerpt text) = None ->
  claude_step e text po_map = (None, None).
Proof.
  unfold claude_step, match_invoice_with_claude.
  intros [H|[H|[H|H]]].
  - rewrite H, andb_false_r. reflexivity.
  - rewrite H. destruct (_ && _); [|reflexivity].
    destruct (negb _); reflexivity.
  - rewrite H. reflexivity.
  - rewrite H. destruct (_ && _); [|reflexivity].
    destruct (negb _); [reflexivity|]. destruct (_ || _); reflexivity.
Qed.

(** The methods after the assist step record their own_method name. *)
Section FallbackMethods.

Variable po_map : po_map_t.

Lemma try_matches_own (how : method) (matches : list Re.matched)
  (st : chain) :
  how <> ClaudeAI -> own_method st -> own_method (try_matches po_map how matches st).
Proof.
  intros Hh H. induction matches as [|m rest IH]; [exact H|].
  cbn [try_matches].
  destruct (int_of_str _) as [candidate|]; [|exact IH].
  destruct (po_in candidate po_map); [|exact IH].
  unfold own_method. cbn. congruence.
Qed.

Lemma try_number_patterns_own (patterns : list Re.regex)
  (values_line : str) (st : chain) :
  own_method st -> own_method (try_number_patterns po_map patterns values_line st).
Proof.
  revert st. induction patterns as [|p rest IH]; intros st H; [exact H|].
  cbn [try_number_patterns]. destruct (truthy (fst st)); [exact H|].
  apply IH, try_matches_own; [discriminate | exact H].
Qed.

Lemma try_lines_own (lines_to_check : list str) (st : chain) :
  own_method st -> own_method (try_lines po_map lines_to_check st).
Proof.
  revert st. induction lines_to_check as [|l rest IH]; intros st H;
    [exact H|].
  cbn [try_lines]. destruct (truthy (fst st)); [exact H|].
  apply IH, try_number_patterns_own, H.
Qed.

Lemma table_column_own (headers : list Re.regex) (text : str) (st : chain) :
  own_method st -> own_method (table_column po_map headers text st).
Proof.
  revert st. induction headers as [|h rest IH]; intros st H; [exact H|].
  cbn [table_column]. destruct (truthy (fst st)); [exact H|].
  destruct (Re.search true h text); [|now apply IH].
  apply IH, try_lines_own, H.
Qed.

Lemma pattern_matching_own (patterns : list Re.regex) (text : str)
  (st : chain) :
  own_method st -> own_method (pattern_matching po_map patterns text st).
Proof.
  revert st. induction patterns as [|p rest IH]; intros st H; [exact H|].
  cbn [pattern_matching].
  assert (H' : own_method (try_matches po_map PatternMatch
                      (Re.finditer true p text) st))
    by (apply try_matches_own; [discriminate | exact H]).
  destruct (truthy _); [exact H' | now apply IH].
Qed.

Lemma direct_search_own (items : po_map_t) (text text_upper : str)
  (st st' : chain) :
  own_method st -> direct_search items text text_upper st = Returned st' -> own_method st'.
Proof.
  intro H. induction items as [|[po_id info] rest IH]; cbn [direct_search].
  - intro E. injection E as <-. exact H.
  - destruct (contains _ text); [|exact IH].
    destruct (Re.compile _); [|discriminate].
    destruct (is_some _); [intro E; injection E as <-; unfold own_method; discriminate|].
    destruct (existsb _ _); [intro E; injection E as <-; unfold own_method; discriminate|].
    destruct (Re.compile _); [|discriminate].
    destruct (is_some _); [intro E; injection E as <-; unfold own_method; discriminate|].
    exact IH.
Qed.

Lemma try_numbers_near_own (job_name : str) (number_matches : list str)
  (st : chain) :
  own_method st -> own_method (try_numbers_near po_map job_name number_matches st).
Proof.
  intro H. induction number_matches as [|n rest IH]; [exact H|].
  cbn [try_numbers_near].
  destruct (int_of_str n) as [candidate|]; [|exact IH].
  destruct (po_in candidate po_map); [|exact IH].
  destruct (po_get candidate po_map); [|exact IH].
  destruct (Float.leb _ _); [unfold own_method; discriminate | exact IH].
Qed.

Lemma fuzzy_scan_own (active_jobs : list str) (text : str) (st : chain) :
  own_method st -> own_method (fuzzy_scan po_map active_jobs text st).
Proof.
  revert st. induction active_jobs as [|j rest IH]; intros st H; [exact H|].
  cbn [fuzzy_scan]. destruct (truthy (fst st)); [exact H|].
  destruct (found _); [|now apply IH].
  apply IH, try_numbers_near_own, H.
Qed.

Lemma try_ids_in_text_own (matching_pos : list Z) (text : str) (st : chain) :
  own_method st -> own_method (try_ids_in_text matching_pos text st).
Proof.
  intro H. induction matching_pos as [|k rest IH]; [exact H|].
  cbn [try_ids_in_text]. destruct (contains _ text); [unfold own_method; discriminate | exact IH].
Qed.

Lemma broader_scan_own (active_jobs : list str) (text : str) (st : chain) :
  own_method st -> own_method (broader_scan po_map active_jobs text st).
Proof.
  revert st. induction active_jobs as [|j rest IH]; intros st H; [exact H|].
  cbn [broader_scan]. destruct (truthy (fst st)); [exact H|].
  destruct (found _); [|now apply IH].
  apply IH, try_ids_in_text_own, H.
Qed.

Lemma fuzzy_job_scan_own (e : env) (text : str) (st : chain) :
  own_method st -> own_method (fuzzy_job_scan e po_map text st).
Proof.
  intro H. unfold fuzzy_job_scan.
  pose proof (fuzzy_scan_own (active_job_names e) text st H) as H'.
  destruct (negb _); [now apply broader_scan_own | exact H'].
Qed.

Lemma fallback_chain_own (e : env) (text : str) (st st' : chain) :
  own_method st ->
  fallback_chain e text po_map st = Returned st' ->
  own_method st'.
Proof.
  intro H. unfold fallback_chain.
  pose proof (table_column_own header_patterns text st H) as H1.
  set (st1 := table_column po_map header_patterns text st) in *.
  assert (H2 : own_method (if negb (truthy (fst st1))
                    then pattern_matching po_map po_patterns text st1
                    else st1)).
  { destruct (negb _); [now apply pattern_matching_own | exact H1]. }
  set (st2 := if negb (truthy (fst st1)) then _ else st1) in *.
  destruct (negb (truthy (fst st2)) && negb (is_empty po_map)) eqn:G.
  - destruct (direct_search _ _ _ _) as [st3|] eqn:D; [|discriminate].
    apply direct_search_own in D; [|exact H2].
    intro E. injection E as <-.
    destruct (negb (truthy (fst st3)) && negb (is_empty po_map));
      [now apply fuzzy_job_scan_own | exact D].
  - intro E. injection E as <-. rewrite G. exact H2.
Qed.

End FallbackMethods.

(** The result of the engine is a match of the assist strategy exactly
    when the assist step took a PO number. *)
Lemma extract_invoice_data_assist (e : env) (text : str) (po_map : po_map_t)
  (n : Z) (inv cost : str) :
  extract_invoice_data e text po_map
  = Returned (Some (Match n inv cost (Some ClaudeAI)))
  <-> is_empty text = false
      /\ find_invoice_number text = Some inv
      /\ cost = find_total_cost cost_patterns text
      /\ claude_step e text po_map = (Some n, Some ClaudeAI).
Proof.
  unfold extract_invoice_data. split.
  - destruct (is_empty text); [discriminate|].
    destruct (find_invoice_number text) as [invoice_number|]; [|discriminate].
    destruct (claude_step_cases e text po_map) as [C|[k [Hk C]]]; rewrite C.
    + destruct (fallback_chain _ _ _ _) as [st|] eqn:F; [|discriminate].
      apply fallback_chain_own in F; [|unfold own_method; discriminate].
      unfold own_method in F. unfold final_result. destruct (fst st) as [m|]; [|discriminate].
      destruct (m =? 0); [discriminate|].
      intro E. injection E as _ _ _ E. congruence.
    + rewrite fallback_chain_set
        by (cbn; now apply negb_true_iff, Z.eqb_neq).
      unfold final_result. cbn [fst snd].
      destruct (k =? 0) eqn:K; [discriminate|].
      intro E. injection E as <- <- <-. auto.
  - intros (T & I & -> & C). rewrite T, I, C.
    destruct (claude_step_cases e text po_map) as [C'|[k [Hk C']]];
      [congruence|].
    assert (k = n) by congruence. subst k.
    rewrite fallback_chain_set by (cbn; now apply negb_true_iff, Z.eqb_neq).
    unfold final_result. cbn [fst snd].
    apply Z.eqb_neq in Hk. rewrite Hk. reflexivity.
Qed.

(** C3 (amended): the confidence word, whatever its letter case, is
    mapped to 0.95, 0.80, 0.60 and, when it is none of the three, 0.50;
    the threshold test accepts 0.60 and rejects 0.59; when the service is
    enabled and answers, its PO number is taken if and only if the reply
    says [MATCHED: yes], names a job and a PO number other than [none],
    the PO number parses as an integer that is not zero and is a key of
    the eligible map, and the score is at least 0.60; a reply that meets
    this for no number, a service that is switched off or gives no
    answer, and an empty list of jobs or of POs leave the chain unset;
    the result of [extract_invoice_data] is a match by the assist
    strategy exactly when the assist step took that PO number, so that,
    on a page with an invoice number, the suggestion of a service that
    answers is the final match if and only if the reply is accepted; a
    PO number taken passes the other methods unchanged; and with the
    chain unset the table-column method is the next to decide. *)
Theorem assist_strategy_spec :
  (forall confidence,
     (lower confidence = lit "high" ->
      confidence_score confidence = Float.literal 95 100)
     /\ (lower confidence = lit "medium" ->
         confidence_score confidence = Float.literal 80 100)
     /\ (lower confidence = lit "low" ->
         confidence_score confidence = Float.literal 60 100)
     /\ (lower confidence <> lit "high" ->
         lower confidence <> lit "medium" ->
         lower confidence <> lit "low" ->
         confidence_score confidence = Float.literal 5 10))
  /\ (Float.leb (Float.literal 6 10) (Float.literal 60 100) = true
      /\ Float.leb (Float.literal 6 10) (Float.literal 59 100) = false)
  /\ (forall e text po_map response_text n,
        claude_matching_enabled e = true ->
        active_job_names e <> [] ->
        po_map <> [] ->
        assist_reply e (jobs_list (active_job_names e)) (po_context po_map)
          (invoice_excerpt text) = Some response_text ->
        claude_step e text po_map = (Some n, Some ClaudeAI)
        <-> reply_accepted response_text po_map n)
  /\ (forall e text po_map response_text,
        assist_reply e (jobs_list (active_job_names e)) (po_context po_map)
          (invoice_excerpt text) = Some response_text ->
        (forall n, ~ reply_accepted response_text po_map n) ->
        claude_step e text po_map = (None, None))
  /\ (forall e text po_map,
        claude_matching_enabled e = false
        \/ active_job_names e = []
        \/ po_map = []
        \/ assist_reply e (jobs_list (active_job_names e))
             (po_context po_map) (invoice_excerpt text) = None ->
        claude_step e text po_map = (None, None))
  /\ (forall e text po_map,
        claude_step e text po_map = (None, None)
        \/ exists n, n <> 0
                     /\ claude_step e text po_map = (Some n, Some ClaudeAI))
  /\ (forall e text po_map n inv cost,
        extract_invoice_data e text po_map
        = Returned (Some (Match n inv cost (Some ClaudeAI)))
        <-> is_empty text = false
            /\ find_invoice_number text = Some inv
            /\ cost = find_total_cost cost_patterns text
            /\ claude_step e text po_map = (Some n, Some ClaudeAI))
  /\ (forall e text po_map response_text n inv,
        claude_matching_enabled e = true ->
        active_job_names e <> [] ->
        po_map <> [] ->
        assist_reply e (jobs_list (active_job_names e)) (po_context po_map)
          (invoice_excerpt text) = Some response_text ->
        is_empty text = false ->
        find_invoice_number text = Some inv ->
        extract_invoice_data e text po_map
        = Returned (Some (Match n inv (find_total_cost cost_patterns text)
                            (Some ClaudeAI)))
        <-> reply_accepted response_text po_map n)
  /\ (forall e text po_map n,
        n <> 0 ->
        fallback_chain e text po_map (Some n, Some ClaudeAI)
        = Returned (Some n, Some ClaudeAI))
  /\ (forall e text po_map k how,
        table_column po_map header_patterns text (None, None) = (Some k, how) ->
        k <> 0 ->
        fallback_chain e text po_map (None, None) = Returned (Some k, how)).
Proof.
  split; [|split; [|split; [|split; [|split; [|split; [|split; [|split;
    [|split]]]]]]]].
  - intro confidence.
    destruct (confidence_score_word confidence) as (H & M & L).
    repeat split; try assumption. apply confidence_score_other.
  - split; vm_compute; reflexivity.
  - intros. now apply claude_step_accepts.
  - intros e text po_map response_text Hr Hn.
    destruct (claude_matching_enabled e) eqn:He;
      [|apply claude_step_unavailable; now left].
    destruct (active_job_names e) eqn:Hj;
      [apply claude_step_unavailable; right; now left|].
    destruct po_map as [|entry rest] eqn:Hp;
      [apply claude_step_unavailable; right; right; now left|].
    rewrite <- Hp in *.
    destruct (claude_step_cases e text po_map) as [C|[n [_ C]]]; [exact C|].
    exfalso. apply (Hn n).
    apply (claude_step_accepts e text po_map response_text n); auto.
    + rewrite Hj. discriminate.
    + rewrite Hp. discriminate.
    + now rewrite Hj.
  - apply claude_step_unavailable.
  - apply claude_step_cases.
  - apply extract_invoice_data_assist.
  - intros e text po_map response_text n inv He Hj Hp Hr Ht Hi.
    rewrite extract_invoice_data_assist.
    rewrite <- (claude_step_accepts e text po_map response_text n He Hj Hp Hr).
    tauto.
  - intros e text po_map n Hn. apply fallback_chain_set.
    cbn. now apply negb_true_iff, Z.eqb_neq.
  - intros e text po_map k how E Hk.
    apply (fallback_chain_table_column e text po_map _ _ E).
    cbn. now apply negb_true_iff, Z.eqb_neq.
Qed.

Lemma assist_strategy_spec_witness :
  claude_step (assist_with (reply_2045 "low")) invoice_784512 two_pos
  = (Some 2045, Some ClaudeAI).
Proof.
  destruct assist_strategy_spec as [_ [_ [accepts _]]].
  apply (accepts (assist_with (reply_2045 "low")) invoice_784512 two_pos
           (reply_2045 "low") 2045).
  - reflexivity.
  - discriminate.
  - discriminate.
  - reflexivity.
  - unfold reply_accepted.
    repeat split; try (vm_compute; (reflexivity || discriminate || tauto)).
Defined.

(** C3 as stated fails: the PO number of the reply parses, is eligible
    and the score is 0.95, yet the reply names no job and is not
    taken. *)
Lemma reply_without_job_rejected :
  reply_accepted_as_claimed reply_no_job somerville_po 1012
  /\ claude_step (assist_with reply_no_job) invoice_784512 somerville_po
     = (None, None).
Proof.
  split; [|vm_compute; reflexivity].
  unfold reply_accepted_as_claimed.
  repeat split; try (vm_compute; (reflexivity || discriminate || tauto)).
Qed.

(** The example of the specification: the page names PO 1012 under a
    table header and the service suggests PO 2045.  With confidence
    [low] (0.60) the suggestion is the result; with a word that is not
    recognized (0.50) the table-column method decides. *)
Example assist_low_wins :
  extract_invoice_data (assist_with (reply_2045 "low")) invoice_784512 two_pos
  = Returned (Some (Match 2045 (lit "784512") (lit "1234.50")
                      (Some ClaudeAI))).
Proof. vm_compute. reflexivity. Qed.

Example assist_unsure_falls_through :
  extract_invoice_data (assist_with (reply_2045 "unsure")) invoice_784512
    two_pos
  = Returned (Some (Match 1012 (lit "784512") (lit "1234.50")
                      (Some TableColumn))).
Proof. vm_compute. reflexivity. Qed.

(** ** The invoice number detector *)

Lemma len_lower (s : str) : len (lower s) = len s.
Proof. unfold len, lower. now rewrite length_map. Qed.

(** The three rejected words are shorter than any candidate taken. *)
Lemma long_not_false_positive (candidate : str) :
  5 <= len candidate -> str_in (lower candidate) false_positives = false.
Proof.
  intro H. destruct (str_in _ _) eqn:E; [|reflexivity].
  unfold str_in in E. apply existsb_exists in E. destruct E as [w [Hw E]].
  apply str_eqb_eq in E. rewrite <- (len_lower candidate), E in H.
  cbn in Hw. destruct Hw as [<-|[<-|[<-|[]]]]; vm_compute in H; contradiction.
Qed.

Lemma acceptable_long (candidate : str) :
  acceptable candidate = (5 <=? len candidate).
Proof.
  unfold acceptable. destruct (5 <=? len candidate) eqn:L; [|reflexivity].
  rewrite long_not_false_positive by lia. reflexivity.
Qed.

Lemma acceptable_spec (candidate : str) :
  acceptable candidate = true ->
  5 <= len candidate /\ ~ In (lower candidate) false_positives.
Proof.
  unfold acceptable. rewrite andb_true_iff, negb_true_iff.
  intros [L N]. split; [lia|]. intro H.
  assert (str_in (lower candidate) false_positives = true); [|congruence].
  apply existsb_exists. exists (lower candidate).
  split; [exact H | apply str_eqb_refl].
Qed.

Lemma first_accepted_cons (pattern : Re.regex) (rest : list Re.regex)
  (text : str) :
  first_accepted (pattern :: rest) text =
  match candidate_of pattern text with
  | Some c => if acceptable c then Some c else first_accepted rest text
  | None => first_accepted rest text
  end.
Proof.
  unfold first_accepted. cbn [flat_map].
  destruct (candidate_of pattern text) as [c|]; [|reflexivity].
  destruct (acceptable c); reflexivity.
Qed.

Lemma first_accepted_app (ps qs : list Re.regex) (text : str) :
  first_accepted (ps ++ qs) text =
  match first_accepted ps text with
  | Some c => Some c
  | None => first_accepted qs text
  end.
Proof.
  induction ps as [|p ps IH]; [reflexivity|].
  rewrite <- app_comm_cons, !first_accepted_cons.
  destruct (candidate_of p text) as [c|]; [|exact IH].
  destruct (acceptable c); [reflexivity | exact IH].
Qed.

Lemma primary_invoice_number_spec (patterns : list Re.regex) (text : str) :
  primary_invoice_number patterns text = first_accepted patterns text.
Proof.
  induction patterns as [|p ps IH]; [reflexivity|].
  rewrite first_accepted_cons. cbn [primary_invoice_number].
  unfold candidate_of. destruct (Re.search true p text) as [m|]; [|exact IH].
  cbn [option_map]. rewrite acceptable_long.
  destruct (5 <=? _); [reflexivity | exact IH].
Qed.

Lemma fallback_invoice_number_spec (patterns : list Re.regex) (text : str) :
  fallback_invoice_number patterns text = first_accepted patterns text.
Proof.
  induction patterns as [|p ps IH]; [reflexivity|].
  rewrite first_accepted_cons. cbn [fallback_invoice_number].
  unfold candidate_of. destruct (Re.search true p text) as [m|]; [|exact IH].
  cbn [option_map]. unfold acceptable. rewrite andb_comm.
  destruct (_ && _); [reflexivity | exact IH].
Qed.

Lemma find_invoice_number_first (text : str) :
  find_invoice_number text
  = first_accepted (customer_invoice_patterns ++ order_patterns) text.
Proof.
  unfold find_invoice_number.
  rewrite first_accepted_app, primary_invoice_number_spec,
    fallback_invoice_number_spec.
  reflexivity.
Qed.

Lemma first_accepted_some (patterns : list Re.regex) (text n : str) :
  first_accepted patterns text = Some n -> acceptable n = true.
Proof.
  induction patterns as [|p ps IH]; [discriminate|].
  rewrite first_accepted_cons.
  destruct (candidate_of p text) as [c|]; [|exact IH].
  destruct (acceptable c) eqn:A; [|exact IH].
  intro E. injection E as <-. exact A.
Qed.

Lemma first_accepted_none (patterns : list Re.regex) (text : str) :
  first_accepted patterns text = None <->
  forall p c, In p patterns -> candidate_of p text = Some c ->
              acceptable c = false.
Proof.
  induction patterns as [|p ps IH].
  - split; [intros _ p c [] | reflexivity].
  - rewrite first_accepted_cons. split.
    + intros H q c [<-|Hq] Hc.
      * rewrite Hc in H. destruct (acceptable c); [discriminate|reflexivity].
      * destruct (candidate_of p text) as [c'|].
        -- destruct (acceptable c'); [discriminate|].
           apply (proj1 IH H q c Hq Hc).
        -- apply (proj1 IH H q c Hq Hc).
    + intro H.
      assert (R : first_accepted ps text = None).
      { apply IH. intros q c Hq. apply H. now right. }
      destruct (candidate_of p text) as [c|] eqn:Hc; [|exact R].
      rewrite (H p c (or_introl eq_refl) Hc). exact R.
Qed.

Lemma extract_invoice_data_no_number (e : env) (text : str)
  (po_map : po_map_t) :
  find_invoice_number text = None ->
  extract_invoice_data e text po_map = Returned None.
Proof.
  intro H. unfold extract_invoice_data. rewrite H.
  destruct (is_empty text); reflexivity.
Qed.

(** C4: an invoice number returned has at least five characters and is
    none of [date], [time], [page] in lower case; the detector returns
    the first acceptable candidate in the order primary patterns, then
    fallback patterns; when no pattern gives an acceptable candidate it
    returns nothing, [extract_invoice_data] returns [None] and the page
    is entered in the unmatched list and nowhere else. *)
Theorem invoice_number_detector (text : str) :
  (forall n, find_invoice_number text = Some n ->
             5 <= len n /\ ~ In (lower n) false_positives)
  /\ find_invoice_number text
     = first_accepted (customer_invoice_patterns ++ order_patterns) text
  /\ ((forall p c, In p (customer_invoice_patterns ++ order_patterns) ->
                   candidate_of p text = Some c -> acceptable c = false) ->
      find_invoice_number text = None)
  /\ (find_invoice_number text = None ->
      forall e timestamp po_map page_num p st,
        page_text e p = text ->
        exists st' u,
          process_page e timestamp po_map page_num p st = Returned st'
          /\ unmatched (loop_results st')
             = unmatched (loop_results st) ++ [u]
          /\ unmatched_page u = page_num
          /\ errors (loop_results st') = errors (loop_results st)
          /\ loop_groups st' = loop_groups st).
Proof.
  split; [|split; [|split]].
  - intros n H. rewrite find_invoice_number_first in H.
    apply acceptable_spec, (first_accepted_some _ _ _ H).
  - apply find_invoice_number_first.
  - intro H. rewrite find_invoice_number_first.
    now apply first_accepted_none.
  - intros H e timestamp po_map page_num p st Ht.
    unfold process_page. rewrite Ht, (extract_invoice_data_no_number _ _ _ H).
    eexists. eexists. split; [reflexivity|]. cbn. auto.
Qed.

Lemma invoice_number_detector_witness :
  5 <= len (lit "784512") /\ ~ In (lower (lit "784512")) false_positives.
Proof.
  apply (proj1 (invoice_number_detector invoice_784512) (lit "784512")).
  vm_compute. reflexivity.
Defined.

(** The order of the patterns at work: an invoice label is preferred to
    an order label standing before it, and a rejected candidate hands
    over to the next pattern. *)
Example invoice_label_before_order_label :
  find_invoice_number (lit "Order # 55120 Invoice No: FM10979-3")
  = Some (lit "FM10979-3").
Proof. vm_compute. reflexivity. Qed.

Example rejected_candidate_hands_over :
  find_invoice_number (lit "Reference: page Ticket # 88123-A")
  = Some (lit "88123-A").
Proof. vm_compute. reflexivity. Qed.

Example short_numbers_only :
  find_invoice_number (lit "Invoice # 4411  Order # 77") = None.
Proof. vm_compute. reflexivity. Qed.

(** ** The batch run *)

(** *** The loop over the pages *)


Lemma extended_nil (g : option group) : extended g [] = g.
Proof. reflexivity. Qed.

Lemma extended_app (g : option group) (h1 h2 : list (Z * str * invoice_data)) :
  extended (extended g h1) h2 = extended g (h1 ++ h2).
Proof.
  destruct h1 as [|[[i t] d] h1]; [reflexivity|].
  destruct h2 as [|[[i2 t2] d2] h2]; [now rewrite app_nil_r|].
  destruct g; cbn; rewrite !map_app, <- ?app_assoc; reflexivity.
Qed.

Lemma add_to_group_lookup (inv n : str) (i : Z) (t : str) (d : invoice_data)
  (gs : groups_t) :
  glookup inv (add_to_group n i t d gs)
  = if eqb n inv then extended (glookup inv gs) [(i, t, d)]
    else glookup inv gs.
Proof.
  induction gs as [|[key g] rest IH]; cbn [add_to_group glookup].
  - destruct (eqb n inv); reflexivity.
  - destruct (eqb key n) eqn:K; cbn [glookup].
    + apply str_eqb_eq in K. subst key.
      destruct (eqb n inv); reflexivity.
    + rewrite IH. destruct (eqb key inv) eqn:KI; [|reflexivity].
      apply str_eqb_eq in KI. subst key. now rewrite str_eqb_sym, K.
Qed.

Lemma add_to_group_keys (n : str) (i : Z) (t : str) (d : invoice_data)
  (gs : groups_t) (k : str) :
  In k (map fst (add_to_group n i t d gs)) <-> k = n \/ In k (map fst gs).
Proof.
  induction gs as [|[key g] rest IH]; cbn [add_to_group map fst In].
  - intuition.
  - destruct (eqb key n) eqn:K; cbn [map fst In].
    + apply str_eqb_eq in K. subst key. intuition.
    + rewrite IH. intuition.
Qed.

Lemma add_to_group_nodup (n : str) (i : Z) (t : str) (d : invoice_data)
  (gs : groups_t) :
  NoDup (map fst gs) -> NoDup (map fst (add_to_group n i t d gs)).
Proof.
  induction gs as [|[key g] rest IH]; cbn [add_to_group map fst]; intro H.
  - constructor; [intros [] | constructor].
  - inversion H as [|x l Hn Hr]; subst.
    destruct (eqb key n) eqn:K; cbn [map fst].
    + constructor; assumption.
    + constructor; [|now apply IH].
      rewrite add_to_group_keys. intros [->|Hin]; [|contradiction].
      now rewrite str_eqb_refl in K.
Qed.

(** The groups after a page was entered. *)
Lemma enter_page_groups (timestamp : str) (page_num : Z) (text : str)
  (returned : option invoice_data) (st : page_loop) :
  loop_groups (enter_page timestamp page_num text returned st)
  = match returned with
    | Some (Match _ n _ _ as d) =>
        add_to_group n (page_num - 1) text d (loop_groups st)
    | _ => loop_groups st
    end.
Proof. destruct returned as [[| ]|]; reflexivity. Qed.

Lemma process_page_lookup (e : env) (timestamp : str) (po_map : po_map_t)
  (inv : str) (p : page) (page_num : Z) (st st' : page_loop) :
  process_page e timestamp po_map page_num p st = Returned st' ->
  glookup inv (loop_groups st')
  = extended (glookup inv (loop_groups st))
      (hit_of e po_map inv (page_num, p)).
Proof.
  unfold process_page, hit_of, page_result. cbn [fst snd].
  destruct (extract_invoice_data e (page_text e p) po_map) as [r|];
    [|discriminate].
  intro E. injection E as <-. rewrite enter_page_groups.
  destruct r as [[n c m|po n c h]|]; try reflexivity.
  rewrite add_to_group_lookup. destruct (eqb n inv); reflexivity.
Qed.

Lemma process_page_nodup (e : env) (timestamp : str) (po_map : po_map_t)
  (p : page) (page_num : Z) (st st' : page_loop) :
  process_page e timestamp po_map page_num p st = Returned st' ->
  NoDup (map fst (loop_groups st)) -> NoDup (map fst (loop_groups st')).
Proof.
  unfold process_page.
  destruct (extract_invoice_data e (page_text e p) po_map) as [r|];
    [|discriminate].
  intro E. injection E as <-. rewrite enter_page_groups.
  destruct r as [[n c m|po n c h]|]; auto using add_to_group_nodup.
Qed.

Lemma process_pages_groups (e : env) (timestamp : str) (po_map : po_map_t)
  (inv : str) (ps : list page) (page_num : Z) (st st' : page_loop) :
  process_pages e timestamp po_map page_num ps st = (st', true) ->
  glookup inv (loop_groups st')
  = extended (glookup inv (loop_groups st))
      (flat_map (hit_of e po_map inv) (numbered page_num ps)).
Proof.
  revert page_num st. induction ps as [|p ps IH]; intros k st H.
  - injection H as <-. reflexivity.
  - cbn [process_pages] in H.
    destruct (process_page e timestamp po_map k p st) as [st1|] eqn:P;
      [|discriminate].
    rewrite (IH _ _ H), (process_page_lookup _ _ _ inv _ _ _ _ P).
    cbn [numbered flat_map]. apply extended_app.
Qed.

Lemma process_pages_nodup (e : env) (timestamp : str) (po_map : po_map_t)
  (ps : list page) (page_num : Z) (st st' : page_loop) :
  process_pages e timestamp po_map page_num ps st = (st', true) ->
  NoDup (map fst (loop_groups st)) -> NoDup (map fst (loop_groups st')).
Proof.
  revert page_num st. induction ps as [|p ps IH]; intros k st H N.
  - injection H as <-. exact N.
  - cbn [process_pages] in H.
    destruct (process_page e timestamp po_map k p st) as [st1|] eqn:P;
      [|discriminate].
    eapply IH; [exact H|]. eapply process_page_nodup; eassumption.
Qed.

Lemma process_page_results (e : env) (timestamp : str) (po_map : po_map_t)
  (p : page) (page_num : Z) (st st' : page_loop) :
  process_page e timestamp po_map page_num p st = Returned st' ->
  errors (loop_results st')
  = errors (loop_results st) ++ error_of e po_map (page_num, p)
  /\ loop_documents st'
     = loop_documents st ++ page_document_of e timestamp po_map (page_num, p)
  /\ details (loop_results st') = details (loop_results st)
  /\ success (loop_results st') = success (loop_results st).
Proof.
  unfold process_page, error_of, page_document_of, page_result. cbn [fst snd].
  destruct (extract_invoice_data e (page_text e p) po_map) as [r|];
    [|discriminate].
  intro E. injection E as <-.
  destruct r as [[n c m|po n c h]|]; cbn; rewrite ?app_nil_r; auto.
Qed.

Lemma process_pages_results (e : env) (timestamp : str) (po_map : po_map_t)
  (ps : list page) (page_num : Z) (st st' : page_loop) :
  process_pages e timestamp po_map page_num ps st = (st', true) ->
  errors (loop_results st')
  = errors (loop_results st)
    ++ flat_map (error_of e po_map) (numbered page_num ps)
  /\ loop_documents st'
     = loop_documents st
       ++ flat_map (page_document_of e timestamp po_map)
            (numbered page_num ps)
  /\ details (loop_results st') = details (loop_results st)
  /\ success (loop_results st') = success (loop_results st).
Proof.
  revert page_num st. induction ps as [|p ps IH]; intros k st H.
  - injection H as <-. cbn. rewrite !app_nil_r. auto.
  - cbn [process_pages] in H.
    destruct (process_page e timestamp po_map k p st) as [st1|] eqn:P;
      [|discriminate].
    apply process_page_results in P. destruct P as [P1 [P2 [P3 P4]]].
    destruct (IH _ _ H) as [H1 [H2 [H3 H4]]].
    cbn [numbered flat_map].
    rewrite H1, H2, H3, H4, P1, P2, P3, P4, <- !app_assoc. auto.
Qed.

Lemma fold_add_detail (f : str * group -> detail_entry) (gs : groups_t)
  (r : results) :
  let r' := fold_left (fun r entry => add_detail (f entry) r) gs r in
  details r' = details r ++ map f gs
  /\ errors r' = errors r
  /\ success r' = success r.
Proof.
  revert r. induction gs as [|g gs IH]; intro r; cbn [fold_left map].
  - now rewrite app_nil_r.
  - destruct (IH (add_detail (f g) r)) as [D [E S]].
    cbv zeta. rewrite D, E, S. cbn. now rewrite <- app_assoc.
Qed.

(** A run that completes: the state of the page loop it ended with. *)
Lemma process_bulk_pdf_success (e : env) (timestamp : str)
  (po_map : po_map_t) (ps : list page) :
  success (report (process_bulk_pdf e timestamp po_map ps)) = true ->
  exists st,
    process_pages e timestamp po_map 1 ps
      {| loop_results := {| success := true; processed := 0; matched := 0;
                            unmatched := []; errors := []; details := [] |};
         loop_groups := []; loop_documents := [] |} = (st, true)
    /\ documents (process_bulk_pdf e timestamp po_map ps)
       = flat_map (page_document_of e timestamp po_map) (numbered 1 ps)
         ++ map (group_document timestamp) (loop_groups st)
    /\ updates (process_bulk_pdf e timestamp po_map ps)
       = map (group_update timestamp) (loop_groups st)
    /\ details (report (process_bulk_pdf e timestamp po_map ps))
       = map (group_detail po_map) (loop_groups st)
    /\ errors (report (process_bulk_pdf e timestamp po_map ps))
       = flat_map (error_of e po_map) (numbered 1 ps).
Proof.
  unfold process_bulk_pdf.
  destruct (process_pages _ _ _ _ _ _) as [st [|]] eqn:P; [|discriminate].
  intros _. exists st. split; [reflexivity|].
  destruct (process_pages_results _ _ _ _ _ _ _ P) as [H1 [H2 [H3 H4]]].
  cbn [report documents updates loop_results loop_documents errors details]
    in *.
  destruct (fold_add_detail (group_detail po_map) (loop_groups st)
              (loop_results st)) as [D [E _]].
  cbv zeta in D, E. rewrite D, E, H1, H2, H3. auto.
Qed.

(** *** The names of the documents *)

Lemma digit_char_not_underscore (d : Z) :
  0 <= d < 10 -> digit_char d <> underscore.
Proof.
  intro H.
  assert (C : d = 0 \/ d = 1 \/ d = 2 \/ d = 3 \/ d = 4 \/ d = 5 \/ d = 6
              \/ d = 7 \/ d = 8 \/ d = 9) by lia.
  repeat (destruct C as [->|C]; [discriminate|]). subst. discriminate.
Qed.

Lemma digits_of_pos_chars (fuel : nat) (n : Z) (acc : str) :
  Forall (fun c => c <> underscore) acc ->
  Forall (fun c => c <> underscore) (digits_of_pos fuel n acc).
Proof.
  revert n acc. induction fuel as [|f IH]; intros n acc H; [exact H|].
  cbn [digits_of_pos].
  assert (H' : Forall (fun c => c <> underscore) (digit_char (n mod 10) :: acc)).
  { constructor; [|exact H].
    apply digit_char_not_underscore, Z.mod_pos_bound. lia. }
  destruct (n <? 10); [exact H' | now apply IH].
Qed.

Lemma format_04d_chars (n : Z) :
  Forall (fun c => c <> underscore) (format_04d n).
Proof.
  assert (Z0 : forall k, Forall (fun c => c <> underscore) (zeros k)).
  { intro k. unfold zeros. apply Forall_forall. intros c Hc.
    apply repeat_spec in Hc. subst. discriminate. }
  assert (D : forall m, Forall (fun c => c <> underscore) (digits_of m)).
  { intro m. apply digits_of_pos_chars. constructor. }
  unfold format_04d. destruct (n <? 0).
  - constructor; [discriminate|]. apply Forall_app. auto.
  - apply Forall_app. auto.
Qed.

Lemma split_at_first (u : ascii) (d1 d2 r1 r2 : str) :
  Forall (fun c => c <> u) d1 -> Forall (fun c => c <> u) d2 ->
  d1 ++ u :: r1 = d2 ++ u :: r2 -> d1 = d2 /\ r1 = r2.
Proof.
  revert d2. induction d1 as [|x d1 IH]; intros d2 H1 H2 E.
  - destruct d2 as [|y d2]; cbn in E.
    + injection E as <-. auto.
    + injection E as <- _. inversion H2; subst. contradiction.
  - destruct d2 as [|y d2]; cbn in E.
    + injection E as -> _. inversion H1; subst. contradiction.
    + injection E as <- E. inversion H1; inversion H2; subst.
      destruct (IH d2) as [-> ->]; auto.
Qed.

(** The name of a group document tells its invoice number. *)
Lemma group_filename_inj (timestamp : str) (po1 po2 : Z) (inv1 inv2 : str) :
  group_filename timestamp po1 inv1 = group_filename timestamp po2 inv2 ->
  inv1 = inv2.
Proof.
  unfold group_filename. intro E. cbn [lit list_ascii_of_string app] in E.
  injection E as E.
  apply (split_at_first underscore) in E; try apply format_04d_chars.
  destruct E as [_ E]. apply app_inv_head in E.
  injection E as E. now apply app_inv_tail in E.
Qed.

Lemma group_filename_head (timestamp : str) (po : Z) (inv : str) :
  hd_error (group_filename timestamp po inv) = Some "P"%char.
Proof. reflexivity. Qed.

Lemma page_document_names (e : env) (timestamp : str) (po_map : po_map_t)
  (np : Z * page) (d : document) :
  In d (page_document_of e timestamp po_map np) ->
  hd_error (filename d) <> Some "P"%char /\ page_indices d = [fst np - 1].
Proof.
  unfold page_document_of.
  destruct (page_result e po_map (snd np)) as [[[n c m|po n c h]|]|];
    cbn [In]; intros [<-|[]] || intros []; split; (discriminate || reflexivity).
Qed.

Lemma filter_none {A} (f : A -> bool) (l : list A) :
  (forall x, In x l -> f x = false) -> filter f l = [].
Proof.
  induction l as [|x l IH]; intro H; [reflexivity|]. cbn.
  rewrite (H x (or_introl eq_refl)). apply IH. intros y Hy. apply H. now right.
Qed.

Lemma filter_page_documents (e : env) (timestamp : str) (po_map : po_map_t)
  (nps : list (Z * page)) (po : Z) (inv : str) :
  filter (fun d => eqb (filename d) (group_filename timestamp po inv))
    (flat_map (page_document_of e timestamp po_map) nps) = [].
Proof.
  apply filter_none. intros d Hd. apply in_flat_map in Hd.
  destruct Hd as [np [_ Hd]]. apply page_document_names in Hd.
  destruct Hd as [Hd _]. apply str_eqb_neq. intro E. apply Hd.
  rewrite E. apply group_filename_head.
Qed.

Lemma glookup_in (inv : str) (gs : groups_t) (g : group) :
  glookup inv gs = Some g -> In (inv, g) gs.
Proof.
  induction gs as [|[key g0] rest IH]; cbn [glookup]; [discriminate|].
  destruct (eqb key inv) eqn:K.
  - apply str_eqb_eq in K. intro E. injection E as <-. subst. now left.
  - intro E. right. now apply IH.
Qed.

Lemma glookup_none (inv : str) (gs : groups_t) :
  ~ In inv (map fst gs) -> glookup inv gs = None.
Proof.
  induction gs as [|[key g0] rest IH]; cbn [glookup map fst In]; intro H;
    [reflexivity|].
  destruct (eqb key inv) eqn:K.
  - apply str_eqb_eq in K. tauto.
  - apply IH. tauto.
Qed.

(** Among the documents of the groups, one bears the name of the group
    of [inv]. *)
Lemma filter_group_documents (timestamp : str) (inv : str) (gs : groups_t)
  (g : group) :
  NoDup (map fst gs) -> glookup inv gs = Some g ->
  filter (fun d => eqb (filename d)
                     (group_filename timestamp (po_id_of (data g)) inv))
    (map (group_document timestamp) gs)
  = [group_document timestamp (inv, g)].
Proof.
  induction gs as [|[key g0] rest IH]; cbn [glookup map fst]; intros N L;
    [discriminate|].
  inversion N as [|x l Hn Hr]; subst. cbn [filter].
  destruct (eqb key inv) eqn:K.
  - apply str_eqb_eq in K. subst key. injection L as <-.
    change (filename (group_document timestamp (inv, g0)))
      with (group_filename timestamp (po_id_of (data g0)) inv).
    rewrite str_eqb_refl. f_equal.
    apply filter_none. intros d Hd. apply in_map_iff in Hd.
    destruct Hd as [[k' g'] [<- Hin]]. cbn [group_document filename].
    apply str_eqb_neq. intro E. apply group_filename_inj in E. subst k'.
    apply Hn. apply in_map_iff. exists (inv, g'). auto.
  - change (filename (group_document timestamp (key, g0)))
      with (group_filename timestamp (po_id_of (data g0)) key).
    replace (eqb (group_filename timestamp (po_id_of (data g0)) key)
               (group_filename timestamp (po_id_of (data g)) inv))
      with false.
    + now apply IH.
    + symmetry. apply str_eqb_neq. intro E. apply group_filename_inj in E.
      subst key. now rewrite str_eqb_refl in K.
Qed.

(** Among the updates, one is for the invoice number [inv]. *)
Lemma filter_group_updates (timestamp : str) (inv : str) (gs : groups_t)
  (g : group) :
  NoDup (map fst gs) -> glookup inv gs = Some g ->
  filter (fun u => eqb (update_invoice_number u) inv)
    (map (group_update timestamp) gs)
  = [group_update timestamp (inv, g)].
Proof.
  induction gs as [|[key g0] rest IH]; cbn [glookup map fst]; intros N L;
    [discriminate|].
  inversion N as [|x l Hn Hr]; subst. cbn [filter].
  change (update_invoice_number (group_update timestamp (key, g0)))
    with key.
  destruct (eqb key inv) eqn:K.
  - apply str_eqb_eq in K. subst key. injection L as <-. f_equal.
    apply filter_none. intros u Hu. apply in_map_iff in Hu.
    destruct Hu as [[k' g'] [<- Hin]]. cbn [group_update update_invoice_number].
    apply str_eqb_neq. intros ->.
    apply Hn. apply in_map_iff. exists (inv, g'). auto.
  - now apply IH.
Qed.

(** *** The indices of the hits *)

Lemma hit_indices_from (e : env) (po_map : po_map_t) (inv : str)
  (ps : list page) (page_num : Z) :
  let idx := map (fun h : Z * str * invoice_data => fst (fst h))
               (flat_map (hit_of e po_map inv) (numbered page_num ps)) in
  Forall (fun i => page_num - 1 <= i) idx /\ StronglySorted Z.lt idx.
Proof.
  revert page_num. induction ps as [|p ps IH]; intro k; cbn [numbered flat_map].
  - split; constructor.
  - destruct (IH (k + 1)) as [B S]. rewrite map_app.
    assert (B' : Forall (fun i => k - 1 <= i)
                   (map (fun h : Z * str * invoice_data => fst (fst h))
                      (flat_map (hit_of e po_map inv) (numbered (k + 1) ps)))).
    { eapply Forall_impl; [|exact B]. intros a Ha. cbn beta in Ha |- *. lia. }
    unfold hit_of at 1 3. cbn [fst snd].
    destruct (page_result e po_map p) as [[[n c m|po n c h]|]|];
      cbn [map app]; try (split; assumption).
    destruct (eqb n inv); cbn [map app fst]; [|split; assumption].
    split.
    + constructor; [lia | exact B'].
    + constructor; [exact S|].
      eapply Forall_impl; [|exact B]. intros a Ha. cbn beta in Ha |- *. lia.
Qed.

Lemma numbered_nth (ps : list page) (page_num : Z) (k : nat) (p : page) :
  nth_error ps k = Some p ->
  In (page_num + Z.of_nat k, p) (numbered page_num ps).
Proof.
  revert page_num k. induction ps as [|q ps IH]; intros n k H.
  - destruct k; discriminate.
  - destruct k as [|k]; cbn [nth_error numbered] in *.
    + injection H as <-. left. f_equal. lia.
    + right. replace (n + Z.of_nat (S k)) with (n + 1 + Z.of_nat k) by lia.
      now apply IH.
Qed.

Lemma hit_of_in (e : env) (po_map : po_map_t) (inv : str) (np : Z * page)
  (i : Z) (t : str) (d : invoice_data) :
  In (i, t, d) (hit_of e po_map inv np) <->
  i = fst np - 1 /\ t = page_text e (snd np)
  /\ page_result e po_map (snd np) = Returned (Some d)
  /\ exists po c h, d = Match po inv c h.
Proof.
  unfold hit_of.
  destruct (page_result e po_map (snd np)) as [[[n c m|po n c h]|]|];
    cbn [In].
  - split; [tauto|]. intros [_ [_ [E [po [c' [h E']]]]]]. congruence.
  - destruct (eqb n inv) eqn:K; cbn [In].
    + apply str_eqb_eq in K. subst n. split.
      * intros [E|[]]. injection E as <- <- <-. eauto 10.
      * intros [-> [-> [E _]]]. injection E as <-. now left.
    + apply str_eqb_neq in K. split; [tauto|].
      intros [_ [_ [E [po' [c' [h' E']]]]]]. congruence.
  - split; [tauto|]. intros [_ [_ [E _]]]. discriminate.
  - split; [tauto|]. intros [_ [_ [E _]]]. discriminate.
Qed.

Lemma numbered_in (ps : list page) (page_num n : Z) (p : page) :
  In (n, p) (numbered page_num ps) <->
  page_num <= n /\ nth_error ps (Z.to_nat (n - page_num)) = Some p.
Proof.
  revert page_num. induction ps as [|q ps IH]; intro k; cbn [numbered In].
  - split; [tauto|]. intros [_ H]. destruct (Z.to_nat _); discriminate.
  - rewrite IH. split.
    + intros [E|[L H]].
      * injection E as <- <-. split; [lia|]. now rewrite Z.sub_diag.
      * split; [lia|].
        replace (Z.to_nat (n - k)) with (S (Z.to_nat (n - (k + 1)))) by lia.
        exact H.
    + intros [L H]. destruct (Z.eq_dec n k) as [->|N].
      * left. rewrite Z.sub_diag in H. cbn in H. congruence.
      * right. split; [lia|].
        replace (Z.to_nat (n - k)) with (S (Z.to_nat (n - (k + 1)))) in H
          by lia.
        exact H.
Qed.

(** The hits for an invoice number are the pages matched under it. *)
Lemma page_hits_in (e : env) (po_map : po_map_t) (ps : list page)
  (inv : str) (i : Z) (t : str) (d : invoice_data) :
  In (i, t, d) (page_hits e po_map ps inv) <->
  exists p, 0 <= i /\ nth_error ps (Z.to_nat i) = Some p
            /\ t = page_text e p
            /\ page_result e po_map p = Returned (Some d)
            /\ exists po c h, d = Match po inv c h.
Proof.
  unfold page_hits. rewrite in_flat_map. split.
  - intros [[n p] [Hn Hh]]. apply hit_of_in in Hh. cbn [fst snd] in Hh.
    destruct Hh as [-> [-> [R M]]]. apply numbered_in in Hn.
    destruct Hn as [L Hn]. exists p. repeat split; auto; lia.
  - intros [p [L [Hn [-> [R M]]]]]. exists (i + 1, p). split.
    + apply numbered_in. split; [lia|].
      now replace (i + 1 - 1) with i by lia.
    + apply hit_of_in. cbn [fst snd]. repeat split; auto; lia.
Qed.



Lemma glookup_of_in (key : str) (g : group) (gs : groups_t) :
  NoDup (map fst gs) -> In (key, g) gs -> glookup key gs = Some g.
Proof.
  induction gs as [|[k0 g0] rest IH]; cbn [map fst In glookup]; intros N H;
    [contradiction|].
  inversion N as [|x l Hn Hr]; subst.
  destruct H as [E|H].
  - injection E as -> ->. now rewrite str_eqb_refl.
  - destruct (eqb k0 key) eqn:K.
    + apply str_eqb_eq in K. subst k0. exfalso. apply Hn.
      apply in_map_iff. exists (key, g). auto.
    + now apply IH.
Qed.

(** The pages of a group of a completed run are pages matched under its
    invoice number. *)
Lemma group_pages_matched (e : env) (timestamp : str) (po_map : po_map_t)
  (ps : list page) (st : page_loop) (key : str) (g : group) (i : Z) :
  process_pages e timestamp po_map 1 ps
    {| loop_results := {| success := true; processed := 0; matched := 0;
                          unmatched := []; errors := []; details := [] |};
       loop_groups := []; loop_documents := [] |} = (st, true) ->
  In (key, g) (loop_groups st) -> In i (pages g) ->
  exists p po c h,
    0 <= i /\ nth_error ps (Z.to_nat i) = Some p
    /\ page_result e po_map p = Returned (Some (Match po key c h)).
Proof.
  intros P Hin Hi.
  assert (N : NoDup (map fst (loop_groups st))).
  { apply (process_pages_nodup _ _ _ _ _ _ _ P). constructor. }
  pose proof (process_pages_groups _ _ _ key _ _ _ _ P) as G.
  rewrite (glookup_of_in _ _ _ N Hin) in G.
  fold (page_hits e po_map ps key) in G.
  cbn [loop_groups glookup] in G.
  destruct (page_hits e po_map ps key) as [|[[i0 t0] d0] more] eqn:H;
    [discriminate|].
  cbn [extended app] in G. injection G as ->. cbn [pages] in Hi.
  change (In i (map (fun h : Z * str * invoice_data => fst (fst h))
                  ((i0, t0, d0) :: more))) in Hi.
  apply in_map_iff in Hi. destruct Hi as [[[i1 t1] d1] [E Hh]].
  cbn [fst] in E. subst i1. rewrite <- H in Hh.
  apply page_hits_in in Hh.
  destruct Hh as [p [L [Hn [_ [R [po [c [h ->]]]]]]]]. eauto 10.
Qed.

Lemma extract_invoice_data_no_po (e : env) (text : str) (po_map : po_map_t)
  (inv cost message : str) :
  extract_invoice_data e text po_map = Returned (Some (NoPO inv cost message)) ->
  find_invoice_number text = Some inv
  /\ cost = find_total_cost cost_patterns text.
Proof.
  unfold extract_invoice_data.
  destruct (is_empty text); [discriminate|].
  destruct (find_invoice_number text) as [n|]; [|discriminate].
  destruct (fallback_chain _ _ _ _) as [st|]; [|discriminate].
  unfold final_result. destruct (fst st) as [po|].
  - destruct (po =? 0); [|discriminate].
    intro E. injection E as <- <- _. auto.
  - intro E. injection E as <- <- _. auto.
Qed.

Lemma process_pages_failure (e : env) (timestamp : str) (po_map : po_map_t)
  (ps : list page) (page_num : Z) (st st' : page_loop) :
  process_pages e timestamp po_map page_num ps st = (st', false) ->
  exists before p after st1,
    ps = before ++ p :: after
    /\ process_pages e timestamp po_map page_num before st = (st1, true)
    /\ page_result e po_map p = Raised
    /\ st' = {| loop_results := count_page (loop_results st1);
                loop_groups := loop_groups st1;
                loop_documents := loop_documents st1 |}.
Proof.
  revert page_num st. induction ps as [|p ps IH]; intros k st H;
    [discriminate|].
  cbn [process_pages] in H. unfold process_page in H.
  destruct (extract_invoice_data e (page_text e p) po_map) as [r|] eqn:E.
  - destruct (IH _ _ H) as (before & q & after & st1 & -> & B & R & S').
    exists (p :: before), q, after, st1. repeat split; try assumption.
    cbn [process_pages]. unfold process_page. rewrite E. exact B.
  - injection H as <-. exists [], p, ps, st. repeat split. exact E.
Qed.

Lemma process_pages_processed (e : env) (timestamp : str)
  (po_map : po_map_t) (ps : list page) (page_num : Z) (st st' : page_loop) :
  process_pages e timestamp po_map page_num ps st = (st', true) ->
  processed (loop_results st')
  = processed (loop_results st) + Z.of_nat (length ps).
Proof.
  revert page_num st. induction ps as [|p ps IH]; intros k st H.
  - injection H as <-. cbn. lia.
  - cbn [process_pages] in H. unfold process_page in H.
    destruct (extract_invoice_data e (page_text e p) po_map) as [r|];
      [|discriminate].
    rewrite (IH _ _ H).
    assert (C : processed (loop_results
                             (enter_page timestamp k (page_text e p) r st))
                = processed (loop_results st) + 1)
      by (destruct r as [[n c m|po n c h]|]; reflexivity).
    rewrite C. cbn [length]. lia.
Qed.

(** What the page loop has done when the run went past page [k]: it
    ended, or it stopped at a later page. *)
Lemma process_bulk_pdf_passed (e : env) (timestamp : str)
  (po_map : po_map_t) (ps : list page) (k : nat) (p : page) :
  let run := process_bulk_pdf e timestamp po_map ps in
  success (report run) = true \/ Z.of_nat k + 1 < processed (report run) ->
  nth_error ps k = Some p ->
  exists done st invoice_groups,
    nth_error done k = Some p
    /\ process_pages e timestamp po_map 1 done
         {| loop_results := {| success := true; processed := 0; matched := 0;
                               unmatched := []; errors := []; details := [] |};
            loop_groups := []; loop_documents := [] |} = (st, true)
    /\ incl invoice_groups (loop_groups st)
    /\ errors (report run) = flat_map (error_of e po_map) (numbered 1 done)
    /\ documents run
       = flat_map (page_document_of e timestamp po_map) (numbered 1 done)
         ++ map (group_document timestamp) invoice_groups
    /\ details (report run) = map (group_detail po_map) invoice_groups
    /\ incl (updates run) (map (group_update timestamp) invoice_groups)
    /\ (success (report run) = true ->
        updates run = map (group_update timestamp) invoice_groups).
Proof.
  intros run H Hk. subst run.
  destruct (success (report (process_bulk_pdf e timestamp po_map ps))) eqn:S.
  - destruct (process_bulk_pdf_success _ _ _ _ S) as [st [P [D [U [Dt Er]]]]].
    exists ps, st, (loop_groups st). rewrite U.
    repeat split; auto using incl_refl.
  - destruct H as [H|H]; [discriminate|].
    revert S H. unfold process_bulk_pdf.
    destruct (process_pages _ _ _ _ _ _) as [st' [|]] eqn:P.
    { destruct (process_pages_results _ _ _ _ _ _ _ P) as [_ [_ [_ S1]]].
      destruct (fold_add_detail (group_detail po_map) (loop_groups st')
                  (loop_results st')) as [_ [_ S2]].
      cbv zeta in S2. cbn [report]. rewrite S2, S1. discriminate. }
    apply process_pages_failure in P.
    destruct P as (before & q & after & st1 & E & B & R & ->).
    destruct (process_pages_results _ _ _ _ _ _ _ B) as [Er [D [Dt _]]].
    pose proof (process_pages_processed _ _ _ _ _ _ _ B) as N.
    cbn [report documents updates loop_results loop_documents failed
         count_page processed errors details app] in *.
    intros _ H. exists before, st1, [].
    rewrite Er, D, Dt, app_nil_r.
    repeat split; auto using incl_nil_l; try discriminate.
    rewrite E, nth_error_app1 in Hk by lia. exact Hk.
Qed.

(** C6 (amended): in a batch that completes, the pages matched under
    one invoice number make exactly one document, named after the PO of
    the first of them and the invoice number, holding their indices in
    ascending order, and no other document holds one of them; every page
    matched under that number is among them; and exactly one update is
    made for that invoice number, with the PO id, the cost and the name
    of the match method that [extract_invoice_data] returned for the
    first of the pages. *)
Theorem invoice_pages_grouped (e : env) (timestamp : str) (po_map : po_map_t)
  (batch_pages : list page) (inv : str)
  (i : Z) (t : str) (d : invoice_data) (more : list (Z * str * invoice_data)) :
  success (report (process_bulk_pdf e timestamp po_map batch_pages)) = true ->
  page_hits e po_map batch_pages inv = (i, t, d) :: more ->
  let run := process_bulk_pdf e timestamp po_map batch_pages in
  let indices := i :: map (fun h => fst (fst h)) more in
  exists po cost how,
    d = Match po inv cost (Some how)
    /\ (exists p, nth_error batch_pages (Z.to_nat i) = Some p
                  /\ page_result e po_map p
                     = Returned (Some (Match po inv cost (Some how))))
    /\ filter (fun doc => eqb (filename doc) (group_filename timestamp po inv))
         (documents run)
       = [{| filename := group_filename timestamp po inv;
             page_indices := indices |}]
    /\ (forall doc j,
          In doc (documents run) -> In j indices -> In j (page_indices doc) ->
          doc = {| filename := group_filename timestamp po inv;
                   page_indices := indices |})
    /\ StronglySorted Z.lt indices
    /\ (forall k p po' c h,
          nth_error batch_pages k = Some p ->
          page_result e po_map p = Returned (Some (Match po' inv c h)) ->
          In (Z.of_nat k) indices)
    /\ filter (fun u => eqb (update_invoice_number u) inv) (updates run)
       = [{| update_id := po;
             update_invoice_filename := group_filename timestamp po inv;
             update_invoice_number := inv;
             update_invoice_cost := cost;
             update_estimated_cost := Float.of_str cost;
             update_match_method := method_name how |}].
Proof.
  intros S H run indices.
  assert (First : exists p po cost how,
             d = Match po inv cost (Some how)
             /\ nth_error batch_pages (Z.to_nat i) = Some p
             /\ page_result e po_map p = Returned (Some d)).
  { assert (I : In (i, t, d) (page_hits e po_map batch_pages inv))
      by (rewrite H; now left).
    apply page_hits_in in I.
    destruct I as [p [_ [Hn [_ [R [po [c [h ->]]]]]]]].
    destruct (extract_invoice_data_ok _ _ _ _ _ _ _ R) as [_ [_ [m ->]]].
    eauto 10. }
  destruct First as (p0 & po & cost & how & -> & Hn0 & R0).
  exists po, cost, how. split; [reflexivity|]. split; [eauto|].
  destruct (process_bulk_pdf_success _ _ _ _ S) as [st [P [D [U _]]]].
  pose proof (process_pages_groups _ _ _ inv _ _ _ _ P) as G.
  fold (page_hits e po_map batch_pages inv) in G. rewrite H in G.
  cbn [loop_groups glookup extended app map fst snd] in G.
  assert (N : NoDup (map fst (loop_groups st))).
  { apply (process_pages_nodup _ _ _ _ _ _ _ P). constructor. }
  split; [|split; [|split; [|split]]].
  - subst run. rewrite D, filter_app, filter_page_documents.
    cbn [app].
    pose proof (filter_group_documents timestamp inv _ _ N G) as F.
    cbn [data] in F. exact F.
  - intros doc j Hd Hj Hjd.
    assert (Hit : exists p po c h,
               nth_error batch_pages (Z.to_nat j) = Some p /\ 0 <= j
               /\ page_result e po_map p = Returned (Some (Match po inv c h))).
    { change indices
        with (map (fun h : Z * str * invoice_data => fst (fst h))
                ((i, t, Match po inv cost (Some how)) :: more)) in Hj.
      apply in_map_iff in Hj. destruct Hj as [[[j' t'] d'] [E Hh]].
      cbn [fst] in E. subst j'. rewrite <- H in Hh. apply page_hits_in in Hh.
      destruct Hh as [p [L [Hn [_ [R [po1 [c [h ->]]]]]]]]. eauto 10. }
    destruct Hit as [p [po1 [c [h [Hn [L R]]]]]].
    subst run. rewrite D in Hd. apply in_app_or in Hd. destruct Hd as [Hd|Hd].
    + exfalso. apply in_flat_map in Hd. destruct Hd as [[n q] [Hq Hd]].
      pose proof (page_document_names _ _ _ _ _ Hd) as [_ Pi].
      cbn [fst] in Pi. rewrite Pi in Hjd. destruct Hjd as [Hjd|[]].
      apply numbered_in in Hq. destruct Hq as [_ Hq].
      rewrite Hjd in Hq. assert (q = p) by congruence. subst q.
      unfold page_document_of in Hd. cbn [snd] in Hd. rewrite R in Hd.
      exact Hd.
    + apply in_map_iff in Hd. destruct Hd as [[key g] [<- Hin]].
      cbn [group_document page_indices] in Hjd.
      destruct (group_pages_matched _ _ _ _ _ _ _ _ P Hin Hjd)
        as [p' [po' [c' [h' [_ [Hn' R']]]]]].
      assert (p' = p) by congruence. subst p'.
      assert (key = inv) by congruence. subst key.
      rewrite (glookup_of_in _ _ _ N Hin) in G. injection G as ->.
      reflexivity.
  - pose proof (proj2 (hit_indices_from e po_map inv batch_pages 1)) as Srt.
    fold (page_hits e po_map batch_pages inv) in Srt. now rewrite H in Srt.
  - intros k p po' c h Hk R.
    assert (I : In (Z.of_nat k, page_text e p, Match po' inv c h)
                  (page_hits e po_map batch_pages inv)).
    { apply page_hits_in. exists p. rewrite Nat2Z.id. repeat split; eauto; lia. }
    rewrite H in I. apply (in_map (fun h => fst (fst h))) in I. exact I.
  - subst run. rewrite U.
    rewrite (filter_group_updates timestamp inv _ _ N G). reflexivity.
Qed.

Lemma invoice_pages_grouped_witness :
  filter (fun doc => eqb (filename doc)
                       (lit "PO1012_20240101_120000_INV784512.pdf"))
    (documents (process_bulk_pdf no_assist sample_stamp somerville_po
                  sample_batch))
  = [{| filename := lit "PO1012_20240101_120000_INV784512.pdf";
        page_indices := [0; 4] |}].
Proof.
  assert (S : success (report (process_bulk_pdf no_assist sample_stamp
                                 somerville_po sample_batch)) = true)
    by (vm_compute; reflexivity).
  assert (H : page_hits no_assist somerville_po sample_batch (lit "784512")
              = [(0, invoice_784512,
                  Match 1012 (lit "784512") (lit "1234.50") (Some TableColumn));
                 (4, invoice_784512,
                  Match 1012 (lit "784512") (lit "1234.50") (Some TableColumn))])
    by (vm_compute; reflexivity).
  destruct (invoice_pages_grouped no_assist sample_stamp somerville_po
              sample_batch (lit "784512") _ _ _ _ S H)
    as (po & cost & how & E & _ & F & _).
  injection E as <- <- <-. exact F.
Defined.

(** C6 as stated fails for a batch that does not complete: the first
    page is matched under invoice number 784512, the engine raises on the
    second page, and the run ends without a document, an update or a
    detail for the first. *)
Lemma matched_page_lost_on_failure :
  page_hits no_assist bracket_pos interrupted_batch (lit "784512")
  = [(0, invoice_784512,
      Match 1012 (lit "784512") (lit "1234.50") (Some TableColumn))]
  /\ let run := process_bulk_pdf no_assist sample_stamp bracket_pos
                  interrupted_batch in
     success (report run) = false
     /\ documents run = []
     /\ updates run = []
     /\ details (report run) = [].
Proof. vm_compute. repeat split; reflexivity. Qed.

(** C8 (amended): when a batch completes, or has counted a page after
    page [k + 1], and [extract_invoice_data] returns the no-PO record for
    page [k + 1], then the record carries the invoice number the detector
    found and the cost the cost step found; the errors list holds the
    entry of the page with that number and cost, and no entry of the
    page with another number or cost; the error document of the page is
    written and is the only document that holds the page; and no group,
    from which details and updates are made, holds the page. *)
Theorem unresolved_pages_reported (e : env) (timestamp : str)
  (po_map : po_map_t) (batch_pages : list page) (k : nat) (p : page)
  (inv cost message : str) :
  let run := process_bulk_pdf e timestamp po_map batch_pages in
  let page_num := Z.of_nat k + 1 in
  success (report run) = true \/ page_num < processed (report run) ->
  nth_error batch_pages k = Some p ->
  page_result e po_map p = Returned (Some (NoPO inv cost message)) ->
  find_invoice_number (page_text e p) = Some inv
  /\ cost = find_total_cost cost_patterns (page_text e p)
  /\ In {| error_page := page_num;
           error_invoice_number := inv;
           error_cost := cost;
           error_error := lit "NO MATCHING PO FOUND";
           error_message := message;
           error_text_preview := slice_to (page_text e p) 300 |}
        (errors (report run))
  /\ (forall x, In x (errors (report run)) -> error_page x = page_num ->
                error_invoice_number x = inv /\ error_cost x = cost)
  /\ In {| filename := error_filename timestamp page_num inv;
           page_indices := [Z.of_nat k] |} (documents run)
  /\ (forall doc, In doc (documents run) ->
                  In (Z.of_nat k) (page_indices doc) ->
                  filename doc = error_filename timestamp page_num inv)
  /\ exists invoice_groups,
       details (report run) = map (group_detail po_map) invoice_groups
       /\ incl (updates run) (map (group_update timestamp) invoice_groups)
       /\ (success (report run) = true ->
           updates run = map (group_update timestamp) invoice_groups)
       /\ forall key g, In (key, g) invoice_groups ->
                        ~ In (Z.of_nat k) (pages g).
Proof.
  intros run page_num H Hk R.
  destruct (process_bulk_pdf_passed e timestamp po_map batch_pages k p H Hk)
    as (done & st & gs & Hd & P & Gs & Er & D & Dt & U & U').
  fold run in Er, D, Dt, U, U'.
  assert (NG : forall key g, In (key, g) gs -> ~ In (Z.of_nat k) (pages g)).
  { intros key g Hin Hi. apply Gs in Hin.
    destruct (group_pages_matched _ _ _ _ _ _ _ _ P Hin Hi)
      as [q [po [c [h [_ [Hn R']]]]]].
    rewrite Nat2Z.id in Hn. congruence. }
  pose proof (numbered_nth done 1 k p Hd) as Hnum.
  replace (1 + Z.of_nat k) with page_num in Hnum by (subst page_num; lia).
  unfold page_result in R.
  destruct (extract_invoice_data_no_po _ _ _ _ _ _ R) as [F C].
  split; [exact F|]. split; [exact C|].
  split; [|split; [|split; [|split]]].
  - rewrite Er. apply in_flat_map. exists (page_num, p).
    split; [exact Hnum|]. unfold error_of, page_result. cbn [fst snd].
    rewrite R. now left.
  - intros x Hx Px. rewrite Er in Hx. apply in_flat_map in Hx.
    destruct Hx as [[n q] [Hn Hx]]. unfold error_of in Hx. cbn [fst snd] in Hx.
    destruct (page_result e po_map q) as [[[n' c' m'|po n' c' h]|]|] eqn:Rq;
      try contradiction.
    destruct Hx as [<-|[]]. cbn [error_page] in Px. subst n.
    apply numbered_in in Hn. destruct Hn as [_ Hn].
    replace (Z.to_nat (page_num - 1)) with k in Hn by (subst page_num; lia).
    assert (q = p) by congruence. subst q.
    unfold page_result in Rq. rewrite R in Rq. injection Rq as <- <- <-.
    cbn. auto.
  - rewrite D. apply in_or_app. left. apply in_flat_map. exists (page_num, p).
    split; [exact Hnum|]. unfold page_document_of, page_result. cbn [fst snd].
    rewrite R. left. f_equal. f_equal. subst page_num. lia.
  - intros doc Hdoc Hi. rewrite D in Hdoc. apply in_app_or in Hdoc.
    destruct Hdoc as [Hdoc|Hdoc].
    + apply in_flat_map in Hdoc. destruct Hdoc as [[n q] [Hn Hdoc]].
      pose proof (page_document_names _ _ _ _ _ Hdoc) as [_ Pi].
      cbn [fst] in Pi. rewrite Pi in Hi. destruct Hi as [Hi|[]].
      apply numbered_in in Hn. destruct Hn as [_ Hn].
      replace (Z.to_nat (n - 1)) with k in Hn by lia.
      assert (q = p) by congruence. subst q.
      assert (n = page_num) by (subst page_num; lia). subst n.
      unfold page_document_of, page_result in Hdoc. cbn [fst snd] in Hdoc.
      rewrite R in Hdoc. destruct Hdoc as [<-|[]]. reflexivity.
    + apply in_map_iff in Hdoc. destruct Hdoc as [[key g] [<- Hin]].
      cbn [group_document page_indices] in Hi.
      exfalso. exact (NG key g Hin Hi).
  - exists gs. auto.
Qed.

Lemma unresolved_pages_reported_witness :
  In {| error_page := 3;
        error_invoice_number := lit "784514";
        error_cost := lit "80.00";
        error_error := lit "NO MATCHING PO FOUND";
        error_message :=
          lit "Invoice 784514 - PO already has invoice or not approved";
        error_text_preview := slice_to invoice_784514 300 |}
     (errors (report (process_bulk_pdf no_assist sample_stamp somerville_po
                        sample_batch))).
Proof.
  assert (S : success (report (process_bulk_pdf no_assist sample_stamp
                                 somerville_po sample_batch)) = true
              \/ Z.of_nat 2 + 1
                 < processed (report (process_bulk_pdf no_assist sample_stamp
                                        somerville_po sample_batch)))
    by (left; vm_compute; reflexivity).
  assert (N : nth_error sample_batch 2 = Some (page_of invoice_784514))
    by reflexivity.
  assert (R : page_result no_assist somerville_po (page_of invoice_784514)
              = Returned
                  (Some (NoPO (lit "784514") (lit "80.00")
                           (lit "Invoice 784514 - PO already has invoice or not approved"))))
    by (vm_compute; reflexivity).
  exact (proj1 (proj2 (proj2
           (unresolved_pages_reported no_assist sample_stamp somerville_po
              sample_batch 2 _ _ _ _ S N R)))).
Defined.

(** C8 as stated fails for a page after the one on which the engine
    raises: the detector finds an invoice number on the third page and
    no method finds a PO, yet the run ends at the second page; the page
    is not counted, and neither the errors list nor a document holds
    it. *)
Lemma unresolved_page_after_fault_unreported :
  nth_error interrupted_batch 2 = Some (page_of invoice_784514)
  /\ find_invoice_number (page_text no_assist (page_of invoice_784514))
     = Some (lit "784514")
  /\ page_result no_assist bracket_pos (page_of invoice_784514)
     = Returned
         (Some (NoPO (lit "784514") (lit "80.00")
                  (lit "Invoice 784514 - PO already has invoice or not approved")))
  /\ let run := process_bulk_pdf no_assist sample_stamp bracket_pos
                  interrupted_batch in
     success (report run) = false
     /\ processed (report run) = 2
     /\ errors (report run) = []
     /\ unmatched (report run) = []
     /\ details (report run) = []
     /\ documents run = [].
Proof. vm_compute. repeat split; reflexivity. Qed.

(** C2 at the failing input: two invoices of one batch name PO 1012;
    both groups are saved and both updates are made against PO 1012, the
    second overwriting the invoice of the first. *)
Theorem same_po_matched_twice :
  map (fun u => (update_id u, update_invoice_number u))
    (updates (process_bulk_pdf no_assist sample_stamp somerville_po
                [page_of invoice_784512; page_of invoice_784513]))
  = [(1012, lit "784512"); (1012, lit "784513")].
Proof. vm_compute. reflexivity. Qed.

(** C7 (amended): every update of a run carries the file name
    [PO], the PO id padded with zeros to four digits, [_], the time
    stamp, [_INV], the invoice number, [.pdf], and a document of that
    name was written; the job name plays no part.  The prefix [S] for a
    job named [service] in any case is what [format_po_number] adds;
    file names are not made with it. *)
Theorem group_document_named (e : env) (timestamp : str) (po_map : po_map_t)
  (batch_pages : list page) (u : po_update) :
  In u (updates (process_bulk_pdf e timestamp po_map batch_pages)) ->
  update_invoice_filename u
  = lit "PO" ++ format_04d (update_id u) ++ lit "_" ++ timestamp
    ++ lit "_INV" ++ update_invoice_number u ++ lit ".pdf"
  /\ (exists doc,
        In doc (documents (process_bulk_pdf e timestamp po_map batch_pages))
        /\ filename doc = update_invoice_filename u)
  /\ (forall po_id job_name,
        format_po_number po_id job_name
        = if eqb (lower job_name) (lit "service")
          then "S"%char :: format_04d po_id
          else format_04d po_id).
Proof.
  intro H. unfold process_bulk_pdf in *.
  destruct (process_pages _ _ _ _ _ _) as [st [|]]; cbn [updates documents] in *;
    [|contradiction].
  apply in_map_iff in H. destruct H as [[inv g] [<- Hin]].
  split; [reflexivity|]. split.
  - exists (group_document timestamp (inv, g)). split; [|reflexivity].
    apply in_or_app. right. now apply in_map.
  - intros po_id job_name. unfold format_po_number.
    destruct job_name; reflexivity.
Qed.

Lemma group_document_named_witness :
  lit "PO1012_20240101_120000_INV784512.pdf"
  = lit "PO" ++ format_04d 1012 ++ lit "_" ++ sample_stamp
    ++ lit "_INV" ++ lit "784512" ++ lit ".pdf".
Proof.
  assert (H : In {| update_id := 1012;
                    update_invoice_filename :=
                      lit "PO1012_20240101_120000_INV784512.pdf";
                    update_invoice_number := lit "784512";
                    update_invoice_cost := lit "1234.50";
                    update_estimated_cost := Float.of_str (lit "1234.50");
                    update_match_method := lit "Table Column" |}
                (updates (process_bulk_pdf no_assist sample_stamp service_po
                            [page_of invoice_784512])))
    by (vm_compute; left; reflexivity).
  exact (proj1 (group_document_named no_assist sample_stamp service_po
                  [page_of invoice_784512] _ H)).
Defined.

(** C7 as stated fails: PO 1012 belongs to the job Service, for which
    [format_po_number] gives [S1012]; the document of its invoice is named
    with [PO1012], and [S1012] is no part of the name. *)
Lemma service_po_filename :
  format_po_number 1012 (lit "Service") = lit "S1012"
  /\ map filename
       (documents (process_bulk_pdf no_assist sample_stamp service_po
                     [page_of invoice_784512]))
     = [lit "PO1012_20240101_120000_INV784512.pdf"]
  /\ contains (lit "S1012") (lit "PO1012_20240101_120000_INV784512.pdf")
     = false.
Proof. repeat split; vm_compute; reflexivity. Qed.

(** ** The cost extractor *)

Lemma digit_char_is_digit (d : Z) : 0 <= d < 10 -> is_digit (digit_char d) = true.
Proof.
  intro H.
  assert (C : d = 0 \/ d = 1 \/ d = 2 \/ d = 3 \/ d = 4 \/ d = 5 \/ d = 6
              \/ d = 7 \/ d = 8 \/ d = 9) by lia.
  repeat (destruct C as [->|C]; [reflexivity|]). subst. reflexivity.
Qed.

Lemma digits_of_pos_digits (fuel : nat) (n : Z) (acc : str) :
  forallb is_digit acc = true ->
  forallb is_digit (digits_of_pos fuel n acc) = true.
Proof.
  revert n acc. induction fuel as [|f IH]; intros n acc H; [exact H|].
  cbn [digits_of_pos].
  assert (H' : forallb is_digit (digit_char (n mod 10) :: acc) = true).
  { cbn [forallb]. rewrite H, digit_char_is_digit; [reflexivity|].
    apply Z.mod_pos_bound. lia. }
  destruct (n <? 10); [exact H' | now apply IH].
Qed.

Lemma digits_of_pos_not_nil (fuel : nat) (n : Z) (acc : str) :
  digits_of_pos (S fuel) n acc <> [].
Proof.
  revert n acc. induction fuel as [|f IH]; intros n acc.
  - cbn. destruct (n <? 10); discriminate.
  - change (digits_of_pos (S (S f)) n acc)
      with (if n <? 10 then digit_char (n mod 10) :: acc
            else digits_of_pos (S f) (n / 10) (digit_char (n mod 10) :: acc)).
    destruct (n <? 10); [discriminate | apply IH].
Qed.

Lemma digits_of_digits (n : Z) :
  forallb is_digit (digits_of n) = true /\ digits_of n <> [].
Proof.
  split; [now apply digits_of_pos_digits | apply digits_of_pos_not_nil].
Qed.

Lemma forallb_rev_digits (l : str) :
  forallb is_digit (rev l) = forallb is_digit l.
Proof.
  induction l as [|c l IH]; [reflexivity|]. cbn [rev forallb].
  rewrite forallb_app, IH. cbn [forallb]. rewrite andb_true_r. apply andb_comm.
Qed.

Lemma format_2f_abs_two_decimals (x : Q) :
  two_decimals (Float.format_2f_abs x) = true.
Proof.
  unfold Float.format_2f_abs, two_decimals, Float.two_digits.
  set (h := Float.rne _ _).
  destruct (digits_of_digits (h / 100)) as [D N].
  pose proof (Z.mod_pos_bound h 100 ltac:(lia)) as B.
  rewrite rev_app_distr. cbn [rev app].
  destruct (rev (digits_of (h / 100))) as [|u units] eqn:R.
  { apply (f_equal (@rev ascii)) in R. rewrite rev_involutive in R.
    contradiction. }
  cbn [app].
  rewrite !digit_char_is_digit.
  - cbn [andb eqb_char]. rewrite Ascii.eqb_refl. cbn [andb].
    rewrite <- R, forallb_rev_digits. exact D.
  - split; [apply Z.div_pos; lia | apply Z.div_lt_upper_bound; lia].
  - apply Z.mod_pos_bound. lia.
Qed.

Lemma decimal_nonneg (s : str) (num den : Z) (seen_point seen_digit : bool)
  (q : Q) :
  0 <= num -> Float.decimal num den seen_point seen_digit s = Some q ->
  0 <= Qnum q.
Proof.
  revert num den seen_point seen_digit.
  induction s as [|c s IH]; intros num den sp sd Hn; cbn [Float.decimal].
  - destruct sd; [|discriminate]. intro E. injection E as <-. exact Hn.
  - destruct (is_digit c) eqn:D.
    + apply IH. unfold is_digit, between in D.
      apply andb_true_iff in D. lia.
    + destruct (_ && _); [now apply IH | discriminate].
Qed.

(** An amount read by [float] is formatted with two decimal places,
    unless it overflowed. *)
Lemma format_2f_shape (s : str) (x : Float.t) :
  Float.of_str s = Some x ->
  Float.format_2f x = lit "inf" \/ two_decimals (Float.format_2f x) = true.
Proof.
  unfold Float.of_str. destruct (eqb s (lit "inf")).
  - intro E. injection E as <-. now left.
  - destruct (Float.decimal 0 1 false false s) as [q|] eqn:D; [|discriminate].
    cbn [option_map]. intro E. injection E as <-.
    unfold Float.of_Q. destruct (Float.leb _ _); [now left|]. right.
    cbn [Float.format_2f].
    assert (N : (0 <= Float.rnd q)%Q).
    { apply rnd_nonneg. apply decimal_nonneg in D; [|lia].
      unfold Qle. cbn. lia. }
    replace (Qnum (Float.rnd q) <? 0) with false.
    + apply format_2f_abs_two_decimals.
    + symmetry. apply Z.ltb_ge. unfold Qle in N. cbn in N. lia.
Qed.

Lemma find_total_cost_format (patterns : list Re.regex) (text : str) :
  find_total_cost patterns text = lit "inf"
  \/ two_decimals (find_total_cost patterns text) = true.
Proof.
  induction patterns as [|p ps IH]; cbn [find_total_cost].
  - right. reflexivity.
  - destruct (last_match _) as [m|]; [|exact IH].
    destruct (Float.of_str _) as [x|] eqn:F; [|exact IH].
    exact (format_2f_shape _ _ F).
Qed.

Lemma amounts_of_nil (pattern : Re.regex) (text : str) :
  amounts_of pattern text = [] ->
  last_match (Re.finditer true pattern text) = None.
Proof.
  unfold amounts_of, last_match. intro H. apply map_eq_nil in H.
  now rewrite H.
Qed.

Lemma last_match_amount (pattern : Re.regex) (text : str) (m : Re.matched) :
  last_match (Re.finditer true pattern text) = Some m ->
  amounts_of pattern text <> []
  /\ last (amounts_of pattern text) [] = Re.group 1 m.
Proof.
  unfold last_match, amounts_of. intro H.
  destruct (Re.finditer true pattern text) as [|m0 ms] eqn:E using rev_ind.
  - discriminate.
  - rewrite rev_app_distr in H. cbn in H. injection H as ->.
    rewrite map_app. cbn [map]. split.
    + intro N. apply app_eq_nil in N. destruct N as [_ N]. discriminate.
    + apply last_last.
Qed.

(** The labels are tried in their order, and the last amount of the
    first label found is the one that is formatted. *)
Lemma find_total_cost_labels (before after : list Re.regex) (p : Re.regex)
  (text : str) (m : Re.matched) (x : Float.t) :
  (forall q, In q before -> amounts_of q text = []) ->
  last_match (Re.finditer true p text) = Some m ->
  Float.of_str (replace "," [] (Re.group 1 m)) = Some x ->
  find_total_cost (before ++ p :: after) text = Float.format_2f x.
Proof.
  intros B L F. induction before as [|q before IH]; cbn [app find_total_cost].
  - now rewrite L, F.
  - rewrite (amounts_of_nil q text (B q (or_introl eq_refl))).
    apply IH. intros r Hr. apply B. now right.
Qed.

Lemma find_total_cost_default (patterns : list Re.regex) (text : str) :
  (forall q, In q patterns -> amounts_of q text = []) ->
  find_total_cost patterns text = lit "0.00".
Proof.
  induction patterns as [|q ps IH]; intro B; cbn [find_total_cost];
    [reflexivity|].
  rewrite (amounts_of_nil q text (B q (or_introl eq_refl))).
  apply IH. intros r Hr. apply B. now right.
Qed.

(** C5 at the failing input: a total of 309 digits is beyond the range
    of a float; [float] gives infinity and the cost returned is the text
    [inf], which has no decimal places. *)
Theorem find_total_cost_overflow :
  find_total_cost cost_patterns invoice_huge_total = lit "inf"
  /\ two_decimals (find_total_cost cost_patterns invoice_huge_total) = false
  /\ extract_invoice_data no_assist invoice_huge_total somerville_po
     = Returned
         (Some (NoPO (lit "784515") (lit "inf")
                  (lit "Invoice 784515 - PO already has invoice or not approved"))).
Proof. repeat split; vm_compute; reflexivity. Qed.

(** The extractor on ordinary pages: the last amount after the first
    label found, the thousands separators dropped. *)
Example last_total_wins :
  find_total_cost cost_patterns
    (lit "Subtotal: $1,000.00  Amount Due: $9.99  TOTAL $ 1,234.50")
  = lit "1234.50".
Proof. vm_compute. reflexivity. Qed.

Example amount_due_without_total :
  find_total_cost cost_patterns (lit "Amount Due: $80.00  Grand sum 3.00")
  = lit "80.00".
Proof. vm_compute. reflexivity. Qed.

Example no_label_no_cost :
  find_total_cost cost_patterns (lit "paid in full") = lit "0.00".
Proof. vm_compute. reflexivity. Qed.

(** * Further properties *)

Lemma len_cons (x : ascii) (a : str) : len (x :: a) = len a + 1.
Proof. unfold len. cbn [length]. lia. Qed.

Lemma len_nonneg (a : str) : 0 <= len a.
Proof. unfold len. lia. Qed.

Lemma dist_upper (a b : str) : dist a b <= Z.max (len a) (len b).
Proof.
  revert b. induction a as [|x a IHa]; intro b.
  - rewrite dist_nil_l. lia.
  - destruct b as [|y b].
    + rewrite dist_nil_r. lia.
    + rewrite dist_cons, !len_cons. pose proof (IHa b).
      destruct (eqb_char x y); lia.
Qed.

Lemma dist_lower (a b : str) : Z.abs (len a - len b) <= dist a b.
Proof.
  revert b. induction a as [|x a IHa]; intro b.
  - rewrite dist_nil_l. pose proof (len_nonneg b). unfold len at 1. cbn. lia.
  - induction b as [|y b IHb].
    + rewrite dist_nil_r. pose proof (len_nonneg (x :: a)). unfold len at 2. cbn. lia.
    + rewrite dist_cons. pose proof (IHa (y :: b)). pose proof (IHa b).
      rewrite !len_cons in *.
      destruct (eqb_char x y); lia.
Qed.

Lemma dist_refl (a : str) : dist a a = 0.
Proof.
  induction a as [|x a IH]; [reflexivity|].
  rewrite dist_cons. unfold eqb_char. rewrite Ascii.eqb_refl.
  pose proof (dist_nonneg a (x :: a)). pose proof (dist_nonneg (x :: a) a). lia.
Qed.

Lemma dist_zero (a b : str) : dist a b = 0 -> a = b.
Proof.
  revert b. induction a as [|x a IHa]; intro b.
  - rewrite dist_nil_l. destruct b; [reflexivity|]. rewrite len_cons.
    pose proof (len_nonneg b). lia.
  - destruct b as [|y b].
    + rewrite dist_nil_r, len_cons. pose proof (len_nonneg a). lia.
    + rewrite dist_cons.
      pose proof (dist_nonneg a (y :: b)). pose proof (dist_nonneg (x :: a) b).
      pose proof (dist_nonneg a b).
      unfold eqb_char. destruct (Ascii.eqb x y) eqn:E; [|lia].
      apply Ascii.eqb_eq in E. subst y. intro H2. f_equal. apply IHa. lia.
Qed.

Lemma rev_inj {A} (a b : list A) : rev a = rev b -> a = b.
Proof. intro H. rewrite <- (rev_involutive a), H. apply rev_involutive. Qed.

(** X2: the distance of two texts is at least the difference of their
    lengths and at most the length of the longer one. *)
Theorem levenshtein_distance_bounds (s1 s2 : str) :
  Z.abs (len s1 - len s2) <= levenshtein_distance s1 s2
  <= Z.max (len s1) (len s2).
Proof.
  rewrite levenshtein_distance_dist.
  pose proof (dist_lower (rev s1) (rev s2)) as L.
  pose proof (dist_upper (rev s1) (rev s2)) as U.
  unfold len in *. rewrite !length_rev in *. lia.
Qed.

Lemma dist_triangle_aux (n : nat) : forall a b c : str,
  (length a + length b + length c <= n)%nat ->
  dist a c <= dist a b + dist b c.
Proof.
  induction n as [|n IH]; intros a b c L.
  - destruct a, b, c; cbn in L; try lia. cbn. lia.
  - destruct a as [|x a].
    + rewrite !dist_nil_l. pose proof (dist_lower b c). lia.
    + destruct c as [|z c].
      * rewrite !dist_nil_r. pose proof (dist_lower (x :: a) b). lia.
      * destruct b as [|y b].
        { rewrite dist_nil_r, dist_nil_l.
          pose proof (dist_upper (x :: a) (z :: c)).
          pose proof (len_nonneg (x :: a)). pose proof (len_nonneg (z :: c)). lia. }
        cbn [length] in L.
        pose proof (IH a (y :: b) (z :: c)) as H1.
        pose proof (IH (x :: a) (y :: b) c) as H2.
        pose proof (IH (x :: a) b (z :: c)) as H3.
        pose proof (IH (x :: a) b c) as H4.
        pose proof (IH a b (z :: c)) as H5.
        pose proof (IH a b c) as H6.
        cbn [length] in H1, H2, H3, H4, H5, H6.
        specialize (H1 ltac:(lia)). specialize (H2 ltac:(lia)).
        specialize (H3 ltac:(lia)). specialize (H4 ltac:(lia)).
        specialize (H5 ltac:(lia)). specialize (H6 ltac:(lia)).
        pose proof (dist_cons x z a c) as Dac.
        pose proof (dist_cons x y a b) as Dab.
        pose proof (dist_cons y z b c) as Dbc.
        assert (T : (if eqb_char x z then 0 else 1)
                    <= (if eqb_char x y then 0 else 1)
                       + (if eqb_char y z then 0 else 1)).
        { unfold eqb_char.
          destruct (Ascii.eqb x y) eqn:E1; destruct (Ascii.eqb y z) eqn:E2;
            destruct (Ascii.eqb x z) eqn:E3; try lia.
          apply Ascii.eqb_eq in E1, E2. subst. rewrite Ascii.eqb_refl in E3.
          discriminate. }
        assert (0 <= (if eqb_char x y then 0 else 1)) by (destruct (eqb_char x y); lia).
        assert (0 <= (if eqb_char y z then 0 else 1)) by (destruct (eqb_char y z); lia).
        lia.
Qed.

Lemma dist_triangle (a b c : str) : dist a c <= dist a b + dist b c.
Proof. apply (dist_triangle_aux (length a + length b + length c)). lia. Qed.

(** X1: [levenshtein_distance] is a metric on texts: it is zero exactly
    on equal texts, symmetric, and satisfies the triangle inequality. *)
Theorem levenshtein_distance_metric (s1 s2 s3 : str) :
  (levenshtein_distance s1 s2 = 0 <-> s1 = s2)
  /\ levenshtein_distance s1 s2 = levenshtein_distance s2 s1
  /\ levenshtein_distance s1 s3
     <= levenshtein_distance s1 s2 + levenshtein_distance s2 s3.
Proof.
  rewrite !levenshtein_distance_dist.
  split; [|split].
  - split; [intro H; apply rev_inj, dist_zero, H | intros ->; apply dist_refl].
  - apply dist_sym.
  - apply dist_triangle.
Qed.

Lemma upper_char_idem (c : ascii) :
  is_ascii c = true -> upper_char (upper_char c) = upper_char c.
Proof. destruct c as [[] [] [] [] [] [] [] []]; reflexivity. Qed.

Lemma upper_lower_char (c : ascii) :
  is_ascii c = true -> upper_char (lower_char c) = upper_char c.
Proof. destruct c as [[] [] [] [] [] [] [] []]; reflexivity. Qed.

Lemma map_ext_forallb {A B} (f g : A -> B) (ok : A -> bool) (l : list A) :
  (forall x, ok x = true -> f x = g x) ->
  forallb ok l = true -> map f l = map g l.
Proof.
  intros H. induction l as [|x l IH]; [reflexivity|]. cbn [forallb map].
  intro E. apply andb_true_iff in E. destruct E as [E1 E2].
  now rewrite (H x E1), (IH E2).
Qed.

Lemma upper_idem (s : str) :
  ascii_text s = true -> upper (upper s) = upper s.
Proof.
  intro H. unfold upper. rewrite map_map.
  exact (map_ext_forallb _ _ is_ascii s upper_char_idem H).
Qed.

Lemma upper_lower (s : str) :
  ascii_text s = true -> upper (lower s) = upper s.
Proof.
  intro H. unfold upper, lower. rewrite map_map.
  exact (map_ext_forallb _ _ is_ascii s upper_lower_char H).
Qed.

Lemma is_empty_map {A B} (f : A -> B) (s : list A) :
  is_empty (map f s) = is_empty s.
Proof. destruct s; reflexivity. Qed.

Lemma normalize_upper (s : str) :
  ascii_text s = true ->
  normalize_text_for_matching (upper s) = normalize_text_for_matching s.
Proof.
  intro H. unfold normalize_text_for_matching. unfold upper at 1.
  rewrite is_empty_map. fold (upper s). now rewrite upper_idem.
Qed.

Lemma normalize_lower (s : str) :
  ascii_text s = true ->
  normalize_text_for_matching (lower s) = normalize_text_for_matching s.
Proof.
  intro H. unfold normalize_text_for_matching. unfold lower at 1.
  rewrite is_empty_map. fold (lower s). now rewrite upper_lower.
Qed.

Lemma fuzzy_match_score_normalized (a a' b : str) :
  is_empty a = is_empty a' ->
  normalize_text_for_matching a = normalize_text_for_matching a' ->
  fuzzy_match_score a b = fuzzy_match_score a' b.
Proof. intros E N. unfold fuzzy_match_score. now rewrite E, N. Qed.

(** X3: on texts of ASCII characters [fuzzy_match_score] does not depend
    on the letter case of either text. *)
Theorem fuzzy_match_score_ignores_case (a b : str) :
  ascii_text a = true -> ascii_text b = true ->
  fuzzy_match_score (upper a) b = fuzzy_match_score a b
  /\ fuzzy_match_score (lower a) b = fuzzy_match_score a b
  /\ fuzzy_match_score a (upper b) = fuzzy_match_score a b
  /\ fuzzy_match_score a (lower b) = fuzzy_match_score a b.
Proof.
  intros Ha Hb.
  assert (L : forall x y,
             ascii_text x = true ->
             fuzzy_match_score (upper x) y = fuzzy_match_score x y
             /\ fuzzy_match_score (lower x) y = fuzzy_match_score x y).
  { intros x y Hx. split; apply fuzzy_match_score_normalized;
      try apply is_empty_map;
      [now apply normalize_upper | now apply normalize_lower]. }
  destruct (L a b Ha) as [U1 L1]. destruct (L b a Hb) as [U2 L2].
  repeat split; try assumption.
  - rewrite (fuzzy_match_score_sym a (upper b)), U2. apply fuzzy_match_score_sym.
  - rewrite (fuzzy_match_score_sym a (lower b)), L2. apply fuzzy_match_score_sym.
Qed.

Lemma fuzzy_match_score_ignores_case_witness :
  fuzzy_match_score (upper (lit "Herons Glen")) (lit "herons geln")
  = fuzzy_match_score (lit "Herons Glen") (lit "herons geln").
Proof.
  exact (proj1 (fuzzy_match_score_ignores_case (lit "Herons Glen")
                  (lit "herons geln") eq_refl eq_refl)).
Defined.

Lemma startswith_app (p v : str) : startswith p (p ++ v) = true.
Proof.
  induction p as [|x p IH]; [destruct v; reflexivity|].
  cbn. unfold eqb_char. now rewrite Ascii.eqb_refl.
Qed.

Lemma find_from_range (p s : str) (i : Z) :
  find_from i p s = -1 \/ i <= find_from i p s <= i + len s.
Proof.
  revert i. induction s as [|c s IH]; intro i; cbn [find_from].
  - destruct (startswith p []); [right; unfold len; cbn; lia | now left].
  - destruct (startswith p (c :: s)).
    + right. unfold len. lia.
    + destruct (IH (i + 1)) as [H|H]; [now left|right].
      unfold len in *. cbn [length]. lia.
Qed.

Lemma find_from_occurs (u p v : str) (i : Z) :
  0 <= i -> 0 <= find_from i p (u ++ p ++ v).
Proof.
  revert i. induction u as [|c u IH]; intros i Hi.
  - cbn [app]. destruct (p ++ v) eqn:E.
    + cbn. destruct (startswith p []) eqn:S; [lia|].
      rewrite <- E, startswith_app in S. discriminate.
    + cbn [find_from]. rewrite <- E, startswith_app. lia.
  - cbn [app find_from]. destruct (startswith p _); [lia|]. apply IH. lia.
Qed.

Lemma find_range (p s : str) : find p s = -1 \/ 0 <= find p s <= len s.
Proof. apply (find_from_range p s 0). Qed.

Lemma split_ws_aux_occurs (s cur w : str) :
  In w (split_ws_aux cur s) -> exists u v, rev cur ++ s = u ++ w ++ v.
Proof.
  revert cur. induction s as [|c s IH]; intros cur H; cbn [split_ws_aux] in H.
  - destruct cur as [|x cur]; [contradiction|]. destruct H as [<-|[]].
    exists [], []. now rewrite app_nil_r.
  - destruct (is_space c).
    + destruct cur as [|x cur].
      * destruct (IH [] H) as (u & v & E). cbn in E. exists (c :: u), v.
        cbn. now rewrite E.
      * destruct H as [<-|H].
        { exists [], (c :: s). reflexivity. }
        destruct (IH [] H) as (u & v & E). cbn in E.
        exists (rev (x :: cur) ++ c :: u), v. rewrite E, <- app_assoc. reflexivity.
    + destruct (IH (c :: cur) H) as (u & v & E). exists u, v.
      rewrite <- E. cbn [rev]. rewrite <- app_assoc. reflexivity.
Qed.

Lemma find_word (s w : str) : In w (split_ws s) -> 0 <= find w s.
Proof.
  intro H. apply split_ws_aux_occurs in H. destruct H as (u & v & E).
  cbn in E. rewrite E. apply find_from_occurs. lia.
Qed.

Lemma in_firstn {A} (n : nat) (l : list A) (x : A) : In x (firstn n l) -> In x l.
Proof. intro H. rewrite <- (firstn_skipn n l). apply in_or_app. now left. Qed.

Lemma in_skipn {A} (n : nat) (l : list A) (x : A) : In x (skipn n l) -> In x l.
Proof. intro H. rewrite <- (firstn_skipn n l). apply in_or_app. now right. Qed.

Lemma hd_window (words : list str) (i size : Z) :
  hd [] (window words i size) = [] \/ In (hd [] (window words i size)) words.
Proof.
  unfold window. destruct (firstn _ _) as [|w l] eqn:E; [now left|right].
  cbn. assert (I : In w (w :: l)) by now left. rewrite <- E in I.
  apply in_firstn, in_skipn in I. exact I.
Qed.

Lemma find_nil (s : str) : find [] s = 0.
Proof. destruct s; reflexivity. Qed.

Lemma fold_left_invariant {A B} (P : A -> Prop) (f : A -> B -> A) (l : list B) :
  (forall acc x, In x l -> P acc -> P (f acc x)) ->
  forall init, P init -> P (fold_left f l init).
Proof.
  induction l as [|x l IH]; intros F init H; [exact H|].
  cbn. apply IH; [intros; apply F; [now right|assumption]|].
  apply F; [now left | exact H].
Qed.

(** On a text of ASCII characters [upper] keeps the length. *)
Lemma len_upper (s : str) : ascii_text s = true -> len (upper s) = len s.
Proof. intros _. unfold len, upper. now rewrite length_map. Qed.

Lemma len_replace_nil (c : ascii) (s : str) : len (replace c [] s) <= len s.
Proof.
  unfold len, replace. induction s as [|x s IH]; [cbn; lia|].
  cbn [flat_map]. rewrite length_app. cbn [length].
  destruct (eqb_char x c); cbn [length]; lia.
Qed.

Lemma float_ltb_lt (x y : Q) : Float.ltb x y = true <-> (x < y)%Q.
Proof.
  unfold Float.ltb. rewrite negb_true_iff. split.
  - intro H. apply Qnot_le_lt. intro L. apply Qle_bool_iff in L. congruence.
  - intro H. destruct (Qle_bool y x) eqn:E; [|reflexivity].
    apply Qle_bool_iff in E. exfalso. exact (Qlt_not_le _ _ H E).
Qed.

Lemma float_leb_false (x y : Q) : Float.leb x y = false <-> (y < x)%Q.
Proof.
  unfold Float.leb. split.
  - intro H. apply Qnot_le_lt. intro L. apply Qle_bool_iff in L. congruence.
  - intro H. destruct (Qle_bool x y) eqn:E; [|reflexivity].
    apply Qle_bool_iff in E. exfalso. exact (Qlt_not_le _ _ H E).
Qed.

(** X4: on a text and a job name of ASCII characters and for a positive
    threshold the answer of [find_job_name_in_text] is consistent: its
    score lies between 0 and 1; a hit has a position inside the text, a
    matched text, and a score of at least the threshold or at least
    0.98; a miss has position -1, no matched text and a score under the
    threshold. *)
Theorem find_job_name_in_text_answer (text job_name : str) (threshold : Q) :
  ascii_text text = true ->
  ascii_text job_name = true ->
  (0 < threshold)%Q ->
  let hit := find_job_name_in_text text job_name threshold in
  (0 <= score hit <= 1)%Q
  /\ (found hit = true ->
      0 <= position hit <= len text
      /\ matched_text hit <> None
      /\ ((threshold <= score hit)%Q
          \/ (Float.literal 98 100 <= score hit)%Q))
  /\ (found hit = false ->
      position hit = -1 /\ matched_text hit = None
      /\ (score hit < threshold)%Q).
Proof.
  intros At _ T hit. subst hit. unfold find_job_name_in_text.
  destruct (is_empty text || is_empty job_name).
  { cbn. repeat split; try discriminate; assumption. }
  set (text_upper := upper text).
  set (job_upper := strip (upper job_name)).
  set (job_no_spaces := replace "_" [] (replace "-" [] (replace " " [] job_upper))).
  destruct (contains _ (normalize_text_for_matching text)).
  { cbn [found position matched_text score].
    split; [split; discriminate|]. split; [|discriminate]. intros _.
    split; [|split; [discriminate | right; vm_compute; discriminate]].
    assert (B : forall p s, -1 <= find p s <= len s).
    { intros p s. destruct (find_range p s); unfold len in *; lia. }
    pose proof (B job_upper text_upper) as B1.
    pose proof (B job_no_spaces (replace " " [] text_upper)) as B2.
    pose proof (len_replace_nil " " text_upper) as B3.
    unfold text_upper in B1, B3. rewrite (len_upper text At) in B1, B3.
    fold text_upper in B1, B3.
    destruct (find job_upper text_upper =? -1) eqn:E;
      match goal with |- context [if 0 <=? ?x then _ else _] =>
        destruct (0 <=? x) eqn:E2 end; unfold len in *; lia. }
  destruct (contains job_no_spaces (replace " " [] text_upper)) eqn:C.
  { cbn [found position matched_text score].
    split; [split; vm_compute; discriminate|]. split; [|discriminate]. intros _.
    split; [|split; [discriminate | right; apply Qle_refl]].
    unfold contains in C.
    destruct (find_range job_no_spaces (replace " " [] text_upper)) as [H|H];
      [lia|].
    pose proof (len_replace_nil " " text_upper) as B3.
    unfold text_upper in B3 at 2. rewrite (len_upper text At) in B3. lia. }
  match goal with |- context [fold_left ?f ?l ?i] =>
    set (visit := f); set (windows := l);
    assert (I : (fun best : Q * Z * option str =>
                   let '(s, p, m) := best in
                   (0 <= s <= 1)%Q
                   /\ ((s == 0)%Q /\ p = -1 /\ m = None
                       \/ (threshold <= s)%Q /\ 0 <= p <= len text /\ m <> None))
                  (fold_left visit windows i))
  end.
  { apply fold_left_invariant.
    - intros [[s p] m] x Hin [R H]. unfold visit.
      destruct (Float.ltb _ _); [now split|].
      destruct (Float.ltb s _ && Float.leb threshold _) eqn:U; [|now split].
      apply andb_true_iff in U. destruct U as [_ U]. apply float_leb_le in U.
      split; [apply fuzzy_match_score_range|]. right.
      split; [exact U|]. split; [|discriminate].
      assert (W : hd [] x = [] \/ In (hd [] x) (split_ws text_upper)).
      { unfold windows in Hin. apply in_flat_map in Hin.
        destruct Hin as (size & _ & Hin). apply in_map_iff in Hin.
        destruct Hin as (i & <- & _). apply hd_window. }
      destruct (find_range (hd [] x) text_upper) as [F|F].
      + destruct W as [W|W]; [rewrite W, find_nil in F; lia|].
        apply find_word in W. lia.
      + unfold text_upper in F at 3. rewrite (len_upper text At) in F. lia.
    - split; [split; discriminate|]. left. repeat split. }
  cbv beta in I.
  destruct (fold_left visit windows _) as [[s p] m].
  destruct I as [R I].
  destruct (Float.leb threshold s) eqn:L; cbn [found position matched_text score].
  - split; [exact R|]. split; [|discriminate]. intros _.
    destruct I as [[Z0 _]|[Ts [Hp Hm]]].
    + apply float_leb_le in L. rewrite Z0 in L.
      exfalso. exact (Qlt_not_le _ _ T L).
    + repeat split; try lia; try assumption. now left.
  - split; [exact R|]. split; [discriminate|]. intros _.
    repeat split. now apply float_leb_false.
Qed.

Lemma find_job_name_in_text_answer_witness :
  let hit := find_job_name_in_text (lit "Deliver to HERONS GELN site")
               (lit "Herons Glen") (Float.literal 75 100) in
  found hit = true /\ 0 <= position hit <= 27.
Proof.
  pose proof (find_job_name_in_text_answer (lit "Deliver to HERONS GELN site")
                (lit "Herons Glen") (Float.literal 75 100)) as H.
  cbv zeta in H.
  specialize (H eq_refl eq_refl ltac:(vm_compute; reflexivity)).
  destruct H as [_ [H _]].
  assert (F : found (find_job_name_in_text (lit "Deliver to HERONS GELN site")
                (lit "Herons Glen") (Float.literal 75 100)) = true)
    by (vm_compute; reflexivity).
  split; [exact F|]. exact (proj1 (H F)).
Defined.

Lemma parse_quant_literal (c : ascii) (s : str) :
  literal_char c = true -> Re.parse_quant (c :: s) = None.
Proof.
  intro P. destruct c as [[] [] [] [] [] [] [] []]; try discriminate P;
    reflexivity.
Qed.

Lemma parse_quant_literals (w rest : str) :
  forallb literal_char w = true -> Re.parse_quant rest = None ->
  Re.parse_quant (w ++ rest) = None.
Proof.
  destruct w as [|c w]; [auto|]. cbn [forallb app]. intros H _.
  apply andb_true_iff in H. now apply parse_quant_literal.
Qed.

Lemma quantify_none (r : Re.regex) (s : str) :
  Re.parse_quant s = None -> Re.quantify r s = Some (r, s).
Proof. intro H. unfold Re.quantify. now rewrite H. Qed.

Lemma parse_atom_literal (f : nat) (c : ascii) (s : str) (g : nat) :
  literal_char c = true -> Re.parse_quant s = None ->
  Re.parse_atom (S f) (c :: s) g = Some (Re.Chars false [Re.One c], s, g).
Proof.
  intros P Q.
  destruct c as [[] [] [] [] [] [] [] []]; try discriminate P;
    cbn [Re.parse_atom]; rewrite (quantify_none _ _ Q); reflexivity.
Qed.

Lemma parse_seq_step (f : nat) (c : ascii) (s : str) (g : nat) :
  eqb_char c "|" || eqb_char c ")" = false ->
  Re.parse_seq (S f) (c :: s) g
  = match Re.parse_atom f (c :: s) g with
    | Some (r, s1, g1) =>
        match Re.parse_seq f s1 g1 with
        | Some (r2, s2, g2) => Some (Re.cat r r2, s2, g2)
        | None => None
        end
    | None => None
    end.
Proof. intro H. cbn [Re.parse_seq]. rewrite H. reflexivity. Qed.

Lemma literal_not_bar (c : ascii) :
  literal_char c = true -> eqb_char c "|" || eqb_char c ")" = false.
Proof.
  intro P. destruct c as [[] [] [] [] [] [] [] []]; try discriminate P;
    reflexivity.
Qed.

Lemma parse_seq_literals (w : str) :
  forallb literal_char w = true ->
  forall (f : nat) (rest : str) (g : nat) r2 s2 g2,
    Re.parse_quant rest = None ->
    Re.parse_seq (S f) rest g = Some (r2, s2, g2) ->
    exists r, Re.parse_seq (length w + S f) (w ++ rest) g = Some (r, s2, g2).
Proof.
  induction w as [|c w IH]; intros P f rest g r2 s2 g2 Q H.
  - exists r2. exact H.
  - cbn [forallb] in P. apply andb_true_iff in P. destruct P as [Pc Pw].
    destruct (IH Pw f rest g r2 s2 g2 Q H) as [r E].
    exists (Re.cat (Re.Chars false [Re.One c]) r).
    cbn [length app Nat.add].
    rewrite parse_seq_step by now apply literal_not_bar.
    replace (length w + S f)%nat with (S (length w + f))%nat in * by lia.
    rewrite parse_atom_literal;
      [|exact Pc | now apply parse_quant_literals].
    now rewrite E.
Qed.

Lemma quantify_star (r : Re.regex) (s : str) :
  Re.is_assertion r = false ->
  s = [] \/ (exists c s', s = c :: s' /\ literal_char c = true) ->
  Re.quantify r ("*"%char :: s) = Some (Re.Repeat 0 None true r, s).
Proof.
  intros A [->|(c & s' & -> & P)].
  - unfold Re.quantify. cbn. rewrite A. reflexivity.
  - unfold Re.quantify. cbn [Re.parse_quant]. rewrite A.
    destruct c as [[] [] [] [] [] [] [] []]; try discriminate P; reflexivity.
Qed.

Lemma literals_head (w : str) :
  forallb literal_char w = true ->
  w = [] \/ (exists c s', w = c :: s' /\ literal_char c = true).
Proof.
  destruct w as [|c w]; [now left|]. cbn [forallb]. intro H.
  apply andb_true_iff in H. right. exists c, w. tauto.
Qed.

Lemma parse_seq_nil (f g : nat) : Re.parse_seq (S f) [] g = Some (Re.Empty, [], g).
Proof. reflexivity. Qed.

(** The pattern [po_str + r'\s*' + job_name_no_spaces] of Direct Search
    compiles when both texts are made of literal characters. *)
Lemma compile_concat_pattern (po_str job : str) :
  forallb literal_char po_str = true ->
  forallb literal_char job = true ->
  exists r, Re.compile (po_str ++ lit "\s*" ++ job) = Some r.
Proof.
  intros P J. unfold Re.compile.
  set (pattern := po_str ++ lit "\s*" ++ job).
  assert (L : (4 * length pattern + 4
               = S (length po_str + S (S (length job + S (3 * length po_str + 3 * length job + 12)))))%nat).
  { unfold pattern. rewrite !length_app. cbn [length lit list_ascii_of_string]. lia. }
  rewrite L. clear L. set (f := (3 * length po_str + 3 * length job + 12)%nat).
  assert (E1 : exists r, Re.parse_seq (length job + S f) job O = Some (r, [], O)).
  { destruct (parse_seq_literals job J f [] O Re.Empty [] O eq_refl
                (parse_seq_nil f O)) as [r E].
    rewrite app_nil_r in E. eauto. }
  destruct E1 as [r1 E1].
  assert (E2 : exists r, Re.parse_seq (S (S (length job + S f))) (lit "\s*" ++ job) O
                         = Some (r, [], O)).
  { cbn [lit list_ascii_of_string app].
    rewrite parse_seq_step by reflexivity.
    cbn [Re.parse_atom]. cbn [eqb_char Ascii.eqb Bool.eqb Re.escape_item].
    rewrite quantify_star; [|reflexivity | now apply literals_head].
    replace (S (length job + S f)) with (length job + S (S f))%nat by lia.
    destruct (parse_seq_literals job J (S f) [] O Re.Empty [] O eq_refl
                (parse_seq_nil (S f) O)) as [r E].
    rewrite app_nil_r in E. rewrite E. eauto. }
  destruct E2 as [r2 E2].
  destruct (parse_seq_literals po_str P _ (lit "\s*" ++ job) O r2 [] O
              eq_refl E2) as [r E].
  exists r. unfold pattern. cbn [Re.parse_alt]. rewrite E. reflexivity.
Qed.

Lemma parse_group_context (f : nat) (s : str) (g : nat) :
  exists r,
    Re.parse_atom (50 + f)
      (lit "(?:PO|Purchase\s*Order|Order|Job)" ++ "["%char :: s) g
    = Some (r, "["%char :: s, g).
Proof. eexists. vm_compute. reflexivity. Qed.

Lemma parse_not_digits (f : nat) (c : ascii) (s : str) (g : nat) :
  literal_char c = true ->
  Re.parse_atom (S f) ("["%char :: lit "^0-9]*" ++ c :: s) g
  = Some (Re.Repeat 0 None true (Re.Chars true [Re.Range "0" "9"]), c :: s, g).
Proof.
  intro P. destruct c as [[] [] [] [] [] [] [] []]; try discriminate P;
    reflexivity.
Qed.

Lemma parse_alt_step (f : nat) (s : str) (g : nat) :
  Re.parse_alt (S f) s g
  = match Re.parse_seq f s g with
    | Some (r, "|"%char :: s1, g1) =>
        match Re.parse_alt f s1 g1 with
        | Some (r2, s2, g2) => Some (Re.Or r r2, s2, g2)
        | None => None
        end
    | other => other
    end.
Proof. reflexivity. Qed.

Lemma parse_seq_context (c : ascii) (po : str) (f : nat) :
  forallb literal_char (c :: po) = true ->
  exists r,
    Re.parse_seq (S (50 + (length (c :: po) + f)))
      (lit "(?:PO|Purchase\s*Order|Order|Job)" ++ "["%char
       :: lit "^0-9]*" ++ c :: po) O
    = Some (r, [], O).
Proof.
  intro P.
  destruct (parse_seq_literals (c :: po) P (48 + f) [] O Re.Empty [] O eq_refl
              (parse_seq_nil (48 + f) O)) as [r1 E1].
  rewrite app_nil_r in E1.
  destruct (parse_group_context (length (c :: po) + f)
              (lit "^0-9]*" ++ c :: po) O) as [r0 E0].
  exists (Re.cat r0 (Re.cat (Re.Repeat 0 None true
                               (Re.Chars true [Re.Range "0" "9"])) r1)).
  assert (S1 : forall fu s g ch s',
             s = ch :: s' -> eqb_char ch "|" || eqb_char ch ")" = false ->
             Re.parse_seq (S fu) s g
             = match Re.parse_atom fu s g with
               | Some (r, s1, g1) =>
                   match Re.parse_seq fu s1 g1 with
                   | Some (r2, s2, g2) => Some (Re.cat r r2, s2, g2)
                   | None => None
                   end
               | None => None
               end).
  { intros fu s g ch s' -> H. now apply parse_seq_step. }
  rewrite (S1 _ (lit "(?:PO|Purchase\s*Order|Order|Job)" ++ "["%char
                :: lit "^0-9]*" ++ c :: po) _ "("%char
             (lit "?:PO|Purchase\s*Order|Order|Job)" ++ "["%char
              :: lit "^0-9]*" ++ c :: po) eq_refl eq_refl).
  rewrite E0.
  replace (50 + (length (c :: po) + f))%nat
    with (S (S (48 + (length (c :: po) + f))))%nat by reflexivity.
  rewrite parse_seq_step by reflexivity.
  cbn [forallb] in P. apply andb_true_iff in P.
  rewrite parse_not_digits by tauto.
  replace (S (48 + (length (c :: po) + f)))%nat
    with (length (c :: po) + S (48 + f))%nat by lia.
  rewrite E1. reflexivity.
Qed.

Lemma compile_context_pattern (po_str : str) :
  forallb literal_char po_str = true -> po_str <> [] ->
  exists r,
    Re.compile (lit "(?:PO|Purchase\s*Order|Order|Job)[^0-9]*" ++ po_str)
    = Some r.
Proof.
  intros P N. destruct po_str as [|c po]; [congruence|].
  destruct (parse_seq_context c po (3 * length (c :: po) + 112) P) as [r E].
  exists r. unfold Re.compile.
  replace (4 * length (lit "(?:PO|Purchase\s*Order|Order|Job)[^0-9]*" ++ c :: po) + 4)%nat
    with (S (S (50 + (length (c :: po) + (3 * length (c :: po) + 112)))))%nat
    by (rewrite length_app; cbn [length lit list_ascii_of_string]; lia).
  rewrite parse_alt_step.
  replace (lit "(?:PO|Purchase\s*Order|Order|Job)[^0-9]*" ++ c :: po)
    with (lit "(?:PO|Purchase\s*Order|Order|Job)" ++ "["%char
          :: lit "^0-9]*" ++ c :: po) by reflexivity.
  rewrite E. reflexivity.
Qed.

Lemma replace_nil_filter (c : ascii) (s : str) :
  replace c [] s = filter (fun x => negb (eqb_char x c)) s.
Proof.
  unfold replace. induction s as [|x s IH]; [reflexivity|].
  cbn [flat_map filter]. rewrite IH. destruct (eqb_char x c); reflexivity.
Qed.

Lemma job_char_upper (c : ascii) :
  job_char c = true ->
  literal_char (upper_char c) = true
  \/ eqb_char (upper_char c) " " = true
  \/ eqb_char (upper_char c) "_" = true.
Proof.
  destruct c as [[] [] [] [] [] [] [] []]; intro H; try discriminate H;
    vm_compute; auto.
Qed.

Lemma job_name_no_spaces_literal (job_name : str) :
  plain_job_name job_name = true ->
  forallb literal_char
    (replace "_" [] (replace "-" [] (replace " " [] (upper job_name)))) = true.
Proof.
  intro H. rewrite !replace_nil_filter. apply forallb_forall. intros c Hc.
  apply filter_In in Hc. destruct Hc as [Hc N1].
  apply filter_In in Hc. destruct Hc as [Hc N2].
  apply filter_In in Hc. destruct Hc as [Hc N3].
  unfold upper in Hc. apply in_map_iff in Hc. destruct Hc as (x & <- & Hx).
  unfold plain_job_name in H. rewrite forallb_forall in H.
  destruct (job_char_upper x (H x Hx)) as [L|[L|L]]; [exact L| |];
    rewrite L in *; discriminate.
Qed.

Lemma digit_literal (c : ascii) : is_digit c = true -> literal_char c = true.
Proof. intro H. unfold literal_char. rewrite H. now rewrite orb_true_r. Qed.

Lemma str_of_int_literal (n : Z) :
  forallb literal_char (str_of_int n) = true /\ str_of_int n <> [].
Proof.
  assert (D : forall m, forallb literal_char (digits_of m) = true).
  { intro m. apply forallb_forall. intros c Hc. apply digit_literal.
    destruct (digits_of_digits m) as [F _]. rewrite forallb_forall in F. auto. }
  unfold str_of_int. destruct (n <? 0).
  - split; [|discriminate]. cbn [forallb]. now rewrite D.
  - split; [apply D | apply digits_of_digits].
Qed.

Lemma direct_search_returns (items : po_map_t) (text text_upper : str)
  (st : chain) :
  plain_jobs items ->
  exists st', direct_search items text text_upper st = Returned st'.
Proof.
  intro H. induction H as [|[po_id info] items Hj _ IH]; [cbn; eauto|].
  cbn [direct_search]. cbn [snd] in Hj.
  destruct (contains (str_of_int po_id) text); [|exact IH].
  destruct (str_of_int_literal po_id) as [L N].
  destruct (compile_concat_pattern _ _ L (job_name_no_spaces_literal _ Hj))
    as [r1 ->].
  destruct (is_some _); [eauto|].
  destruct (existsb _ _); [eauto|].
  destruct (compile_context_pattern _ L N) as [r2 ->].
  destruct (is_some _); [eauto | exact IH].
Qed.

Lemma fallback_chain_returns (e : env) (text : str) (po_map : po_map_t)
  (st : chain) :
  plain_jobs po_map ->
  exists st', fallback_chain e text po_map st = Returned st'.
Proof.
  intro H. unfold fallback_chain.
  set (st1 := table_column _ _ _ _).
  set (st2 := if negb (truthy (fst st1)) then _ else st1).
  destruct (negb (truthy (fst st2)) && negb (is_empty po_map)).
  - destruct (direct_search_returns po_map text (upper text) st2 H) as [st3 ->].
    eauto.
  - eauto.
Qed.

Lemma extract_invoice_data_total (e : env) (text : str)
  (po_map : po_map_t) :
  plain_jobs po_map ->
  exists answer, extract_invoice_data e text po_map = Returned answer.
Proof.
  intro H. unfold extract_invoice_data.
  destruct (is_empty text); [eauto|].
  destruct (find_invoice_number text); [|eauto].
  destruct (fallback_chain_returns e text po_map (claude_step e text po_map) H)
    as [st ->].
  eauto.
Qed.

(** X5: when the job name of every eligible PO is made of letters,
    digits, spaces, hyphens and underscores, [extract_invoice_data]
    returns on every page text: the two patterns Direct Search builds
    from a PO id and a job name compile. *)
Theorem extract_invoice_data_returns (e : env) (text : str)
  (po_map : po_map_t) :
  plain_jobs po_map ->
  exists answer, extract_invoice_data e text po_map = Returned answer.
Proof. apply extract_invoice_data_total. Qed.

Lemma extract_invoice_data_returns_witness :
  plain_jobs two_pos
  /\ exists answer,
       extract_invoice_data no_assist invoice_784514 two_pos = Returned answer.
Proof.
  assert (H : plain_jobs two_pos).
  { unfold plain_jobs, two_pos, somerville_po.
    repeat (constructor; [reflexivity|]). constructor. }
  split; [exact H|].
  exact (extract_invoice_data_returns no_assist invoice_784514 two_pos H).
Defined.

Lemma add_to_group_pages (n : str) (i : Z) (t : str) (d : invoice_data)
  (gs : groups_t) :
  Permutation (grouped_pages (add_to_group n i t d gs)) (i :: grouped_pages gs).
Proof.
  unfold grouped_pages. induction gs as [|[key g] gs IH]; cbn [add_to_group].
  - cbn. reflexivity.
  - destruct (eqb key n); cbn [flat_map snd pages].
    + rewrite <- app_assoc. cbn [app].
      symmetry. apply Permutation_middle.
    + rewrite IH. symmetry. apply Permutation_middle.
Qed.

Lemma written_pages_app (a b : list document) :
  written_pages (a ++ b) = written_pages a ++ written_pages b.
Proof. apply flat_map_app. Qed.

Lemma enter_page_pages (timestamp : str) (page_num : Z) (text : str)
  (returned : option invoice_data) (st : page_loop) :
  let st' := enter_page timestamp page_num text returned st in
  Permutation (written_pages (loop_documents st')
               ++ grouped_pages (loop_groups st'))
              ((page_num - 1)
               :: written_pages (loop_documents st)
                  ++ grouped_pages (loop_groups st))
  /\ processed (loop_results st') = processed (loop_results st) + 1
  /\ matched (loop_results st') = matched (loop_results st)
  /\ size (unmatched (loop_results st')) + size (errors (loop_results st'))
     + size (grouped_pages (loop_groups st'))
     = size (unmatched (loop_results st)) + size (errors (loop_results st))
       + size (grouped_pages (loop_groups st)) + 1.
Proof.
  destruct returned as [[n c m|po n c h]|]; cbn [enter_page]; cbv zeta;
    cbn [loop_results loop_groups loop_documents processed matched unmatched
         errors count_page add_error add_unmatched].
  - rewrite written_pages_app. cbn [written_pages flat_map page_indices app].
    split; [|split; [reflexivity|split; [reflexivity|]]].
    + rewrite <- app_assoc. cbn [app]. symmetry. apply Permutation_middle.
    + unfold size. rewrite !length_app. cbn [length]. lia.
  - split; [|split; [reflexivity|split; [reflexivity|]]].
    + rewrite add_to_group_pages. symmetry. apply Permutation_middle.
    + unfold size.
      rewrite (Permutation_length (add_to_group_pages n (page_num - 1) text
                                     (Match po n c h) (loop_groups st))).
      cbn [length]. lia.
  - rewrite written_pages_app. cbn [written_pages flat_map page_indices app].
    split; [|split; [reflexivity|split; [reflexivity|]]].
    + rewrite <- app_assoc. cbn [app]. symmetry. apply Permutation_middle.
    + unfold size. rewrite !length_app. cbn [length]. lia.
Qed.

Lemma range_cons (a b : Z) : a < b -> range a b = a :: range (a + 1) b.
Proof.
  intro H. unfold range.
  replace (Z.to_nat (b - a)) with (S (Z.to_nat (b - (a + 1)))) by lia.
  cbn [seq map]. f_equal; [lia|].
  rewrite <- seq_shift, map_map. apply map_ext. intro k. lia.
Qed.

Lemma range_empty (a : Z) : range a a = [].
Proof. unfold range. now rewrite Z.sub_diag. Qed.

Lemma process_pages_pages (e : env) (timestamp : str) (po_map : po_map_t)
  (ps : list page) (page_num : Z) (st st' : page_loop) :
  process_pages e timestamp po_map page_num ps st = (st', true) ->
  Permutation (written_pages (loop_documents st')
               ++ grouped_pages (loop_groups st'))
              (range (page_num - 1) (page_num - 1 + size ps)
               ++ written_pages (loop_documents st)
                  ++ grouped_pages (loop_groups st))
  /\ processed (loop_results st') = processed (loop_results st) + size ps
  /\ matched (loop_results st') = matched (loop_results st)
  /\ size (unmatched (loop_results st')) + size (errors (loop_results st'))
     + size (grouped_pages (loop_groups st'))
     = size (unmatched (loop_results st)) + size (errors (loop_results st))
       + size (grouped_pages (loop_groups st)) + size ps.
Proof.
  revert page_num st. induction ps as [|p ps IH]; intros k st H.
  - injection H as <-. unfold size. cbn [length Z.of_nat].
    rewrite !Z.add_0_r, range_empty. repeat split; reflexivity.
  - cbn [process_pages] in H. unfold process_page in H.
    destruct (extract_invoice_data e (page_text e p) po_map) as [r|];
      [|discriminate].
    destruct (IH _ _ H) as [P [N [M C]]].
    destruct (enter_page_pages timestamp k (page_text e p) r st)
      as [P1 [N1 [M1 C1]]]. cbv zeta in P1, N1, M1, C1.
    assert (L : size (p :: ps) = size ps + 1) by (unfold size; cbn [length]; lia).
    rewrite L. split; [|split; [lia|split; [congruence|lia]]].
    rewrite P, P1.
    rewrite (range_cons (k - 1)) by (unfold size; lia).
    replace (k + 1 - 1) with (k - 1 + 1) by lia.
    replace (k - 1 + 1 + size ps) with (k - 1 + (size ps + 1)) by lia.
    cbn [app]. symmetry. apply Permutation_middle.
Qed.

Lemma written_group_documents (timestamp : str) (gs : groups_t) :
  written_pages (map (group_document timestamp) gs) = grouped_pages gs.
Proof.
  unfold written_pages, grouped_pages.
  induction gs as [|[n g] gs IH]; [reflexivity|].
  cbn [map flat_map group_document page_indices snd]. now rewrite IH.
Qed.

Lemma fold_add_detail_counts (f : str * group -> detail_entry) (gs : groups_t)
  (r : results) :
  let r' := fold_left (fun r entry => add_detail (f entry) r) gs r in
  processed r' = processed r
  /\ matched r' = matched r + size gs
  /\ unmatched r' = unmatched r.
Proof.
  revert r. induction gs as [|g gs IH]; intro r; cbn [fold_left].
  - unfold size. cbn. repeat split. lia.
  - destruct (IH (add_detail (f g) r)) as [P [M U]]. cbv zeta in *.
    rewrite P, M, U. unfold size. cbn [add_detail processed matched unmatched length].
    repeat split. lia.
Qed.

Lemma total_group_pages (po_map : po_map_t) (gs : groups_t) :
  total_pages (map (group_detail po_map) gs) = size (grouped_pages gs).
Proof.
  unfold total_pages, grouped_pages, size.
  induction gs as [|[n g] gs IH]; [reflexivity|].
  cbn [map fold_right flat_map group_detail detail_pages snd].
  rewrite IH, length_app. lia.
Qed.

(** X8: on a batch that completes, the pages of the documents written
    are the pages of the file, each one once. *)
Theorem process_bulk_pdf_pages_written (e : env) (timestamp : str)
  (po_map : po_map_t) (batch_pages : list page) :
  let run := process_bulk_pdf e timestamp po_map batch_pages in
  success (report run) = true ->
  Permutation (written_pages (documents run)) (range 0 (size batch_pages)).
Proof.
  intros run S. subst run. unfold process_bulk_pdf in *.
  destruct (process_pages _ _ _ _ _ _) as [st [|]] eqn:P; [|discriminate S].
  cbn [documents]. apply process_pages_pages in P. destruct P as [P _].
  cbn [loop_documents loop_groups written_pages grouped_pages flat_map app]
    in P.
  rewrite app_nil_r in P. change (1 - 1) with 0 in P. rewrite Z.add_0_l in P.
  rewrite written_pages_app, written_group_documents. exact P.
Qed.

Lemma process_bulk_pdf_pages_written_witness :
  Permutation
    (written_pages (documents (process_bulk_pdf no_assist sample_stamp
                                 somerville_po sample_batch)))
    (range 0 (size sample_batch)).
Proof.
  apply (process_bulk_pdf_pages_written no_assist sample_stamp somerville_po
           sample_batch).
  vm_compute. reflexivity.
Defined.

(** X9: the summary of a batch that completes counts every page once:
    [processed] is the number of pages, [matched] the number of details
    and of updates, and the unmatched pages, the error pages and the
    pages of the details add up to the pages of the file. *)
Theorem process_bulk_pdf_counts (e : env) (timestamp : str)
  (po_map : po_map_t) (batch_pages : list page) :
  let run := process_bulk_pdf e timestamp po_map batch_pages in
  success (report run) = true ->
  processed (report run) = size batch_pages
  /\ matched (report run) = size (details (report run))
  /\ size (updates run) = size (details (report run))
  /\ size (unmatched (report run)) + size (errors (report run))
     + total_pages (details (report run)) = size batch_pages.
Proof.
  intros run S. subst run. unfold process_bulk_pdf in *.
  destruct (process_pages _ _ _ _ _ _) as [st [|]] eqn:P; [|discriminate S].
  cbn [report updates].
  destruct (process_pages_results _ _ _ _ _ _ _ P) as [_ [_ [D _]]].
  apply process_pages_pages in P. destruct P as [_ [N [M C]]].
  cbn [loop_results loop_groups processed matched unmatched errors details
       grouped_pages flat_map] in N, M, C, D.
  destruct (fold_add_detail (group_detail po_map) (loop_groups st)
              (loop_results st)) as [D' [E' _]].
  destruct (fold_add_detail_counts (group_detail po_map) (loop_groups st)
              (loop_results st)) as [N' [M' U']].
  cbv zeta in D', E', N', M', U'.
  rewrite D', E', N', M', U', D, M, N. cbn [app].
  rewrite total_group_pages.
  unfold size in *. rewrite !length_map. cbn [length] in C. repeat split; lia.
Qed.

Lemma process_bulk_pdf_counts_witness :
  let run := process_bulk_pdf no_assist sample_stamp somerville_po
               sample_batch in
  processed (report run) = size sample_batch
  /\ matched (report run) = size (details (report run))
  /\ size (updates run) = size (details (report run))
  /\ size (unmatched (report run)) + size (errors (report run))
     + total_pages (details (report run)) = size sample_batch.
Proof.
  apply (process_bulk_pdf_counts no_assist sample_stamp somerville_po
           sample_batch).
  vm_compute. reflexivity.
Defined.




Lemma code_digit_char (d : Z) : 0 <= d < 10 -> code (digit_char d) - 48 = d.
Proof.
  intro H.
  assert (C : d = 0 \/ d = 1 \/ d = 2 \/ d = 3 \/ d = 4 \/ d = 5 \/ d = 6
              \/ d = 7 \/ d = 8 \/ d = 9) by lia.
  repeat (destruct C as [->|C]; [reflexivity|]). subst. reflexivity.
Qed.

Lemma digits_of_pos_value (fuel : nat) (n : Z) (acc : str) :
  0 <= n < 2 ^ Z.of_nat fuel ->
  digits_value 0 (digits_of_pos fuel n acc) = digits_value n acc.
Proof.
  revert n acc. induction fuel as [|f IH]; intros n acc H.
  - cbn in H. assert (n = 0) by lia. subst. reflexivity.
  - cbn [digits_of_pos].
    assert (M : 0 <= n mod 10 < 10) by (apply Z.mod_pos_bound; lia).
    destruct (n <? 10) eqn:L.
    + cbn [digits_value fold_left]. rewrite code_digit_char by exact M.
      rewrite Z.mod_small by lia. reflexivity.
    + rewrite IH.
      * cbn [digits_value fold_left]. rewrite code_digit_char by exact M.
        unfold digits_value. f_equal. pose proof (Z.div_mod n 10 ltac:(lia)). lia.
      * rewrite Nat2Z.inj_succ, Z.pow_succ_r in H by lia.
        split; [apply Z.div_pos; lia|].
        apply Z.div_lt_upper_bound; lia.
Qed.

Lemma digits_of_value (n : Z) : 0 <= n -> digits_value 0 (digits_of n) = n.
Proof.
  intro H. unfold digits_of. rewrite digits_of_pos_value; [reflexivity|].
  split; [exact H|]. rewrite Nat2Z.inj_succ, Z2Nat.id by apply Z.log2_nonneg.
  destruct (Z.eq_dec n 0) as [->|N]; [reflexivity|].
  apply Z.log2_spec. lia.
Qed.

Lemma digits_of_head (n : Z) :
  exists c s, digits_of n = c :: s /\ is_digit c = true.
Proof.
  destruct (digits_of_digits n) as [F N].
  destruct (digits_of n) as [|c s]; [congruence|].
  cbn [forallb] in F. apply andb_true_iff in F. exists c, s. tauto.
Qed.

Lemma str_of_int_inj (a b : Z) : str_of_int a = str_of_int b -> a = b.
Proof.
  unfold str_of_int.
  destruct (a <? 0) eqn:A; destruct (b <? 0) eqn:B; intro E.
  - injection E as E. apply (f_equal (digits_value 0)) in E.
    rewrite !digits_of_value in E by lia. lia.
  - destruct (digits_of_head b) as (c & s & Hb & D). rewrite Hb in E.
    injection E as <- _. discriminate D.
  - destruct (digits_of_head a) as (c & s & Ha & D). rewrite Ha in E.
    injection E as -> _. discriminate D.
  - apply (f_equal (digits_value 0)) in E.
    rewrite !digits_of_value in E by lia. exact E.
Qed.

Lemma str_of_int_chars (n : Z) :
  Forall (fun c => c <> underscore) (str_of_int n).
Proof.
  unfold str_of_int. destruct (n <? 0).
  - constructor; [discriminate|]. apply digits_of_pos_chars. constructor.
  - apply digits_of_pos_chars. constructor.
Qed.

Lemma error_filename_inj (timestamp : str) (k1 k2 : Z) (inv1 inv2 : str) :
  error_filename timestamp k1 inv1 = error_filename timestamp k2 inv2 ->
  k1 = k2.
Proof.
  unfold error_filename. intro E.
  apply app_inv_head in E. apply app_inv_head in E. apply app_inv_head in E.
  apply (split_at_first underscore) in E; try apply str_of_int_chars.
  apply str_of_int_inj, E.
Qed.

Lemma unmatched_name_inj (timestamp : str) (k1 k2 : Z) :
  unmatched_name timestamp k1 = unmatched_name timestamp k2 -> k1 = k2.
Proof.
  unfold unmatched_name. intro E.
  apply app_inv_head in E. apply app_inv_head in E. apply app_inv_head in E.
  apply app_inv_tail in E. apply str_of_int_inj, E.
Qed.

(** The page number a document of the page loop carries in its name. *)
Lemma page_document_page (e : env) (timestamp : str) (po_map : po_map_t)
  (np : Z * page) (d : document) :
  In d (page_document_of e timestamp po_map np) ->
  (exists inv, filename d = error_filename timestamp (fst np) inv)
  \/ filename d = unmatched_name timestamp (fst np).
Proof.
  unfold page_document_of.
  destruct (page_result e po_map (snd np)) as [[[n c m|po n c h]|]|];
    cbn [In]; intros [<-|[]] || intros []; cbn [filename]; eauto.
Qed.

Lemma page_documents_page (e : env) (timestamp : str) (po_map : po_map_t)
  (ps : list page) (k : Z) (name : str) :
  In name (map filename
             (flat_map (page_document_of e timestamp po_map) (numbered k ps))) ->
  exists n, k <= n
    /\ ((exists inv, name = error_filename timestamp n inv)
        \/ name = unmatched_name timestamp n).
Proof.
  intro H. apply in_map_iff in H. destruct H as (d & <- & H).
  apply in_flat_map in H. destruct H as ([n p] & Hn & Hd).
  apply numbered_in in Hn. apply page_document_page in Hd.
  exists n. tauto.
Qed.

Lemma error_not_unmatched (timestamp : str) (k1 k2 : Z) (inv : str) :
  error_filename timestamp k1 inv <> unmatched_name timestamp k2.
Proof. discriminate. Qed.

Lemma page_documents_nodup (e : env) (timestamp : str) (po_map : po_map_t)
  (ps : list page) (k : Z) :
  NoDup (map filename
           (flat_map (page_document_of e timestamp po_map) (numbered k ps))).
Proof.
  revert k. induction ps as [|p ps IH]; intro k; [constructor|].
  cbn [numbered flat_map]. rewrite map_app. apply NoDup_app.
  - unfold page_document_of.
    destruct (page_result e po_map (snd (k, p))) as [[[n c m|po n c h]|]|];
      cbn; repeat constructor; auto.
  - apply IH.
  - intros name H1 H2. apply page_documents_page in H2.
    destruct H2 as (n & Hn & H2).
    apply in_map_iff in H1. destruct H1 as (d & <- & H1).
    apply page_document_page in H1. cbn [fst] in H1.
    destruct H1 as [[i1 E1]|E1]; destruct H2 as [[i2 E2]|E2];
      rewrite E1 in E2.
    + apply error_filename_inj in E2. lia.
    + now apply error_not_unmatched in E2.
    + symmetry in E2. now apply error_not_unmatched in E2.
    + apply unmatched_name_inj in E2. lia.
Qed.

Lemma group_documents_nodup (timestamp : str) (gs : groups_t) :
  NoDup (map fst gs) ->
  NoDup (map filename (map (group_document timestamp) gs)).
Proof.
  induction gs as [|[n g] gs IH]; intro N; [constructor|].
  cbn [map fst] in N. inversion N as [|? ? N1 N2]; subst.
  cbn [map group_document filename]. constructor; [|now apply IH].
  intro H. apply N1. rewrite map_map in H. apply in_map_iff in H.
  destruct H as ([n' g'] & E & H). cbn [group_document filename] in E.
  apply group_filename_inj in E. subst n'.
  apply in_map_iff. exists (n, g'). auto.
Qed.

(** X10: no two documents written by a batch that completes have the
    same file name. *)
Theorem process_bulk_pdf_names_distinct (e : env) (timestamp : str)
  (po_map : po_map_t) (batch_pages : list page) :
  let run := process_bulk_pdf e timestamp po_map batch_pages in
  success (report run) = true ->
  NoDup (map filename (documents run)).
Proof.
  intros run S. subst run.
  destruct (process_bulk_pdf_success _ _ _ _ S) as (st & P & D & _).
  rewrite D, map_app. apply NoDup_app.
  - apply page_documents_nodup.
  - apply group_documents_nodup.
    apply (process_pages_nodup _ _ _ _ _ _ _ P). constructor.
  - intros name H1 H2. apply page_documents_page in H1.
    destruct H1 as (n & _ & H1).
    rewrite map_map in H2. apply in_map_iff in H2.
    destruct H2 as ([inv g] & <- & _). cbn [group_document filename] in H1.
    destruct H1 as [[i H1]|H1]; discriminate H1.
Qed.

Lemma process_bulk_pdf_names_distinct_witness :
  NoDup (map filename
           (documents (process_bulk_pdf no_assist sample_stamp somerville_po
                         sample_batch))).
Proof.
  apply (process_bulk_pdf_names_distinct no_assist sample_stamp somerville_po
           sample_batch).
  vm_compute. reflexivity.
Defined.

Lemma in_all_chars (c : ascii) : In c all_chars.
Proof.
  unfold all_chars. apply in_map_iff. exists (nat_of_ascii c).
  split; [apply ascii_nat_embedding|]. apply in_seq.
  pose proof (nat_ascii_bounded c). lia.
Qed.

Lemma run_repeat (icase : bool) (lo : nat) (hi : option nat) (greedy : bool)
  (a : Re.regex) (st : Re.cursor) (k : Re.cursor -> option Re.cursor) :
  Re.run icase (Re.Repeat lo hi greedy a) st k
  = iterate lo hi greedy (Re.run icase a) k
      (S (lo + length (Re.ahead st))) O st.
Proof. reflexivity. Qed.

Section RunInvariant.

Variable icase : bool.
Variable q : ascii -> bool.
Variable inner : Re.regex -> bool.
Variable I : Re.cursor -> Prop.

Hypothesis char_case :
  forall st c rest, I st -> Re.ahead st = c :: rest -> q c = true ->
                    I (Re.step c rest st).

Hypothesis group_case :
  forall n a, inner a = true ->
  forall st k fin, I st ->
    Re.run icase a st (fun st1 => k (Re.close_group n (Re.pos st) st1))
    = Some fin ->
    exists st1, I st1 /\ k st1 = Some fin.

Lemma run_admits (r : Re.regex) :
  admits icase q inner r = true ->
  forall st k fin, I st -> Re.run icase r st k = Some fin ->
  exists st1, I st1 /\ k st1 = Some fin.
Proof.
  induction r as [| |negated items| | | | |a IHa b IHb|a IHa b IHb
                  |lo hi greedy a IHa|n a IHa|a IHa];
    intros A st k fin Hst H; cbn [admits] in A;
    try rewrite run_repeat in H;
    lazymatch type of H with
    | iterate _ _ _ _ _ _ _ _ = _ => idtac
    | _ => cbn [Re.run] in H
    end.
  - eauto.
  - destruct (Re.ahead st) as [|c rest] eqn:E; [discriminate|].
    destruct (code c =? 10) eqn:N; [discriminate|].
    rewrite forallb_forall in A. specialize (A c (in_all_chars c)).
    rewrite N in A. eauto.
  - destruct (Re.ahead st) as [|c rest] eqn:E; [discriminate|].
    destruct (xorb negated (Re.items_have icase items c)) eqn:N;
      [|discriminate].
    rewrite forallb_forall in A. specialize (A c (in_all_chars c)).
    rewrite N in A. eauto.
  - destruct (Re.pos st =? 0)%nat; [eauto|discriminate].
  - destruct (Re.at_end st); [eauto|discriminate].
  - destruct (Re.at_boundary st); [eauto|discriminate].
  - destruct (Re.at_boundary st); [discriminate|eauto].
  - apply andb_true_iff in A. destruct A as [Aa Ab].
    destruct (IHa Aa _ _ _ Hst H) as (st1 & H1 & K1).
    apply (IHb Ab _ _ _ H1 K1).
  - apply andb_true_iff in A. destruct A as [Aa Ab].
    destruct (Re.run icase a st k) eqn:Ra.
    + cbn in H. rewrite <- Ra in H. apply (IHa Aa _ _ _ Hst H).
    + cbn in H. apply (IHb Ab _ _ _ Hst H).
  - revert H.
    generalize (S (lo + length (Re.ahead st))) as fuel.
    generalize O as cnt. revert st Hst.
    intros st Hst cnt fuel. revert cnt st Hst.
    induction fuel as [|f IHf]; intros cnt st Hst H; [discriminate|].
    cbn [iterate] in H.
    set (again := if Re.below cnt hi then _ else None) in H.
    assert (G : again = Some fin -> exists st1, I st1 /\ k st1 = Some fin).
    { unfold again. destruct (Re.below cnt hi); [|discriminate].
      intro R. destruct (IHa A _ _ _ Hst R) as (st1 & H1 & K1).
      destruct ((cnt <? lo)%nat || (Re.pos st <? Re.pos st1)%nat);
        [|discriminate].
      apply (IHf _ _ H1 K1). }
    destruct (cnt <? lo)%nat; [auto|].
    destruct greedy.
    + destruct again as [x|] eqn:Ea; cbn in H; [auto|eauto].
    + destruct (k st) as [x|] eqn:Ek; cbn in H; [|auto].
      exists st. split; [exact Hst|]. congruence.
  - apply (group_case n a A st k fin Hst H).
  - destruct (Re.run icase a st Some) as [st1|] eqn:Ra; [|discriminate].
    destruct (IHa A _ _ _ Hst Ra) as (st2 & H2 & K2).
    injection K2 as ->. eauto.
Qed.

End RunInvariant.

Lemma skipn_step {A} (n : nat) (l : list A) (c : A) (rest : list A) :
  skipn n l = c :: rest -> skipn (S n) l = rest.
Proof.
  revert l. induction n as [|n IH]; intros l H.
  - cbn in H. subst. reflexivity.
  - destruct l as [|x l]; [discriminate|]. cbn [skipn] in *. now apply IH.
Qed.

Lemma step_cursor_in (text : str) (st : Re.cursor) (c : ascii) (rest : str) :
  cursor_in text st -> Re.ahead st = c :: rest ->
  cursor_in text (Re.step c rest st).
Proof.
  unfold cursor_in. intros W E. cbn [Re.step Re.ahead Re.pos].
  symmetry. apply (skipn_step _ _ c). congruence.
Qed.

Section Captures.

Variable icase : bool.
Variable q : ascii -> bool.
Variable text : str.

(** Inside a group: the cursor after the cursor [from] that opened it. *)
Lemma run_consumes (r : Re.regex) (from : Re.cursor) :
  consumes_only icase q r = true ->
  forall st k fin,
    cursor_in text st /\ Forall (span_in q text) (Re.spans st)
    /\ stretch_in q text from st ->
    Re.run icase r st k = Some fin ->
    exists st1,
      (cursor_in text st1 /\ Forall (span_in q text) (Re.spans st1)
       /\ stretch_in q text from st1)
      /\ k st1 = Some fin.
Proof.
  apply (run_admits icase q (fun _ => false)).
  - intros st c rest (W & S & (w & E & L & F)) A Q.
    split; [now apply step_cursor_in|]. split; [exact S|].
    exists (w ++ [c]). cbn [Re.step Re.ahead Re.pos].
    rewrite <- app_assoc, length_app, forallb_app, F. cbn [app length forallb].
    rewrite Q. rewrite A in E. repeat split; [exact E | lia].
  - discriminate.
Qed.

Lemma run_captures (r : Re.regex) :
  captures_only icase q r = true ->
  forall st k fin,
    cursor_in text st /\ Forall (span_in q text) (Re.spans st) ->
    Re.run icase r st k = Some fin ->
    exists st1,
      (cursor_in text st1 /\ Forall (span_in q text) (Re.spans st1))
      /\ k st1 = Some fin.
Proof.
  apply (run_admits icase (fun _ => true) (consumes_only icase q)).
  - intros st c rest (W & S) A _. split; [now apply step_cursor_in | exact S].
  - intros n a C st k fin (W & S) R.
    destruct (run_consumes a st C st
                (fun st1 => k (Re.close_group n (Re.pos st) st1)) fin)
      as (st1 & (W1 & S1 & (w & E & L & F)) & K); [|exact R|].
    { repeat split; [exact W | exact S|]. exists []. cbn.
      repeat split; [symmetry; exact W | lia]. }
    exists (Re.close_group n (Re.pos st) st1). split; [|exact K].
    split; [exact W1|]. cbn [Re.close_group Re.spans]. constructor; [|exact S1].
    unfold span_in. cbn [fst snd]. rewrite E, L.
    replace (Re.pos st + length w - Re.pos st)%nat with (length w) by lia.
    rewrite firstn_app, firstn_all, Nat.sub_diag. cbn [firstn].
    now rewrite app_nil_r.
Qed.

Lemma scan_captures (r : Re.regex) (i : nat) (prev : option ascii)
  (rest : str) (m : Re.matched) (fin : Re.cursor) :
  captures_only icase q r = true ->
  rest = skipn i text ->
  Re.scan icase r text i prev rest = Some (m, fin) ->
  Re.subject m = text /\ Forall (span_in q text) (Re.m_spans m)
  /\ cursor_in text fin.
Proof.
  intro C. revert i prev. induction rest as [|c rest IH]; intros i prev W H;
    cbn [Re.scan] in H.
  - destruct (Re.run icase r _ Some) as [f|] eqn:R; [|discriminate].
    injection H as <- <-. cbn [Re.subject Re.m_spans].
    apply (run_captures r C) in R; [|split; [exact W | constructor]].
    destruct R as (st1 & (W1 & S1) & E). injection E as ->. auto.
  - destruct (Re.run icase r _ Some) as [f|] eqn:R.
    + injection H as <- <-. cbn [Re.subject Re.m_spans].
      apply (run_captures r C) in R; [|split; [exact W | constructor]].
      destruct R as (st1 & (W1 & S1) & E). injection E as ->. auto.
    + apply (IH (S i) (Some c)); [|exact H].
      symmetry. apply (skipn_step _ _ c). now symmetry.
Qed.

Lemma span_of_in (n : nat) (l : list (nat * (nat * nat))) (sp : nat * nat) :
  Re.span_of n l = Some sp -> In (n, sp) l.
Proof.
  induction l as [|[i x] l IH]; [discriminate|]. cbn [Re.span_of].
  destruct (i =? n)%nat eqn:E.
  - intro H. injection H as ->. apply Nat.eqb_eq in E. subst. now left.
  - intro H. right. auto.
Qed.

Lemma group_captured (m : Re.matched) (n : nat) :
  Re.subject m = text -> Forall (span_in q text) (Re.m_spans m) ->
  forallb q (Re.group (S n) m) = true.
Proof.
  intros T P. cbn [Re.group].
  destruct (Re.span_of (S n) (Re.m_spans m)) as [[a b]|] eqn:E; [|reflexivity].
  apply span_of_in in E. rewrite Forall_forall in P. specialize (P _ E).
  unfold span_in in P. cbn [fst snd] in P. now rewrite T.
Qed.

Lemma search_captures (r : Re.regex) (m : Re.matched) (n : nat) :
  captures_only icase q r = true ->
  Re.search icase r text = Some m ->
  forallb q (Re.group (S n) m) = true.
Proof.
  intros C H. unfold Re.search in H.
  destruct (Re.scan icase r text 0 None text) as [[m' fin]|] eqn:Sc;
    [|discriminate].
  injection H as ->.
  destruct (scan_captures r 0 None text m fin C eq_refl Sc) as (T & P & _).
  now apply group_captured.
Qed.

Lemma finditer_from_captures (r : Re.regex) (fuel i : nat)
  (prev : option ascii) (rest : str) (m : Re.matched) (n : nat) :
  captures_only icase q r = true ->
  rest = skipn i text ->
  In m (Re.finditer_from fuel icase r text i prev rest) ->
  forallb q (Re.group (S n) m) = true.
Proof.
  intro C. revert i prev rest.
  induction fuel as [|f IH]; intros i prev rest W H; [contradiction|].
  cbn [Re.finditer_from] in H.
  destruct (Re.scan icase r text i prev rest) as [[m' fin]|] eqn:Sc;
    [|contradiction].
  destruct (scan_captures r i prev rest m' fin C W Sc) as (T & P & F).
  destruct H as [<-|H]; [now apply group_captured|].
  destruct (Re.m_start m' <? Re.m_end m')%nat.
  - apply (IH _ _ _ F H).
  - destruct (Re.ahead fin) as [|c rest'] eqn:A; [contradiction|].
    apply (IH (S (Re.pos fin)) (Some c) rest'); [|exact H].
    symmetry. apply (skipn_step _ _ c). unfold cursor_in in F. congruence.
Qed.

Lemma finditer_captures (r : Re.regex) (m : Re.matched) (n : nat) :
  captures_only icase q r = true ->
  In m (Re.finditer icase r text) ->
  forallb q (Re.group (S n) m) = true.
Proof. intro C. now apply finditer_from_captures. Qed.

End Captures.

Lemma lstrip_chars (q : ascii -> bool) (s : str) :
  forallb q s = true -> forallb q (lstrip s) = true.
Proof.
  induction s as [|c s IH]; [auto|]. cbn [lstrip forallb].
  intro H. destruct (is_space c); [|exact H].
  apply andb_true_iff in H. tauto.
Qed.

Lemma forallb_rev (q : ascii -> bool) (s : str) :
  forallb q (rev s) = forallb q s.
Proof.
  induction s as [|c s IH]; [reflexivity|]. cbn [rev forallb].
  rewrite forallb_app, IH. cbn [forallb]. rewrite andb_true_r.
  apply andb_comm.
Qed.

Lemma strip_chars (q : ascii -> bool) (s : str) :
  forallb q s = true -> forallb q (strip s) = true.
Proof.
  intro H. unfold strip, rstrip. rewrite forallb_rev.
  apply lstrip_chars. rewrite forallb_rev. now apply lstrip_chars.
Qed.

Lemma invoice_patterns_capture :
  forallb (captures_only true literal_char)
    (customer_invoice_patterns ++ order_patterns) = true.
Proof. vm_compute. reflexivity. Qed.

Lemma primary_invoice_number_chars (patterns : list Re.regex) (text n : str) :
  forallb (captures_only true literal_char) patterns = true ->
  primary_invoice_number patterns text = Some n ->
  forallb literal_char n = true.
Proof.
  induction patterns as [|p ps IH]; [discriminate|]. cbn [forallb].
  intro C. apply andb_true_iff in C. destruct C as [Cp Cps].
  cbn [primary_invoice_number].
  destruct (Re.search true p text) as [m|] eqn:S; [|now apply IH].
  destruct (5 <=? len (strip (Re.group 1 m))); [|now apply IH].
  intro H. injection H as <-. apply strip_chars.
  now apply (search_captures true literal_char text p m 0).
Qed.

Lemma fallback_invoice_number_chars (patterns : list Re.regex) (text n : str) :
  forallb (captures_only true literal_char) patterns = true ->
  fallback_invoice_number patterns text = Some n ->
  forallb literal_char n = true.
Proof.
  induction patterns as [|p ps IH]; [discriminate|]. cbn [forallb].
  intro C. apply andb_true_iff in C. destruct C as [Cp Cps].
  cbn [fallback_invoice_number].
  destruct (Re.search true p text) as [m|] eqn:S; [|now apply IH].
  destruct (negb _ && _); [|now apply IH].
  intro H. injection H as <-. apply strip_chars.
  now apply (search_captures true literal_char text p m 0).
Qed.

Lemma find_invoice_number_chars (text n : str) :
  find_invoice_number text = Some n -> forallb literal_char n = true.
Proof.
  pose proof invoice_patterns_capture as C. rewrite forallb_app in C.
  apply andb_true_iff in C. destruct C as [C1 C2].
  unfold find_invoice_number.
  destruct (primary_invoice_number _ text) as [x|] eqn:P.
  - intro H. injection H as <-. now apply primary_invoice_number_chars in P.
  - now apply fallback_invoice_number_chars.
Qed.

(** X11: the invoice number of every answer of [extract_invoice_data]
    is made of letters, digits and hyphens only, so the file names built
    from it hold no path separator, dot or blank of its own. *)
Theorem invoice_number_characters (e : env) (text : str) (po_map : po_map_t)
  (d : invoice_data) :
  extract_invoice_data e text po_map = Returned (Some d) ->
  forallb literal_char (invoice_number_of d) = true.
Proof.
  unfold extract_invoice_data.
  destruct (is_empty text); [discriminate|].
  destruct (find_invoice_number text) as [n|] eqn:F; [|discriminate].
  apply find_invoice_number_chars in F.
  destruct (fallback_chain _ _ _ _) as [st|]; [|discriminate].
  intro H. injection H as <-. unfold final_result.
  destruct (fst st) as [po|]; [destruct (po =? 0)|]; exact F.
Qed.

Lemma invoice_number_characters_witness :
  forallb literal_char (lit "784512") = true.
Proof.
  apply (invoice_number_characters no_assist invoice_784512 somerville_po
           (Match 1012 (lit "784512") (lit "1234.50") (Some TableColumn))).
  vm_compute. reflexivity.
Defined.

Lemma group_data_matched (e : env) (timestamp : str) (po_map : po_map_t)
  (ps : list page) (st : page_loop) (key : str) (g : group) :
  process_pages e timestamp po_map 1 ps start_loop = (st, true) ->
  In (key, g) (loop_groups st) ->
  exists p po c h,
    In p ps /\ page_result e po_map p = Returned (Some (data g))
    /\ data g = Match po key c h.
Proof.
  intros P Hin.
  assert (N : NoDup (map fst (loop_groups st))).
  { apply (process_pages_nodup _ _ _ _ _ _ _ P). constructor. }
  pose proof (process_pages_groups _ _ _ key _ _ _ _ P) as G.
  rewrite (glookup_of_in _ _ _ N Hin) in G.
  fold (page_hits e po_map ps key) in G.
  cbn [start_loop loop_groups glookup] in G.
  destruct (page_hits e po_map ps key) as [|[[i0 t0] d0] more] eqn:H;
    [discriminate|].
  cbn [extended app] in G. injection G as ->. cbn [data].
  assert (Hh : In (i0, t0, d0) (page_hits e po_map ps key))
    by (rewrite H; now left).
  apply page_hits_in in Hh.
  destruct Hh as [p [L [Hn [_ [R [po [c [h ->]]]]]]]].
  exists p, po, c, h. split; [|auto]. eapply nth_error_In, Hn.
Qed.

Lemma process_bulk_pdf_update_facts (e : env) (timestamp : str)
  (po_map : po_map_t) (batch_pages : list page) (u : po_update) :
  let run := process_bulk_pdf e timestamp po_map batch_pages in
  success (report run) = true ->
  In u (updates run) ->
  In (update_id u) (map fst po_map)
  /\ update_id u <> 0
  /\ In (update_match_method u) method_names
  /\ update_invoice_filename u
     = group_filename timestamp (update_id u) (update_invoice_number u)
  /\ exists p,
       In p batch_pages
       /\ exists how,
            page_result e po_map p
            = Returned (Some (Match (update_id u) (update_invoice_number u)
                                (update_invoice_cost u) how)).
Proof.
  intros run S Hu. subst run.
  destruct (process_bulk_pdf_success _ _ _ _ S) as (st & P & _ & U & _).
  rewrite U in Hu. apply in_map_iff in Hu. destruct Hu as ([key g] & <- & Hg).
  destruct (group_data_matched _ _ _ _ _ _ _ P Hg)
    as (p & po & c & h & Hp & R & D).
  cbn [group_update update_id update_match_method update_invoice_filename
       update_invoice_number update_invoice_cost].
  rewrite D in *. cbn [po_id_of cost_of method_text].
  unfold page_result in R.
  destruct (extract_invoice_data_ok _ _ _ _ _ _ _ R) as (K & Z0 & m & ->).
  split; [now apply po_in_In|]. split; [exact Z0|].
  split; [destruct m; cbn; auto 10|]. split; [reflexivity|].
  exists p. split; [exact Hp|]. exists (Some m). exact R.
Qed.

(** X12: every PO update of a batch that completes is for a PO of the
    eligible map, not for PO 0, under the invoice number of a page that
    matched it, with the cost text of that page and one of the five
    method names: the value [Unknown] is never stored. *)
Theorem process_bulk_pdf_updates_eligible (e : env) (timestamp : str)
  (po_map : po_map_t) (batch_pages : list page) (u : po_update) :
  let run := process_bulk_pdf e timestamp po_map batch_pages in
  success (report run) = true ->
  In u (updates run) ->
  In (update_id u) (map fst po_map)
  /\ update_id u <> 0
  /\ In (update_match_method u) method_names
  /\ update_invoice_filename u
     = group_filename timestamp (update_id u) (update_invoice_number u)
  /\ exists p,
       In p batch_pages
       /\ exists how,
            page_result e po_map p
            = Returned (Some (Match (update_id u) (update_invoice_number u)
                                (update_invoice_cost u) how)).
Proof. apply process_bulk_pdf_update_facts. Qed.

Lemma process_bulk_pdf_updates_eligible_witness :
  let u := {| update_id := 1012;
              update_invoice_filename :=
                lit "PO1012_20240101_120000_INV784513.pdf";
              update_invoice_number := lit "784513";
              update_invoice_cost := lit "7.25";
              update_estimated_cost := Float.of_str (lit "7.25");
              update_match_method := lit "Table Column" |} in
  In (update_id u) (map fst somerville_po) /\ update_id u <> 0.
Proof.
  intro u.
  destruct (process_bulk_pdf_updates_eligible no_assist sample_stamp
              somerville_po sample_batch u) as (K & Z0 & _).
  - vm_compute. reflexivity.
  - vm_compute. right. left. reflexivity.
  - split; [exact K | exact Z0].
Defined.

Lemma lstrip_id (s : str) :
  forallb (fun c => negb (is_space c)) s = true -> lstrip s = s.
Proof.
  destruct s as [|c s]; [reflexivity|]. cbn [forallb lstrip]. intro H.
  apply andb_true_iff in H. destruct H as [H _].
  apply negb_true_iff in H. now rewrite H.
Qed.

Lemma strip_id (s : str) :
  forallb (fun c => negb (is_space c)) s = true -> strip s = s.
Proof.
  intro H. unfold strip, rstrip. rewrite (lstrip_id s H).
  rewrite lstrip_id; [apply rev_involutive|].
  apply forallb_forall. intros c Hc. apply in_rev in Hc.
  rewrite forallb_forall in H. auto.
Qed.

Lemma digit_not_space (c : ascii) :
  is_digit c = true -> negb (is_space c) = true.
Proof.
  destruct c as [[] [] [] [] [] [] [] []]; intro H; try discriminate H;
    reflexivity.
Qed.

Lemma int_digits_digits (s : str) :
  forallb is_digit s = true ->
  forall acc b, s <> [] \/ b = true ->
  int_digits acc b s = Some (digits_value acc s).
Proof.
  induction s as [|c s IH]; intros F acc b H.
  - destruct H as [H | ->]; [congruence | reflexivity].
  - cbn [forallb] in F. apply andb_true_iff in F. destruct F as [Fc Fs].
    cbn [int_digits digits_value fold_left]. rewrite Fc.
    apply IH; auto.
Qed.

Lemma zeros_digits (k : Z) : forallb is_digit (zeros k) = true.
Proof.
  unfold zeros. induction (Z.to_nat k) as [|n IH]; [reflexivity|].
  cbn [repeat forallb]. now rewrite IH.
Qed.

Lemma zeros_value (k acc : Z) (s : str) :
  digits_value 0 (zeros k ++ s) = digits_value 0 s.
Proof.
  unfold zeros. induction (Z.to_nat k) as [|n IH]; [reflexivity|].
  cbn [repeat app]. unfold digits_value in *. cbn [fold_left]. exact IH.
Qed.

(** The digits of [format_04d] without the sign. *)
Lemma padded_digits (k n : Z) :
  0 <= n ->
  let s := zeros k ++ digits_of n in
  forallb is_digit s = true /\ s <> []
  /\ int_digits 0 false s = Some n.
Proof.
  intros H s. subst s. destruct (digits_of_digits n) as [D N].
  assert (F : forallb is_digit (zeros k ++ digits_of n) = true)
    by (rewrite forallb_app, zeros_digits, D; reflexivity).
  assert (E : zeros k ++ digits_of n <> []).
  { intro X. apply app_eq_nil in X. tauto. }
  repeat split; [exact F | exact E |].
  rewrite int_digits_digits by auto.
  now rewrite (zeros_value k 0), digits_of_value.
Qed.

Lemma int_of_str_format_04d (n : Z) : int_of_str (format_04d n) = Some n.
Proof.
  unfold format_04d. destruct (n <? 0) eqn:L.
  - destruct (padded_digits (3 - len (digits_of (- n))) (- n) ltac:(lia))
      as (F & E & V).
    unfold int_of_str. rewrite strip_id.
    + change (code "-" =? 45) with true. cbv iota.
      cbv zeta. rewrite V. cbn. f_equal. lia.
    + cbn [forallb]. change (negb (is_space "-")) with true. cbn [andb].
      apply forallb_forall. intros c Hc. apply digit_not_space.
      rewrite forallb_forall in F. auto.
  - destruct (padded_digits (4 - len (digits_of n)) n ltac:(lia))
      as (F & E & V). cbv zeta in *.
    unfold int_of_str. rewrite strip_id.
    + destruct (zeros _ ++ digits_of n) as [|c s] eqn:S; [congruence|].
      cbn [forallb] in F. apply andb_true_iff in F. destruct F as [Fc _].
      assert (C : (code c =? 45) = false /\ (code c =? 43) = false).
      { clear - Fc. destruct c as [[] [] [] [] [] [] [] []];
          try discriminate Fc; split; reflexivity. }
      destruct C as [-> ->]. exact V.
    + apply forallb_forall. intros c Hc. apply digit_not_space.
      rewrite forallb_forall in F. auto.
Qed.

Lemma format_04d_head (n : Z) :
  startswith (lit "S") (upper (format_04d n)) = false.
Proof.
  unfold format_04d. destruct (n <? 0); [reflexivity|].
  destruct (padded_digits (4 - len (digits_of n)) 0 ltac:(lia)) as (_ & _ & _).
  assert (F : forallb is_digit (zeros (4 - len (digits_of n)) ++ digits_of n)
              = true).
  { destruct (digits_of_digits n) as [D _].
    now rewrite forallb_app, zeros_digits, D. }
  cbv zeta. destruct (zeros _ ++ digits_of n) as [|c s]; [reflexivity|].
  cbn [forallb] in F. apply andb_true_iff in F. destruct F as [Fc _].
  clear - Fc. destruct c as [[] [] [] [] [] [] [] []]; try discriminate Fc;
    reflexivity.
Qed.

Lemma format_04d_len (n : Z) : 4 <= len (format_04d n).
Proof.
  unfold format_04d, zeros, len.
  destruct (n <? 0); cbv zeta; cbn [length];
    rewrite length_app, repeat_length; unfold len; lia.
Qed.

Lemma slice_from_tail (c : ascii) (s : str) : slice_from (c :: s) 1 = s.
Proof.
  unfold slice_from, slice, clamp_index, len. cbn [length].
  set (n := Z.of_nat (S (length s))).
  assert (L : n = Z.of_nat (length s) + 1) by (unfold n; lia).
  change (1 <? 0) with false. cbv iota.
  destruct (Z.ltb_spec n 0) as [N|N]; [lia|].
  rewrite Z.min_id. replace (Z.min n 1) with 1 by lia.
  change (Z.to_nat 1) with 1%nat. cbn [skipn].
  apply firstn_all2. lia.
Qed.

(** X13: the number [format_po_number] shows for a PO starts with [S]
    exactly when the job is named service in any letter case (the test
    [upload_invoice] makes to file the PO under Service), has at least
    four characters, and its digits read back as the PO id: two POs never
    share a number. *)
Theorem format_po_number_reads_back (po_id : Z) (job_name : str) :
  let number := format_po_number po_id job_name in
  let service := eqb (lower job_name) (lit "service") in
  startswith (lit "S") (upper number) = service
  /\ int_of_str (if service then slice_from number 1 else number)
     = Some po_id
  /\ 4 <= len number.
Proof.
  cbv zeta. unfold format_po_number.
  assert (E : negb (is_empty job_name) && eqb (lower job_name) (lit "service")
              = eqb (lower job_name) (lit "service")).
  { destruct job_name; reflexivity. }
  rewrite E. destruct (eqb (lower job_name) (lit "service")).
  - split; [reflexivity|]. split.
    + rewrite slice_from_tail. apply int_of_str_format_04d.
    + pose proof (format_04d_len po_id). unfold len in *. cbn [length]. lia.
  - split; [apply format_04d_head|].
    split; [apply int_of_str_format_04d | apply format_04d_len].
Qed.

Lemma setting_row_filter (key k value : str) (rows : settings_t) :
  setting_row k (replace_row key value rows)
  = if eqb k key then Some value else setting_row k rows.
Proof.
  unfold replace_row. induction rows as [|[k0 v0] rows IH].
  - cbn. rewrite (str_eqb_sym key k). reflexivity.
  - cbn [filter fst]. destruct (eqb k0 key) eqn:E0; cbn [negb].
    + rewrite IH. cbn [setting_row]. destruct (eqb k key) eqn:E; [reflexivity|].
      apply str_eqb_eq in E0. subst k0.
      rewrite (str_eqb_sym key k), E. reflexivity.
    + cbn [app setting_row]. rewrite IH.
      destruct (eqb k0 k) eqn:E1; [|reflexivity].
      apply str_eqb_eq in E1. subst k0. now rewrite E0.
Qed.

Lemma replace_row_keys (key value : str) (rows : settings_t) :
  NoDup (map fst rows) -> NoDup (map fst (replace_row key value rows)).
Proof.
  intro N. unfold replace_row. rewrite map_app. apply NoDup_app.
  - induction rows as [|[k0 v0] rows IH]; [constructor|].
    cbn [map fst] in N. inversion N as [|? ? N1 N2]; subst.
    cbn [filter fst]. destruct (negb (eqb k0 key)); [|auto].
    cbn [map fst]. constructor; [|auto].
    intro H. apply N1. apply in_map_iff in H. destruct H as (x & <- & H).
    apply filter_In in H. apply in_map. tauto.
  - repeat constructor. auto.
  - intros a H [<-|[]]. apply in_map_iff in H. destruct H as (x & E & H).
    apply filter_In in H. destruct H as [_ H]. cbn [map fst] in E.
    apply negb_true_iff, str_eqb_neq in H. congruence.
Qed.

(** X14: on a table with one row per key, [set_setting] followed by
    [get_setting] returns the value set, leaves every other key as it
    was and keeps one row per key; when the database cannot be reached
    nothing is written, [set_setting] returns [False] and [get_setting]
    gives the default. *)
Theorem set_setting_get_setting (rows : settings_t) (key value k : str)
  (default : option str) :
  NoDup (map fst rows) ->
  (let '(db', written) := set_setting (Some rows) key value in
   written = true
   /\ get_setting db' k default
      = (if eqb k key then Some value else get_setting (Some rows) k default)
   /\ exists rows', db' = Some rows' /\ NoDup (map fst rows'))
  /\ set_setting None key value = (None, false)
  /\ get_setting None k default = default.
Proof.
  intro N. split; [|split; reflexivity].
  cbn [set_setting get_setting]. split; [reflexivity|]. split.
  - rewrite setting_row_filter. destruct (eqb k key); reflexivity.
  - eexists. split; [reflexivity|]. now apply replace_row_keys.
Qed.

Lemma set_setting_get_setting_witness :
  get_setting
    (fst (set_setting (Some [(lit "claude_matching_enabled", lit "true")])
            (lit "claude_matching_enabled") (lit "false")))
    (lit "claude_matching_enabled") (Some (lit "true"))
  = Some (lit "false").
Proof.
  destruct (set_setting_get_setting
              [(lit "claude_matching_enabled", lit "true")]
              (lit "claude_matching_enabled") (lit "false")
              (lit "claude_matching_enabled") (Some (lit "true")))
    as [H _].
  - repeat constructor. intros [].
  - cbn [set_setting] in H. destruct H as (_ & H & _). exact H.
Defined.

Lemma session_has_set (key k : str) (value : option str) (s : session_t) :
  session_has k (session_set key value s)
  = eqb key k || session_has k s.
Proof.
  unfold session_has. induction s as [|[k0 v0] s IH].
  - cbn. now rewrite orb_false_r.
  - cbn [session_set]. destruct (eqb k0 key) eqn:E.
    + apply str_eqb_eq in E. subst k0. cbn [existsb fst].
      destruct (eqb key k); reflexivity.
    + cbn [existsb fst]. rewrite IH.
      destruct (eqb k0 k), (eqb key k); reflexivity.
Qed.

Lemma app_session_no_user (s : session_t) :
  app_session s -> session_has (lit "user") s = false.
Proof.
  induction 1 as [|sid u r e f s _ IH|s _ _|m s _ IH];
    [reflexivity| |reflexivity|].
  - unfold open_session. rewrite !session_has_set, IH. reflexivity.
  - rewrite session_has_set, IH. reflexivity.
Qed.

(** X15: [toggle_claude_setting] tests the session key [user], which
    neither [login] nor [login_with_token] writes: for every session the
    application creates it answers [Access denied] and leaves the
    settings as they are. *)
Theorem toggle_claude_setting_denied (session : session_t)
  (data : option (list (str * json))) (db : settings_db) :
  app_session session ->
  toggle_claude_setting session data db = (AccessDenied, db).
Proof.
  intro H. unfold toggle_claude_setting.
  now rewrite (app_session_no_user _ H).
Qed.

Lemma toggle_claude_setting_denied_witness :
  toggle_claude_setting
    (open_session (lit "7c1e") (lit "dana") (lit "office")
       (Some (lit "dana@example.com")) (Some (lit "Dana Reyes")) [])
    (Some switch_off) (Some [(lit "claude_matching_enabled", lit "true")])
  = (AccessDenied, Some [(lit "claude_matching_enabled", lit "true")]).
Proof.
  apply (toggle_claude_setting_denied
           (open_session (lit "7c1e") (lit "dana") (lit "office")
              (Some (lit "dana@example.com")) (Some (lit "Dana Reyes")) [])).
  apply session_opened, session_fresh.
Defined.

(** X16: for a session that passes the test of [toggle_claude_setting]
    and a reachable database, matching is enabled afterwards exactly
    when the package and the API key are there and the body asked for
    it: the value written is the truth value of the [enabled] field. *)
Theorem toggle_claude_setting_effect (session : session_t)
  (data : list (str * json)) (rows : settings_t)
  (anthropic_available : bool) (anthropic_api_key : str) :
  session_has (lit "user") session = true ->
  session_get (lit "role") session = Some (lit "office") ->
  let enabled := json_get (lit "enabled") (JBool false) data in
  let '(response, db') :=
    toggle_claude_setting session (Some data) (Some rows) in
  response = Toggled enabled
  /\ is_claude_matching_enabled anthropic_available anthropic_api_key db'
     = anthropic_available && negb (is_empty anthropic_api_key)
       && json_truthy enabled.
Proof.
  intros U R. cbv zeta. unfold toggle_claude_setting.
  rewrite U, R. cbn [negb orb option_str_eqb]. rewrite str_eqb_refl.
  cbn [negb set_setting]. split; [reflexivity|].
  unfold is_claude_matching_enabled.
  destruct anthropic_available; [|reflexivity].
  destruct (is_empty anthropic_api_key); [reflexivity|].
  cbn [negb orb andb get_setting]. rewrite setting_row_filter.
  rewrite str_eqb_refl.
  destruct (json_truthy _); reflexivity.
Qed.

Lemma toggle_claude_setting_effect_witness :
  let '(response, db') :=
    toggle_claude_setting office_user_session (Some switch_off)
      (Some [(lit "claude_matching_enabled", lit "true")]) in
  response = Toggled (JBool false)
  /\ is_claude_matching_enabled true (lit "sk-key") db' = false.
Proof.
  apply (toggle_claude_setting_effect office_user_session switch_off
           [(lit "claude_matching_enabled", lit "true")] true (lit "sk-key"));
    reflexivity.
Defined.

Lemma fallback_chain_assist (e1 e2 : env) (text : str) (po_map : po_map_t)
  (st : chain) :
  active_job_names e1 = active_job_names e2 ->
  fallback_chain e1 text po_map st = fallback_chain e2 text po_map st.
Proof.
  intro J. unfold fallback_chain, fuzzy_job_scan. now rewrite J.
Qed.

Lemma extract_invoice_data_assist_off (e1 e2 : env) (text : str)
  (po_map : po_map_t) :
  claude_matching_enabled e1 = false -> claude_matching_enabled e2 = false ->
  active_job_names e1 = active_job_names e2 ->
  extract_invoice_data e1 text po_map = extract_invoice_data e2 text po_map.
Proof.
  intros C1 C2 J. unfold extract_invoice_data, claude_step.
  rewrite C1, C2, andb_false_r.
  now rewrite (fallback_chain_assist e1 e2 text po_map _ J).
Qed.

Lemma process_pages_assist_off (e1 e2 : env) (timestamp : str)
  (po_map : po_map_t) (ps : list page) (page_num : Z) (st : page_loop) :
  claude_matching_enabled e1 = false -> claude_matching_enabled e2 = false ->
  active_job_names e1 = active_job_names e2 ->
  ocr_support e1 = ocr_support e2 ->
  process_pages e1 timestamp po_map page_num ps st
  = process_pages e2 timestamp po_map page_num ps st.
Proof.
  intros C1 C2 J O. revert page_num st.
  induction ps as [|p ps IH]; intros k st; [reflexivity|].
  cbn [process_pages]. unfold process_page, page_text. rewrite O.
  rewrite (extract_invoice_data_assist_off e1 e2 _ po_map C1 C2 J).
  destruct (extract_invoice_data e2 _ po_map); [apply IH | reflexivity].
Qed.

(** X17: when matching is switched off (the stored setting is not
    [true] in some letter case, or the package or the key is missing) the
    outcome of a batch does not depend on the assist service: it is never
    consulted. *)
Theorem process_bulk_pdf_assist_off (anthropic_available : bool)
  (anthropic_api_key : str) (db : settings_db) (active_jobs : list str)
  (assist1 assist2 : str -> str -> str -> option str) (ocr : bool)
  (timestamp : str) (po_map : po_map_t) (batch_pages : list page) :
  is_claude_matching_enabled anthropic_available anthropic_api_key db
  = false ->
  process_bulk_pdf
    (engine_env anthropic_available anthropic_api_key db active_jobs assist1
       ocr) timestamp po_map batch_pages
  = process_bulk_pdf
      (engine_env anthropic_available anthropic_api_key db active_jobs assist2
         ocr) timestamp po_map batch_pages.
Proof.
  intro H. unfold process_bulk_pdf.
  rewrite (process_pages_assist_off
             (engine_env anthropic_available anthropic_api_key db active_jobs
                assist1 ocr)
             (engine_env anthropic_available anthropic_api_key db active_jobs
                assist2 ocr)); auto.
Qed.

Lemma process_bulk_pdf_assist_off_witness :
  process_bulk_pdf
    (engine_env true (lit "sk-key")
       (Some [(lit "claude_matching_enabled", lit "False")])
       [lit "Somerville"] (fun _ _ _ => Some (reply_2045 "high")) false)
    sample_stamp two_pos sample_batch
  = process_bulk_pdf
      (engine_env true (lit "sk-key")
         (Some [(lit "claude_matching_enabled", lit "False")])
         [lit "Somerville"] (fun _ _ _ => None) false)
      sample_stamp two_pos sample_batch.
Proof.
  apply (process_bulk_pdf_assist_off true (lit "sk-key")
           (Some [(lit "claude_matching_enabled", lit "False")])).
  reflexivity.
Defined.

Lemma update_where_ids (condition : po_row -> bool) (change : po_row -> po_row)
  (table : po_table) :
  (forall row, row_id (change row) = row_id row) ->
  map row_id (update_where condition change table) = map row_id table.
Proof.
  intro H. unfold update_where. rewrite map_map. apply map_ext.
  intro row. destruct (condition row); auto.
Qed.

Lemma rowcount_key (k : Z) (p : po_row -> bool) (table : po_table) :
  NoDup (map row_id table) ->
  0 <= rowcount (fun row => (row_id row =? k) && p row) table <= 1.
Proof.
  unfold rowcount. induction table as [|r table IH]; intro N; [cbn; lia|].
  cbn [map] in N. inversion N as [|? ? N1 N2]; subst.
  cbn [filter]. destruct (row_id r =? k) eqn:E.
  - assert (Z0 : filter (fun row => (row_id row =? k) && p row) table = []).
    { apply filter_none. intros x Hx. destruct (row_id x =? k) eqn:Ex;
        [|reflexivity]. exfalso. apply N1. apply in_map_iff. exists x.
      split; [lia | exact Hx]. }
    rewrite Z0. destruct (p r); cbn; lia.
  - cbn [andb]. now apply IH.
Qed.

Lemma bulk_loop_spec (status now notes : str) (by_user : option str)
  (ids : list Z) :
  eqb status (lit "pending") = false ->
  forall processed table,
    NoDup (map row_id table) ->
    bulk_loop ids status now notes by_user processed table
    = (processed + rowcount (selected_pending ids) table,
       update_where (selected_pending ids)
         (decide status now notes by_user) table).
Proof.
  intro HS. induction ids as [|k ids IH]; intros processed table N.
  - cbn [bulk_loop]. unfold selected_pending, rowcount, update_where.
    cbn [existsb]. f_equal.
    + rewrite filter_none; [cbn; lia|]. intros. apply andb_false_r.
    + rewrite <- (map_id table) at 1. apply map_ext. intro row.
      now rewrite andb_false_r.
  - cbn [bulk_loop]. cbv zeta.
    set (c := fun row => (row_id row =? k) && is_pending row).
    set (d := decide status now notes by_user).
    rewrite IH by (rewrite update_where_ids; auto).
    f_equal.
    + pose proof (rowcount_key k is_pending table N) as B. fold c in B.
      assert (E : rowcount (selected_pending (k :: ids)) table
                  = rowcount c table
                    + rowcount (selected_pending ids) (update_where c d table)).
      { clear B N. unfold rowcount, update_where. subst c.
        unfold selected_pending.
        induction table as [|r table IHt]; [reflexivity|].
        cbn [map filter existsb].
        assert (Q : is_pending (d r) = false).
        { unfold is_pending, d. cbn [decide row_status]. exact HS. }
        destruct (is_pending r) eqn:P; destruct (row_id r =? k) eqn:K;
          cbn [andb orb]; rewrite ?Q, ?P; cbn [andb orb length];
          try (destruct (existsb (Z.eqb (row_id r)) ids); cbn [length]);
          cbn [existsb] in IHt; lia. }
      rewrite E. destruct (0 <? rowcount c table) eqn:L; lia.
    + unfold update_where. rewrite map_map. apply map_ext. intro row.
      subst c. unfold selected_pending. cbn [existsb].
      assert (Q : is_pending (d row) = false).
      { unfold is_pending, d. cbn [decide row_status]. exact HS. }
      destruct (is_pending row) eqn:P; destruct (row_id row =? k) eqn:K;
        cbn [andb orb]; rewrite ?Q, ?P; cbn [andb orb]; reflexivity.
Qed.

Lemma office_session_allowed : office_guard office_session = Allowed.
Proof. reflexivity. Qed.

(** X18: for an office session, a body that selects some POs and asks
    to approve or deny them, and a table with one row per id,
    [bulk_process_pos] changes exactly the selected rows that are pending:
    their status becomes the action followed by [d] ([approved], but
    [denyd] for a denial, where [process_request] writes [denied]), the
    other rows stay as they are, and [processed] is the number of rows
    changed. *)
Theorem bulk_process_pos_pending_only (session : session_t) (ids : list Z)
  (act text_notes now : str) (table : po_table) :
  office_guard session = Allowed ->
  ids <> [] ->
  act = lit "approve" \/ act = lit "deny" ->
  NoDup (map row_id table) ->
  bulk_process_pos session
    (Some {| po_ids := ids; action := Some act; notes := text_notes |})
    now table
  = (Processed (rowcount (selected_pending ids) table),
     update_where (selected_pending ids)
       (decide (act ++ lit "d") now text_notes (session_user session)) table).
Proof.
  intros G I A N. unfold bulk_process_pos. rewrite G.
  cbn [po_ids action notes].
  destruct ids as [|k ids]; [congruence|]. cbn [is_empty].
  assert (M : str_in act [lit "approve"; lit "deny"] = true)
    by (destruct A as [-> | ->]; reflexivity).
  rewrite M.
  rewrite bulk_loop_spec; [reflexivity | | exact N].
  destruct A as [-> | ->]; reflexivity.
Qed.

Lemma bulk_process_pos_pending_only_witness :
  bulk_process_pos office_session
    (Some {| po_ids := [2045; 1012; 2045]; action := Some (lit "deny");
             notes := lit "over budget" |})
    (lit "2024-01-01 12:00:00") sample_table
  = (Processed 1,
     [ new_row 1012 "Somerville" "approved";
       decide (lit "denyd") (lit "2024-01-01 12:00:00") (lit "over budget")
         (Some (lit "dana")) (new_row 2045 "Herons Glen" "pending");
       new_row 3001 "Somerville" "denied" ]).
Proof.
  rewrite (bulk_process_pos_pending_only office_session [2045; 1012; 2045]
             (lit "deny") (lit "over budget") (lit "2024-01-01 12:00:00")
             sample_table).
  - reflexivity.
  - reflexivity.
  - discriminate.
  - now right.
  - cbn. repeat constructor; cbn; intuition discriminate.
Defined.

Lemma session_get_set (key k : str) (value : option str) (s : session_t) :
  session_get k (session_set key value s)
  = if eqb key k then value else session_get k s.
Proof.
  induction s as [|[k0 v0] s IH].
  - cbn. reflexivity.
  - cbn [session_set]. destruct (eqb k0 key) eqn:E.
    + apply str_eqb_eq in E. subst k0. cbn [session_get].
      destruct (eqb key k); reflexivity.
    + cbn [session_get]. rewrite IH.
      destruct (eqb k0 k) eqn:E1; [|reflexivity].
      apply str_eqb_eq in E1. subst k0.
      now rewrite (str_eqb_sym key k), E.
Qed.

Lemma office_guard_open_session (session_id username role : str)
  (email full_name : option str) (session : session_t) :
  office_guard
    (open_session session_id username role email full_name session)
  = if eqb role (lit "office") then Allowed else Refused.
Proof.
  unfold office_guard, open_session.
  rewrite !session_has_set, !session_get_set. cbn. reflexivity.
Qed.

(** X19: a request in a session that [login] opened for a role other
    than [office] changes nothing: [process_request],
    [bulk_process_pos], [undo_approval] and [delete_invoice] answer
    without touching the table. *)
Theorem office_routes_guarded (session_id username role : str)
  (email full_name : option str) (before : session_t) (table : po_table)
  (request_id : Z) (act text_notes now : str) (data : option bulk_body)
  (target : option Z) :
  role <> lit "office" ->
  let session :=
    open_session session_id username role email full_name before in
  process_request session request_id act text_notes now table
  = (Unauthorized, table)
  /\ bulk_process_pos session data now table = (Unauthorized, table)
  /\ undo_approval session target table = (Unauthorized, table)
  /\ delete_invoice session target table = (Unauthorized, table).
Proof.
  intros R session.
  assert (G : office_guard session = Refused).
  { unfold session. rewrite office_guard_open_session.
    apply str_eqb_neq in R. now rewrite R. }
  unfold process_request, bulk_process_pos, undo_approval, delete_invoice.
  rewrite G. repeat split.
Qed.

Lemma office_routes_guarded_witness :
  process_request technician_session 2045 (lit "approve") []
    (lit "2024-01-01 12:00:00") sample_table = (Unauthorized, sample_table)
  /\ bulk_process_pos technician_session
       (Some {| po_ids := [2045]; action := Some (lit "approve");
                notes := [] |})
       (lit "2024-01-01 12:00:00") sample_table
     = (Unauthorized, sample_table)
  /\ undo_approval technician_session (Some 1012) sample_table
     = (Unauthorized, sample_table)
  /\ delete_invoice technician_session (Some 1012) sample_table
     = (Unauthorized, sample_table).
Proof.
  apply (office_routes_guarded (lit "90af") (lit "rdiaz") (lit "technician")
           None (Some (lit "R. Diaz")) [] sample_table 2045 (lit "approve")
           [] (lit "2024-01-01 12:00:00")).
  discriminate.
Defined.

Lemma commit_rows (now : str) (us : list po_update) (table : po_table) :
  commit now us table = map (commit_row now us) table.
Proof.
  unfold commit, commit_row. revert table.
  induction us as [|u us IH]; intro table; cbn [fold_left].
  - now rewrite map_id.
  - rewrite IH. unfold update_where. rewrite map_map. reflexivity.
Qed.

Lemma commit_row_fixed (now : str) (us : list po_update) (row : po_row) :
  row_id (commit_row now us row) = row_id row
  /\ row_status (commit_row now us row) = row_status row
  /\ row_job_name (commit_row now us row) = row_job_name row.
Proof.
  unfold commit_row. revert row.
  induction us as [|u us IH]; intro row; cbn [fold_left]; [auto|].
  destruct (row_id row =? update_id u); [|apply IH].
  destruct (IH (with_invoice now u row)) as (A & B & C).
  rewrite A, B, C. auto.
Qed.

Lemma commit_row_other (now : str) (us : list po_update) (row : po_row) :
  ~ In (row_id row) (map update_id us) -> commit_row now us row = row.
Proof.
  unfold commit_row. induction us as [|u us IH]; intro H; [reflexivity|].
  cbn [fold_left]. cbn [map In] in H.
  destruct (row_id row =? update_id u) eqn:E; [exfalso; apply H; lia|].
  apply IH. tauto.
Qed.

Lemma commit_row_hit (now : str) (us : list po_update) (row : po_row) :
  In (row_id row) (map update_id us) ->
  exists u, In u us /\ update_id u = row_id row
            /\ row_invoice_filename (commit_row now us row)
               = Some (update_invoice_filename u)
            /\ row_invoice_number (commit_row now us row)
               = Some (update_invoice_number u)
            /\ row_invoice_cost (commit_row now us row)
               = Some (update_invoice_cost u)
            /\ row_match_method (commit_row now us row)
               = Some (update_match_method u).
Proof.
  revert row. induction us as [|u us IH]; intros row H; [contradiction|].
  change (commit_row now (u :: us) row)
    with (commit_row now us
            (if row_id row =? update_id u then with_invoice now u row
             else row)).
  destruct (in_dec Z.eq_dec (row_id row) (map update_id us)) as [L|L].
  - set (row1 := if row_id row =? update_id u then _ else row).
    assert (I1 : row_id row1 = row_id row)
      by (unfold row1; destruct (row_id row =? update_id u); reflexivity).
    rewrite <- I1 in L. destruct (IH row1 L) as (u' & Hu & E & R).
    exists u'. rewrite <- I1. split; [now right|]. auto.
  - cbn [map In] in H. destruct H as [H|H]; [|contradiction].
    rewrite <- H, Z.eqb_refl.
    rewrite commit_row_other by (cbn [with_invoice row_id]; congruence).
    exists u. cbn. auto 10.
Qed.

(** X20: committing the updates of a batch that completes, on the table
    the eligible map was read from, closes the POs it matched: each of
    them was eligible before and is not eligible afterwards, its row
    holds the invoice of one of the updates for it, no id or status
    changes, and the rows of the other POs stay as they are. *)
Theorem batch_commit_closes_pos (e : env) (timestamp now : str)
  (po_map : po_map_t) (batch_pages : list page) (table : po_table) :
  let run := process_bulk_pdf e timestamp po_map batch_pages in
  success (report run) = true ->
  map fst po_map = eligible_ids table ->
  let table' := commit now (updates run) table in
  map row_id table' = map row_id table
  /\ map row_status table' = map row_status table
  /\ (forall u, In u (updates run) ->
        In (update_id u) (eligible_ids table)
        /\ ~ In (update_id u) (eligible_ids table'))
  /\ (forall row, In row table ->
        ~ In (row_id row) (map update_id (updates run)) -> In row table')
  /\ (forall row', In row' table' ->
        In (row_id row') (map update_id (updates run)) ->
        exists u, In u (updates run) /\ update_id u = row_id row'
                  /\ row_invoice_filename row'
                     = Some (update_invoice_filename u)
                  /\ row_invoice_number row'
                     = Some (update_invoice_number u)
                  /\ row_invoice_cost row' = Some (update_invoice_cost u)
                  /\ row_match_method row' = Some (update_match_method u)).
Proof.
  intros run S Q table'. subst table'. rewrite commit_rows.
  assert (F : forall row, In (row_id row) (map update_id (updates run)) ->
              eligible (commit_row now (updates run) row) = false).
  { intros row H. destruct (commit_row_hit now _ row H)
      as (u & Hu & _ & N & _).
    destruct (process_bulk_pdf_update_facts _ _ _ _ u S Hu)
      as (_ & _ & _ & E & _).
    unfold eligible. rewrite N, E. cbn. apply andb_false_r. }
  split; [|split; [|split; [|split]]].
  - rewrite map_map. apply map_ext. intro. apply commit_row_fixed.
  - rewrite map_map. apply map_ext. intro. apply commit_row_fixed.
  - intros u Hu. split.
    + rewrite <- Q.
      now destruct (process_bulk_pdf_update_facts _ _ _ _ u S Hu).
    + unfold eligible_ids. intro H. apply in_map_iff in H.
      destruct H as (row' & I & H). apply filter_In in H.
      destruct H as [H El]. apply in_map_iff in H.
      destruct H as (row & <- & _).
      rewrite F in El; [discriminate|].
      destruct (commit_row_fixed now (updates run) row) as [<- _].
      rewrite I. now apply in_map.
  - intros row H N. apply in_map_iff. exists row.
    split; [now apply commit_row_other | exact H].
  - intros row' H I. apply in_map_iff in H. destruct H as (row & <- & _).
    destruct (commit_row_fixed now (updates run) row) as [A _].
    rewrite A in *. destruct (commit_row_hit now _ row I) as (u & R).
    exists u. exact R.
Qed.

Lemma batch_commit_closes_pos_witness :
  let run := process_bulk_pdf no_assist sample_stamp somerville_po
               sample_batch in
  let table' := commit (lit "2024-01-01 12:00:00") (updates run)
                  sample_table in
  map row_id table' = map row_id sample_table
  /\ eligible_ids table' = [].
Proof.
  destruct (batch_commit_closes_pos no_assist sample_stamp
              (lit "2024-01-01 12:00:00") somerville_po sample_batch
              sample_table) as (I & _).
  - vm_compute. reflexivity.
  - reflexivity.
  - split; [exact I | vm_compute; reflexivity].
Defined.

Lemma row_of_update_where (po_id : Z) (change : po_row -> po_row)
  (table : po_table) :
  (forall row, row_id (change row) = row_id row) ->
  row_of po_id (update_where (fun row => row_id row =? po_id) change table)
  = option_map change (row_of po_id table).
Proof.
  intro H. unfold row_of, update_where.
  induction table as [|r table IH]; [reflexivity|].
  cbn [map List.find]. destruct (row_id r =? po_id) eqn:E.
  - rewrite H, E. reflexivity.
  - rewrite E. exact IH.
Qed.

(** X21: the way of an invoice through the office routes.  While the
    invoice a batch attached is on a PO, [undo_approval] refuses;
    [delete_invoice] clears the five invoice columns and nothing else, so
    the PO is eligible again when it is approved, but its estimated cost
    stays the amount of the deleted invoice and its match method stays;
    after that [undo_approval] sets the PO back to pending. *)
Theorem invoice_lifecycle (session : session_t) (now : str) (u : po_update)
  (amount : Float.t) (table : po_table) (row : po_row) :
  office_guard session = Allowed ->
  update_id u <> 0 ->
  update_invoice_filename u <> [] ->
  update_estimated_cost u = Some amount ->
  row_of (update_id u) table = Some row ->
  let target := Some (update_id u) in
  let attached := commit now [u] table in
  let cleared := snd (delete_invoice session target attached) in
  let row' := without_invoice (with_invoice now u row) in
  undo_approval session target attached
  = (Rejected (lit "Cannot undo approval - PO has invoice attached. Delete invoice first."),
     attached)
  /\ fst (delete_invoice session target attached) = Succeeded
  /\ row_of (update_id u) cleared = Some row'
  /\ eligible row' = eqb (row_status row) (lit "approved")
  /\ row_estimated_cost row' = amount
  /\ row_match_method row' = Some (update_match_method u)
  /\ fst (undo_approval session target cleared) = Succeeded
  /\ row_of (update_id u) (snd (undo_approval session target cleared))
     = Some (to_pending row').
Proof.
  intros G Z0 N A R target attached cleared row'.
  assert (T : truthy target = true).
  { unfold target. cbn. apply negb_true_iff. lia. }
  assert (R1 : row_of (update_id u) attached = Some (with_invoice now u row)).
  { unfold attached, commit. cbn [fold_left].
    rewrite row_of_update_where by reflexivity. now rewrite R. }
  assert (R2 : row_of (update_id u) cleared = Some row').
  { unfold cleared, delete_invoice. rewrite G, T. cbn [negb snd].
    unfold target. rewrite row_of_update_where by reflexivity.
    now rewrite R1. }
  split; [|split; [|split; [exact R2|split; [|split; [|split; [|split]]]]]].
  - unfold undo_approval. rewrite G, T. cbn [negb]. unfold target.
    rewrite R1. cbn [with_invoice row_invoice_filename has_text].
    destruct (update_invoice_filename u); [congruence | reflexivity].
  - unfold delete_invoice. rewrite G, T. reflexivity.
  - unfold row', eligible. cbn. now rewrite andb_true_r.
  - unfold row'. cbn. now rewrite A.
  - reflexivity.
  - unfold undo_approval. rewrite G, T. cbn [negb]. unfold target.
    rewrite R2. reflexivity.
  - unfold undo_approval. rewrite G, T. cbn [negb]. unfold target.
    rewrite R2. cbn [row' without_invoice row_invoice_filename has_text snd].
    rewrite row_of_update_where by reflexivity. now rewrite R2.
Qed.

Lemma invoice_lifecycle_witness :
  let u := {| update_id := 1012;
              update_invoice_filename :=
                lit "PO1012_20240101_120000_INV784513.pdf";
              update_invoice_number := lit "784513";
              update_invoice_cost := lit "7.25";
              update_estimated_cost := Float.of_str (lit "7.25");
              update_match_method := lit "Table Column" |} in
  let attached := commit (lit "2024-01-01 12:00:00") [u] sample_table in
  let cleared := snd (delete_invoice office_session (Some 1012) attached) in
  fst (undo_approval office_session (Some 1012) attached)
  = Rejected (lit "Cannot undo approval - PO has invoice attached. Delete invoice first.")
  /\ option_map row_estimated_cost (row_of 1012 cleared)
     = Float.of_str (lit "7.25")
  /\ option_map row_status
       (row_of 1012 (snd (undo_approval office_session (Some 1012) cleared)))
     = Some (lit "pending").
Proof.
  intros u attached cleared.
  assert (A : update_estimated_cost u
              = Some (Float.Finite (8162774324609024 # 1125899906842624)))
    by (vm_compute; reflexivity).
  destruct (invoice_lifecycle office_session (lit "2024-01-01 12:00:00") u
              (Float.Finite (8162774324609024 # 1125899906842624))
              sample_table
              (new_row 1012 "Somerville" "approved")
              eq_refl ltac:(discriminate) ltac:(discriminate) A eq_refl)
    as (H1 & _ & H3 & _ & H5 & _ & _ & H8).
  split; [exact (f_equal fst H1)|]. split.
  - etransitivity; [exact (f_equal (option_map row_estimated_cost) H3)|].
    cbn [option_map]. rewrite H5. symmetry. exact A.
  - exact (f_equal (option_map row_status) H8).
Defined.
